(** * Register allocator core of ART's optimizing compiler

    A shallow embedding of [compiler/optimizing/register_allocator.cc]:
    the call-clobber mask computation, [GetRegisterMask], the interference
    validator [ValidateIntervals], and the splitting primitives [Split] and
    [SplitBetween], followed by the properties proved about them.

    Conventions.
    - [size_t] counters and positions that the code only compares and
      increments are [nat]; [uint32_t] masks and [int] registers and spill
      slots are [Z], with the 32-bit and 64-bit wrap-around written out.
    - Intervals live in an arena ([list LiveInterval]) and are addressed by
      their index; a null pointer is [None].
    - A function that can abort or has undefined behaviour returns a
      [result]; [DCHECK]s abort only when [kIsDebugBuild] is set. *)

From Stdlib Require Import ZArith List Bool Lia.
From stdpp Require Import base tactics option list.


(** ** Outcomes of running a piece of the allocator *)

(** Why an execution did not produce a value. *)
Inductive failure : Type :=
| DCheckFailed                         (* a DCHECK, debug builds only *)
| CheckFailed                          (* a CHECK, every build *)
| SpillSlotConflict (position : nat)   (* LOG(FATAL) "Spill slot conflict at" *)
| RegisterConflict (position : nat) (reg : nat)
                                       (* LOG(FATAL) "Register conflict at" *)
| UndefinedBehaviour                   (* null or dangling dereference, index
                                          out of bounds, oversized shift *)
| OutOfFuel.                           (* the model's loop bound was reached *)

(** [Ok a]: the code fell through with value [a].  [Return b]: a
    [return b;] statement ran inside a loop nest and unwinds to the boundary
    of the enclosing function.  [Halt f]: the execution stopped. *)
Inductive result (A : Type) : Type :=
| Ok (a : A)
| Return (b : bool)
| Halt (f : failure).
Arguments Ok {A} a.
Arguments Return {A} b.
Arguments Halt {A} f.

Definition bind {A B : Type} (m : result A) (k : A -> result B) : result B :=
  match m with
  | Ok a => k a
  | Return b => Return b
  | Halt f => Halt f
  end.

(** The boundary of a function returning [bool]. *)
Definition returning (m : result bool) : result bool :=
  match m with
  | Return b => Ok b
  | other => other
  end.

Notation "'let*' x ':=' m 'in' k" := (bind m (fun x => k))
  (at level 10, x name, m at level 100, k at level 200,
   format "'[v' 'let*'  x  ':='  m  'in' '/' k ']'").
Notation "'let*' ' p ':=' m 'in' k" := (bind m (fun x => let 'p := x in k))
  (at level 10, p pattern, m at level 100, k at level 200).

(** [DCHECK(c)]: aborts in debug builds when [c] is false, nothing otherwise. *)
Definition DCHECK (kIsDebugBuild : bool) (c : bool) : result unit :=
  if kIsDebugBuild && negb c then Halt DCheckFailed else Ok tt.

(** [CHECK(c)]: aborts in every build when [c] is false. *)
Definition CHECK (c : bool) : result unit :=
  if c then Ok tt else Halt CheckFailed.

(** A loop that threads a state through the elements of a list, stopping
    at the first element whose body does not fall through. *)
Fixpoint for_each {A S : Type} (body : A -> S -> result S) (l : list A) (s : S)
  : result S :=
  match l with
  | [] => Ok s
  | x :: rest => let* s' := body x s in for_each body rest s'
  end.

(** ** Machine integers *)

Definition uint32_bits : Z := 32.
Definition uint32 (z : Z) : Z := z mod 2 ^ uint32_bits.
Definition size_t_bits : Z := 64.
Definition size_t (z : Z) : Z := z mod 2 ^ size_t_bits.

(** [1u << reg] on [uint32_t]; shifting by a negative amount or by 32 or
    more is undefined in C++. *)
Definition shl1 (reg : Z) : result Z :=
  if (0 <=? reg)%Z && (reg <? uint32_bits)%Z
  then Ok (Z.shiftl 1 reg)
  else Halt UndefinedBehaviour.

(** ** Call-clobber masks *)

Section BlockedRegisters.
Variable kIsDebugBuild : bool.

(** The body of the [for] loop of [GetBlockedRegistersForCall]. *)
Definition GetBlockedRegistersForCall_body (is_callee_save : nat -> bool)
    (reg : nat) (mask : Z) : result Z :=
  if negb (is_callee_save reg)
  then let* bit := shl1 (Z.of_nat reg) in Ok (Z.lor mask bit)
  else Ok mask.

Definition GetBlockedRegistersForCall (num_registers : nat)
    (is_callee_save : nat -> bool) : result Z :=
  let* _ := DCHECK kIsDebugBuild (Z.of_nat num_registers <=? uint32_bits)%Z in
  for_each (GetBlockedRegistersForCall_body is_callee_save)
           (seq 0 num_registers) 0%Z.

End BlockedRegisters.

(** ** Data model *)

(** A live range [[start_, end_)]; the [next_] link of the source's singly
    linked list is the tail of the Rocq list holding the range, and a null
    [LiveRange*] is the empty list. *)
Record LiveRange : Type := mkLiveRange { start_ : nat; end_ : nat }.

(** Modelled from the spec: the value types of the missing [DataType], of
    which the code asks only which are floating point and which is void. *)
Inductive DataType : Type :=
| kReference | kBool | kInt32 | kInt64 | kFloat32 | kFloat64 | kVoid.

Definition IsFloatingPointType (t : DataType) : bool :=
  match t with
  | kFloat32 | kFloat64 => true
  | _ => false
  end.

Definition DataType_eqb (a b : DataType) : bool :=
  match a, b with
  | kReference, kReference | kBool, kBool | kInt32, kInt32 | kInt64, kInt64
  | kFloat32, kFloat32 | kFloat64, kFloat64 | kVoid, kVoid => true
  | _, _ => false
  end.

Inductive RegisterType : Type := kCoreRegister | kFpRegister.

Definition is_fp_register (t : RegisterType) : bool :=
  match t with
  | kFpRegister => true
  | kCoreRegister => false
  end.

(** Modelled from the spec: the defining instruction of a value (the
    missing [HInstruction]), of which the validator asks only whether it is
    a parameter or the current-method pseudo-value. *)
Record HInstruction : Type := mkHInstruction {
  IsParameterValue : bool;
  IsCurrentMethod : bool
}.

(** Modelled from the spec: the optional high or low companion of an
    interval holding half of a wide value.  [HighInterval q] on an interval
    says that [q] is its high half, so that the interval is the low one. *)
Inductive Companion : Type :=
| NoCompanion
| HighInterval (q : nat)
| LowInterval (q : nat).

(** Modelled from the spec: the attributes of the missing [LiveInterval]
    class (section 3), addressed by arena index as section 9 suggests. *)
Record LiveInterval : Type := mkLiveInterval {
  first_range_ : list LiveRange;
  register_ : option Z;
  spill_slot_ : option Z;
  is_fixed_ : bool;
  type_ : DataType;
  parent_ : nat;
  next_sibling_ : option nat;
  companion_ : Companion;
  defined_by_ : option HInstruction;
  is_using_input_register_ : bool;
  can_use_input_register_ : bool
}.

Definition Arena : Type := list LiveInterval.

(** Following a [LiveInterval*]. *)
Definition deref (h : list LiveInterval) (p : nat) : result LiveInterval :=
  match h !! p with
  | Some i => Ok i
  | None => Halt UndefinedBehaviour
  end.

Definition HasRegister (i : LiveInterval) : bool :=
  match register_ i with Some _ => true | None => false end.

Definition HasSpillSlot (i : LiveInterval) : bool :=
  match spill_slot_ i with Some _ => true | None => false end.

Definition HasHighInterval (i : LiveInterval) : bool :=
  match companion_ i with HighInterval _ => true | _ => false end.

Definition HasLowInterval (i : LiveInterval) : bool :=
  match companion_ i with LowInterval _ => true | _ => false end.

(** [first_range_->GetStart()]. *)
Definition GetStart (i : LiveInterval) : result nat :=
  match first_range_ i with
  | r :: _ => Ok (start_ r)
  | [] => Halt UndefinedBehaviour
  end.

(** [last_range_->GetEnd()]. *)
Definition GetEnd (i : LiveInterval) : result nat :=
  match last (first_range_ i) with
  | Some r => Ok (end_ r)
  | None => Halt UndefinedBehaviour
  end.

(** Modelled from the spec: an interval is dead at a position once all of
    its ranges have ended; a position inside a lifetime hole is not live,
    and not dead either (section 4.1 requires the second, not the first). *)
Definition IsDeadAt (i : LiveInterval) (position : nat) : result bool :=
  let* e := GetEnd i in Ok (e <=? position).

Definition with_register (r : option Z) (i : LiveInterval) : LiveInterval :=
  mkLiveInterval (first_range_ i) r (spill_slot_ i) (is_fixed_ i) (type_ i)
    (parent_ i) (next_sibling_ i) (companion_ i) (defined_by_ i)
    (is_using_input_register_ i) (can_use_input_register_ i).

Definition with_companion (c : Companion) (i : LiveInterval) : LiveInterval :=
  mkLiveInterval (first_range_ i) (register_ i) (spill_slot_ i) (is_fixed_ i)
    (type_ i) (parent_ i) (next_sibling_ i) c (defined_by_ i)
    (is_using_input_register_ i) (can_use_input_register_ i).

(** Writing through a [LiveInterval*]. *)
Definition update (h : list LiveInterval) (p : nat)
    (f : LiveInterval -> LiveInterval) : result (list LiveInterval) :=
  let* i := deref h p in Ok (<[p := f i]> h).

Definition ClearRegister (h : list LiveInterval) (p : nat)
  : result (list LiveInterval) :=
  update h p (with_register None).

Definition SetHighInterval (h : list LiveInterval) (p high : nat)
  : result (list LiveInterval) :=
  update h p (with_companion (HighInterval high)).

Definition SetLowInterval (h : list LiveInterval) (p low : nat)
  : result (list LiveInterval) :=
  update h p (with_companion (LowInterval low)).

(** ** Collaborators *)

(** The queries the allocator core makes of the code generator. *)
Record CodeGenerator : Type := mkCodeGenerator {
  GetNumberOfCoreRegisters : nat;
  GetNumberOfFloatingPointRegisters : nat;
  IsCoreCalleeSaveRegister : nat -> bool;
  IsFloatingPointCalleeSaveRegister : nat -> bool;
  HasAllocatedRegister : bool -> nat -> bool
}.

(** Basic blocks and loops are named by numbers. *)
Definition HBasicBlock : Type := nat.
Definition HLoopInformation : Type := nat.

(** The queries [SplitBetween] makes of the control-flow graph.
    [LoopsOutward b] is the sequence of loops that
    [HLoopInformationOutwardIterator] yields for block [b], innermost
    first. *)
Record HGraph : Type := mkHGraph {
  GetDominator : HBasicBlock -> option HBasicBlock;
  GetDominatedBlocks : HBasicBlock -> list HBasicBlock;
  GetLifetimeStart : HBasicBlock -> nat;
  LoopsOutward : HBasicBlock -> list HLoopInformation;
  GetHeader : HLoopInformation -> HBasicBlock
}.

(** The queries made of the liveness analysis; both take an instruction
    index, which is half a position. *)
Record SsaLivenessAnalysis : Type := mkSsaLivenessAnalysis {
  GetInstructionFromPosition : nat -> option HInstruction;
  GetBlockFromPosition : nat -> option HBasicBlock
}.

(** Modelled from the spec: [MaxInt<uint32_t>(bits)], the mask of all the
    registers of a file of [bits] registers.  It is meant for
    [bits <= 32], the files that the spec has: beyond, the program shifts
    by more than the width of the mask, which is undefined, and the
    statements below that read the value of this mask bound the register
    count by 32. *)
Definition MaxInt (bits : nat) : Z := uint32 (Z.ones (Z.of_nat bits)).

Definition GetBlockedCoreRegistersForCall (kIsDebugBuild : bool)
    (num_registers : nat) (codegen : CodeGenerator) : result Z :=
  GetBlockedRegistersForCall kIsDebugBuild num_registers
    (IsCoreCalleeSaveRegister codegen).

Definition GetBlockedFpRegistersForCall (kIsDebugBuild : bool)
    (num_registers : nat) (codegen : CodeGenerator) : result Z :=
  GetBlockedRegistersForCall kIsDebugBuild num_registers
    (IsFloatingPointCalleeSaveRegister codegen).

(** ** The allocator instance and [GetRegisterMask] *)

Record RegisterAllocator : Type := mkRegisterAllocator {
  codegen_ : CodeGenerator;
  liveness_ : SsaLivenessAnalysis;
  graph_ : HGraph;
  num_core_registers_ : nat;
  num_fp_registers_ : nat;
  core_registers_blocked_for_call_ : Z;
  fp_registers_blocked_for_call_ : Z
}.

Section Allocator.
Variable kIsDebugBuild : bool.

(** The constructor. *)
Definition RegisterAllocator_new (codegen : CodeGenerator)
    (liveness : SsaLivenessAnalysis) (graph : HGraph)
  : result RegisterAllocator :=
  let num_core := GetNumberOfCoreRegisters codegen in
  let num_fp := GetNumberOfFloatingPointRegisters codegen in
  let* core := GetBlockedCoreRegistersForCall kIsDebugBuild num_core codegen in
  let* fp := GetBlockedFpRegistersForCall kIsDebugBuild num_fp codegen in
  Ok (mkRegisterAllocator codegen liveness graph num_core num_fp core fp).

Definition GetRegisterMask (ra : RegisterAllocator) (interval : LiveInterval)
    (register_type : RegisterType) : result Z :=
  match register_ interval with
  | Some reg =>
      let* _ := DCHECK kIsDebugBuild
                  (eqb (is_fp_register register_type)
                       (IsFloatingPointType (type_ interval))) in
      let* _ := DCHECK kIsDebugBuild (size_t reg <=? uint32_bits)%Z in
      shl1 reg
  | None =>
      if is_fixed_ interval then
        let* _ := DCHECK kIsDebugBuild
                    (DataType_eqb (type_ interval) kVoid) in
        let* _ := DCHECK kIsDebugBuild
                    (negb (bool_decide (first_range_ interval = []))) in
        let* start := GetStart interval in
        let blocked_for_call :=
          match GetInstructionFromPosition (liveness_ ra) (start / 2) with
          | Some _ => true
          | None => false
          end in
        match register_type with
        | kCoreRegister =>
            Ok (if blocked_for_call then core_registers_blocked_for_call_ ra
                else MaxInt (num_core_registers_ ra))
        | kFpRegister =>
            Ok (if blocked_for_call then fp_registers_blocked_for_call_ ra
                else MaxInt (num_fp_registers_ ra))
        end
      else Ok 0%Z
  end.

End Allocator.

(** ** Iterating over all the ranges of a sibling chain *)

(** [current_range_] is the part of the range list that starts at the
    current range. *)
Record AllRangesIterator : Type := mkAllRangesIterator {
  current_interval_ : option nat;
  current_range_ : list LiveRange
}.

Definition AllRangesIterator_new (h : list LiveInterval) (interval : nat)
  : result AllRangesIterator :=
  let* i := deref h interval in
  Ok (mkAllRangesIterator (Some interval) (first_range_ i)).

Definition Done (it : AllRangesIterator) : bool :=
  match current_interval_ it with None => true | Some _ => false end.

(** [it.CurrentRange()], followed: the current range must not be null. *)
Definition CurrentRange (it : AllRangesIterator) : result LiveRange :=
  match current_range_ it with
  | r :: _ => Ok r
  | [] => Halt UndefinedBehaviour
  end.

(** [it.CurrentInterval()], followed. *)
Definition CurrentInterval (h : list LiveInterval) (it : AllRangesIterator)
  : result LiveInterval :=
  match current_interval_ it with
  | Some p => deref h p
  | None => Halt UndefinedBehaviour
  end.

Definition Advance (h : list LiveInterval) (it : AllRangesIterator)
  : result AllRangesIterator :=
  match current_range_ it with
  | [] => Halt UndefinedBehaviour
  | _ :: next :: rest =>
      Ok (mkAllRangesIterator (current_interval_ it) (next :: rest))
  | [_] =>
      let* i := CurrentInterval h it in
      match next_sibling_ i with
      | None => Ok (mkAllRangesIterator None [])
      | Some q =>
          let* sibling := deref h q in
          Ok (mkAllRangesIterator (Some q) (first_range_ sibling))
      end
  end.

(** [for (; !it.Done(); it.Advance()) body], run for at most [fuel]
    rounds. *)
Fixpoint all_ranges_loop {S : Type} (fuel : nat) (h : list LiveInterval)
    (body : AllRangesIterator -> S -> result S)
    (it : AllRangesIterator) (s : S) : result S :=
  match fuel with
  | O => Halt OutOfFuel
  | S fuel' =>
      if Done it then Ok s
      else
        let* s' := body it s in
        let* it' := Advance h it in
        all_ranges_loop fuel' h body it' s'
  end.

(** [for (AllRangesIterator it(start_interval); ...) body]. *)
Definition for_all_ranges {S : Type} (fuel : nat) (h : list LiveInterval)
    (body : AllRangesIterator -> S -> result S)
    (start_interval : nat) (s : S) : result S :=
  let* it := AllRangesIterator_new h start_interval in
  all_ranges_loop fuel h body it s.

(** ** The interference validator *)

(** Modelled from the spec: a timeline ([ArenaBitVector], not expandable)
    is a row of bits, one per position. *)
Definition BitVector : Type := list bool.

Definition IsBitSet (bv : list bool) (j : nat) : bool :=
  match bv !! j with
  | Some b => b
  | None => false
  end.

Definition SetBit (bv : list bool) (j : nat) : result (list bool) :=
  if j <? length bv then Ok (<[j := true]> bv) else Halt UndefinedBehaviour.

(** [v[idx]] on a vector, out of bounds being undefined. *)
Definition vector_at {A : Type} (v : list A) (idx : Z) : result A :=
  match v !! Z.to_nat idx with
  | Some x => Ok x
  | None => Halt UndefinedBehaviour
  end.

(** Modelled from the spec: [LowToHighBits(mask)], the positions of the
    bits set in a 32-bit mask, lowest first. *)
Definition LowToHighBits (mask : Z) : list nat :=
  filter (fun reg => Z.testbit mask (Z.of_nat reg) = true)
         (seq 0 (Z.to_nat uint32_bits)).

Section Validator.
Variable kIsDebugBuild : bool.
(** The missing constant [kVRegSize], the size in bytes of a stack slot. *)
Variable kVRegSize : Z.

(** The lambda [get_register_mask] of [ValidateIntervals]. *)
Definition get_register_mask (register_type : RegisterType)
    (number_of_registers : nat) (registers_blocked_for_call : Z)
    (liveness : option SsaLivenessAnalysis) (interval : LiveInterval)
  : result Z :=
  match register_ interval with
  | Some reg =>
      let* _ := DCHECK kIsDebugBuild
                  (eqb (is_fp_register register_type)
                       (IsFloatingPointType (type_ interval))) in
      let* _ := DCHECK kIsDebugBuild (size_t reg <=? uint32_bits)%Z in
      shl1 reg
  | None =>
      if is_fixed_ interval then
        let* _ := DCHECK kIsDebugBuild
                    (DataType_eqb (type_ interval) kVoid) in
        let* _ := DCHECK kIsDebugBuild
                    (negb (bool_decide (first_range_ interval = []))) in
        let* start := GetStart interval in
        match liveness with
        | None => Halt CheckFailed
        | Some l =>
            let blocked_for_call :=
              match GetInstructionFromPosition l (start / 2) with
              | Some _ => true
              | None => false
              end in
            Ok (if blocked_for_call then registers_blocked_for_call
                else MaxInt number_of_registers)
        end
      else Ok 0%Z
  end.

(** The index into [liveness_of_values] of the timeline of a spill slot,
    computed in [size_t]. *)
Definition spill_slot_index (number_of_registers number_of_out_slots : nat)
    (spill_slot : Z) : Z :=
  size_t (Z.of_nat number_of_registers + size_t spill_slot / kVRegSize
          - Z.of_nat number_of_out_slots).

(** Parameters and the current method have their own stack slot. *)
Definition has_own_stack_slot (defined_by : option HInstruction) : bool :=
  match defined_by with
  | Some d => IsParameterValue d || IsCurrentMethod d
  | None => false
  end.

(** The positions [j] of [for (j = start; j < end; ++j)]. *)
Definition positions (r : LiveRange) : list nat :=
  seq (start_ r) (end_ r - start_ r).

(** One round of the loop over the positions of a range on the timeline
    of a spill slot. *)
Definition mark_spill_slot (log_fatal_on_failure : bool) (j : nat)
    (liveness_of_spill_slot : list bool) : result (list bool) :=
  if IsBitSet liveness_of_spill_slot j then
    if log_fatal_on_failure then Halt (SpillSlotConflict j) else Return false
  else SetBit liveness_of_spill_slot j.

(** What the fatal path of a register conflict evaluates while it builds
    its message: the mask of every interval of the array. *)
Definition dump_register_conflict (h : list LiveInterval)
    (mask_of : LiveInterval -> result Z) (intervals : list nat) (j reg : nat)
  : result (list bool) :=
  let* _ := for_each (fun interval (_ : unit) =>
                        let* i := deref h interval in
                        let* _ := mask_of i in Ok tt) intervals tt in
  Halt (RegisterConflict j reg).

(** One round of the loop over the positions of a range on the timeline
    of a register. *)
Definition mark_register (h : list LiveInterval)
    (mask_of : LiveInterval -> result Z) (intervals : list nat)
    (log_fatal_on_failure : bool) (current : LiveInterval) (reg : nat)
    (j : nat) (liveness_of_register : list bool) : result (list bool) :=
  if IsBitSet liveness_of_register j then
    if is_using_input_register_ current && can_use_input_register_ current
    then Ok liveness_of_register
    else if log_fatal_on_failure
         then dump_register_conflict h mask_of intervals j reg
         else Return false
  else SetBit liveness_of_register j.

(** The body of the loop over the registers of the mask of [current]. *)
Definition mark_registers (h : list LiveInterval) (codegen : CodeGenerator)
    (mask_of : LiveInterval -> result Z) (intervals : list nat)
    (register_type : RegisterType) (log_fatal_on_failure : bool)
    (current : LiveInterval) (it : AllRangesIterator)
    (reg : nat) (liveness_of_values : list (list bool))
  : result (list (list bool)) :=
  let* _ :=
    if kIsDebugBuild && log_fatal_on_failure && negb (is_fixed_ current)
    then CHECK (HasAllocatedRegister codegen
                  (negb (is_fp_register register_type)) reg)
    else Ok tt in
  let* liveness_of_register := vector_at liveness_of_values (Z.of_nat reg) in
  let* range := CurrentRange it in
  let* marked := for_each (mark_register h mask_of intervals
                             log_fatal_on_failure current reg)
                          (positions range) liveness_of_register in
  Ok (<[reg := marked]> liveness_of_values).

(** The body of the second loop nest of [ValidateIntervals], for one range
    of one sibling. *)
Definition validate_range (h : list LiveInterval) (codegen : CodeGenerator)
    (mask_of : LiveInterval -> result Z) (intervals : list nat)
    (number_of_registers number_of_out_slots : nat)
    (register_type : RegisterType) (log_fatal_on_failure : bool)
    (it : AllRangesIterator) (liveness_of_values : list (list bool))
  : result (list (list bool)) :=
  let* current := CurrentInterval h it in
  let* parent := deref h (parent_ current) in
  let defined_by := defined_by_ parent in
  let* liveness_of_values :=
    match spill_slot_ parent with
    | Some slot =>
        if negb (has_own_stack_slot defined_by) then
          let idx := spill_slot_index number_of_registers
                                      number_of_out_slots slot in
          let* liveness_of_spill_slot := vector_at liveness_of_values idx in
          let* range := CurrentRange it in
          let* marked := for_each (mark_spill_slot log_fatal_on_failure)
                                  (positions range) liveness_of_spill_slot in
          Ok (<[Z.to_nat idx := marked]> liveness_of_values)
        else Ok liveness_of_values
    | None => Ok liveness_of_values
    end in
  let* mask := mask_of current in
  for_each (mark_registers h codegen mask_of intervals register_type
              log_fatal_on_failure current it)
           (LowToHighBits mask) liveness_of_values.

(** The body of the first loop nest: the largest end of a range. *)
Definition max_end_range (it : AllRangesIterator) (max_end : nat)
  : result nat :=
  let* range := CurrentRange it in Ok (Nat.max max_end (end_ range)).

Definition ValidateIntervals (fuel : nat) (h : list LiveInterval)
    (intervals : list nat) (number_of_spill_slots number_of_out_slots : nat)
    (codegen : CodeGenerator) (liveness : option SsaLivenessAnalysis)
    (register_type : RegisterType) (log_fatal_on_failure : bool)
  : result bool :=
  let number_of_registers :=
    match register_type with
    | kCoreRegister => GetNumberOfCoreRegisters codegen
    | kFpRegister => GetNumberOfFloatingPointRegisters codegen
    end in
  let* registers_blocked_for_call :=
    match register_type with
    | kCoreRegister =>
        GetBlockedCoreRegistersForCall kIsDebugBuild number_of_registers codegen
    | kFpRegister =>
        GetBlockedFpRegistersForCall kIsDebugBuild number_of_registers codegen
    end in
  let mask_of := get_register_mask register_type number_of_registers
                   registers_blocked_for_call liveness in
  let* max_end :=
    for_each (for_all_ranges fuel h max_end_range) intervals 0 in
  let liveness_of_values :=
    replicate (number_of_registers + number_of_spill_slots)
              (replicate max_end false) in
  returning (
    let* _ := for_each (for_all_ranges fuel h
                          (validate_range h codegen mask_of intervals
                             number_of_registers number_of_out_slots
                             register_type log_fatal_on_failure))
                       intervals liveness_of_values in
    Ok true).

End Validator.

(** ** Splitting *)

(** Modelled from the spec: cutting an ascending range list at a position.
    The ranges that end at or before the position stay, a range that
    contains it is cut in two, and the rest is the suffix. *)
Fixpoint split_ranges (position : nat) (ranges : list LiveRange)
  : list LiveRange * list LiveRange :=
  match ranges with
  | [] => ([], [])
  | r :: rest =>
      if end_ r <=? position then
        let '(before, suffix) := split_ranges position rest in
        (r :: before, suffix)
      else if position <=? start_ r then ([], r :: rest)
      else ([mkLiveRange (start_ r) position],
            mkLiveRange position (end_ r) :: rest)
  end.

(** Modelled from the spec: the missing [LiveInterval::SplitAt].  It
    creates a new interval that holds the suffix of the ranges of the
    original and links it as the next sibling; the spill slot and the
    defining instruction stay on the parent.  Splitting at or before the
    start, or where the interval is dead, is a caller error. *)
Definition SplitAt (h : list LiveInterval) (interval : nat) (position : nat)
  : result (list LiveInterval * nat) :=
  let* i := deref h interval in
  let* start := GetStart i in
  let* dead := IsDeadAt i position in
  if (position <=? start) || dead then Halt UndefinedBehaviour
  else
    let '(before, suffix) := split_ranges position (first_range_ i) in
    let new_interval := length h in
    let original :=
      mkLiveInterval before (register_ i) (spill_slot_ i) (is_fixed_ i)
        (type_ i) (parent_ i) (Some new_interval) (companion_ i)
        (defined_by_ i) (is_using_input_register_ i)
        (can_use_input_register_ i) in
    let sibling :=
      mkLiveInterval suffix None None false (type_ i) (parent_ i)
        (next_sibling_ i) NoCompanion None false false in
    Ok (<[interval := original]> h ++ [sibling], new_interval).

Section Splitting.
Variable kIsDebugBuild : bool.

Definition Split (h : list LiveInterval) (interval : nat) (position : nat)
  : result (list LiveInterval * nat) :=
  let* i := deref h interval in
  let* start := GetStart i in
  let* _ := DCHECK kIsDebugBuild (start <=? position) in
  let* dead := IsDeadAt i position in
  let* _ := DCHECK kIsDebugBuild (negb dead) in
  if position =? start then
    let* h := ClearRegister h interval in
    match companion_ i with
    | HighInterval high => let* h := ClearRegister h high in Ok (h, interval)
    | LowInterval low => let* h := ClearRegister h low in Ok (h, interval)
    | NoCompanion => Ok (h, interval)
    end
  else
    let* '(h, new_interval) := SplitAt h interval position in
    match companion_ i with
    | HighInterval high_of_interval =>
        let* '(h, high) := SplitAt h high_of_interval position in
        let* h := SetHighInterval h new_interval high in
        let* h := SetLowInterval h high new_interval in
        Ok (h, new_interval)
    | LowInterval low_of_interval =>
        let* '(h, low) := SplitAt h low_of_interval position in
        let* h := SetLowInterval h new_interval low in
        let* h := SetHighInterval h low new_interval in
        Ok (h, new_interval)
    | NoCompanion => Ok (h, new_interval)
    end.

(** The scan of [SplitBetween] over the blocks dominated by the dominator
    of [block_from]: one round. *)
Definition closer_dominated (g : HGraph) (from : nat)
    (block_from dominated block_to : HBasicBlock) : result HBasicBlock :=
  let position := GetLifetimeStart g dominated in
  if (from <? position) && (position <? GetLifetimeStart g block_to)
  then
    let* _ := DCHECK kIsDebugBuild (negb (dominated =? block_from)) in
    Ok dominated
  else Ok block_to.

(** The walk of [SplitBetween] over the loops around [block_to], outwards,
    until one whose header does not start after [block_from]. *)
Fixpoint outermost_header (g : HGraph) (block_from : HBasicBlock)
    (loops : list HLoopInformation) (block_to : HBasicBlock) : HBasicBlock :=
  match loops with
  | [] => block_to
  | loop :: outer =>
      let header := GetHeader g loop in
      if GetLifetimeStart g header <=? GetLifetimeStart g block_from
      then block_to
      else outermost_header g block_from outer header
  end.

(** The position that [SplitBetween] hands to [Split]. *)
Definition SplitBetween_position (ra : RegisterAllocator) (from to : nat)
  : result nat :=
  let g := graph_ ra in
  let block_from := GetBlockFromPosition (liveness_ ra) (from / 2) in
  let block_to := GetBlockFromPosition (liveness_ ra) (to / 2) in
  let* _ := DCHECK kIsDebugBuild (bool_decide (block_from <> None)) in
  let* _ := DCHECK kIsDebugBuild (bool_decide (block_to <> None)) in
  if bool_decide (block_from = block_to) then Ok to
  else
    match block_from, block_to with
    | Some block_from, Some block_to =>
        let* block_to :=
          match GetDominator g block_from with
          | Some dominator =>
              for_each (closer_dominated g from block_from)
                       (GetDominatedBlocks g dominator) block_to
          | None => Ok block_to
          end in
        let block_to :=
          outermost_header g block_from (LoopsOutward g block_to) block_to in
        Ok (GetLifetimeStart g block_to)
    | _, _ => Halt UndefinedBehaviour
    end.

Definition SplitBetween (ra : RegisterAllocator) (h : list LiveInterval)
    (interval : nat) (from to : nat) : result (list LiveInterval * nat) :=
  let* position := SplitBetween_position ra from to in
  Split h interval position.

End Splitting.


(** * Definitions used in the statements *)

(** ** Register types and the scenario of the spec *)

(** The register count and the callee-save predicate of a register type,
    and the values an allocator instance caches for it. *)
Definition registers_of (codegen : CodeGenerator) (t : RegisterType) : nat :=
  match t with
  | kCoreRegister => GetNumberOfCoreRegisters codegen
  | kFpRegister => GetNumberOfFloatingPointRegisters codegen
  end.

Definition callee_save_of (codegen : CodeGenerator) (t : RegisterType)
  : nat -> bool :=
  match t with
  | kCoreRegister => IsCoreCalleeSaveRegister codegen
  | kFpRegister => IsFloatingPointCalleeSaveRegister codegen
  end.

Definition cached_registers (ra : RegisterAllocator) (t : RegisterType) : nat :=
  match t with
  | kCoreRegister => num_core_registers_ ra
  | kFpRegister => num_fp_registers_ ra
  end.

Definition cached_blocked_for_call (ra : RegisterAllocator) (t : RegisterType)
  : Z :=
  match t with
  | kCoreRegister => core_registers_blocked_for_call_ ra
  | kFpRegister => fp_registers_blocked_for_call_ ra
  end.

(** Whether a position maps to an instruction. *)
Definition is_instruction (l : SsaLivenessAnalysis) (position : nat) : bool :=
  match GetInstructionFromPosition l (position / 2) with
  | Some _ => true
  | None => false
  end.

(** The scenario of the spec: four core registers, of which only
    register 3 is callee-saved, and a fixed interval with the single range
    [[10, 12)]. *)
Definition scenario_codegen : CodeGenerator :=
  mkCodeGenerator 4 0 (fun reg => reg =? 3) (fun _ => false)
                  (fun _ _ => true).

Definition scenario_graph : HGraph :=
  mkHGraph (fun _ => None) (fun _ => []) (fun _ => 0) (fun _ => [])
           (fun l => l).

Definition scenario_call : HInstruction := mkHInstruction false false.

(** Position 10 is instruction 5. *)
Definition scenario_liveness (call_at_10 : bool) : SsaLivenessAnalysis :=
  mkSsaLivenessAnalysis
    (fun index => if (index =? 5) && call_at_10 then Some scenario_call
                  else None)
    (fun _ => Some 0).

Definition scenario_fixed : LiveInterval :=
  mkLiveInterval [mkLiveRange 10 12] None None true kVoid 0 None NoCompanion
                 None false false.

Definition scenario_mask (dbg call_at_10 : bool) : result Z :=
  let* ra := RegisterAllocator_new dbg scenario_codegen
               (scenario_liveness call_at_10) scenario_graph in
  GetRegisterMask dbg ra scenario_fixed kCoreRegister.


(** ** Scenarios for the validator *)

Definition scenario_parameter : HInstruction := mkHInstruction true false.

(** An interval that is its own parent and has the single range
    [[first, last)]. *)
Definition scenario_interval (first last : nat) (reg slot : option Z)
    (self : nat) (defined_by : HInstruction) (same_as_input : bool)
  : LiveInterval :=
  mkLiveInterval [mkLiveRange first last] reg slot false kInt32 self None
    NoCompanion (Some defined_by) same_as_input same_as_input.

(** Two intervals in register 1 over [[4, 8)] and [[6, 10)], the second
    with or without the same-as-input exemption. *)
Definition arena_register_overlap (same_as_input : bool) : list LiveInterval :=
  [scenario_interval 4 8 (Some 1%Z) None 0 scenario_call false;
   scenario_interval 6 10 (Some 1%Z) None 1 scenario_call same_as_input].

(** Two intervals in register 1 over [[4, 8)] and [[8, 10)]. *)
Definition arena_register_disjoint : list LiveInterval :=
  [scenario_interval 4 8 (Some 1%Z) None 0 scenario_call false;
   scenario_interval 8 10 (Some 1%Z) None 1 scenario_call false].

(** Two intervals on spill slot 0 over [[4, 8)] and [[6, 10)], defined by
    the given instruction. *)
Definition arena_slot_overlap (defined_by : HInstruction)
  : list LiveInterval :=
  [scenario_interval 4 8 None (Some 0%Z) 0 defined_by false;
   scenario_interval 6 10 None (Some 0%Z) 1 defined_by false].

(** The validator on such an arena: stack slots of four bytes, one spill
    slot, no out slot, the four core registers of the scenario. *)
Definition scenario_validate (dbg : bool) (h : list LiveInterval)
    (fatal : bool) : result bool :=
  ValidateIntervals dbg 4 10 h [0; 1] 1 0 scenario_codegen None kCoreRegister
                    fatal.

(** An interval in register 1 over [[4, 8)] followed by a fixed interval
    without a register over [[10, 12)]. *)
Definition arena_fixed_unassigned : list LiveInterval :=
  [scenario_interval 4 8 (Some 1%Z) None 0 scenario_call false;
   mkLiveInterval [mkLiveRange 10 12] None None true kVoid 1 None NoCompanion
                  None false false].

(** ** Scenarios for [Split] *)

(** An interval in register 1 with the ranges [[0, 4)] and [[8, 12)]:
    positions 4 to 7 are a lifetime hole. *)
Definition interval_with_hole : LiveInterval :=
  mkLiveInterval [mkLiveRange 0 4; mkLiveRange 8 12] (Some 1%Z) None false
    kInt32 0 None NoCompanion (Some scenario_call) false false.

Definition arena_hole : list LiveInterval := [interval_with_hole].

(** The low half, in register 2, and the high half, in register 3, of a
    wide value live over [[4, 8)]. *)
Definition low_half : LiveInterval :=
  mkLiveInterval [mkLiveRange 4 8] (Some 2%Z) None false kInt64 0 None
    (HighInterval 1) (Some scenario_call) false false.

Definition high_half : LiveInterval :=
  mkLiveInterval [mkLiveRange 4 8] (Some 3%Z) None false kInt64 1 None
    (LowInterval 0) None false false.

Definition arena_pair : list LiveInterval := [low_half; high_half].

(** ** A scenario for [SplitBetween] *)

(** Blocks 0 to 6, ten positions each.  Block 1 branches to blocks 2 and
    3, which join in block 4 (the diamond of the comment in the source);
    blocks 5 and 6 are a loop whose header is block 5.  Block 1 dominates
    blocks 2 to 6, listed out of order. *)
Definition diamond_graph : HGraph :=
  mkHGraph
    (fun b => match b with 0 => None | 1 => Some 0 | _ => Some 1 end)
    (fun b => match b with 0 => [1] | 1 => [6; 5; 4; 3; 2] | _ => [] end)
    (fun b => 10 * b)
    (fun b => if (b =? 5) || (b =? 6) then [5] else [])
    (fun loop => loop).

Definition diamond_liveness : SsaLivenessAnalysis :=
  mkSsaLivenessAnalysis (fun _ => None) (fun index => Some (2 * index / 10)).

Definition diamond_allocator : RegisterAllocator :=
  mkRegisterAllocator scenario_codegen diamond_liveness diamond_graph
                      4 0 7 0.

(** ** The ranges that the validator visits *)

(** The states of an [AllRangesIterator] in which the body of a loop over
    it runs, in order. *)
Fixpoint visited (fuel : nat) (h : list LiveInterval) (it : AllRangesIterator)
  : result (list AllRangesIterator) :=
  match fuel with
  | O => Halt OutOfFuel
  | S fuel' =>
      if Done it then Ok []
      else
        let* it' := Advance h it in
        let* rest := visited fuel' h it' in
        Ok (it :: rest)
  end.

(** What the body of the validator reads in one such state: the current
    range, the sibling it belongs to, and the parent of that sibling. *)
Record Visit : Type := mkVisit {
  range_ : LiveRange;
  current_ : LiveInterval;
  parent_of_current_ : LiveInterval
}.

Definition resolve (h : list LiveInterval) (it : AllRangesIterator)
  : result Visit :=
  let* current := CurrentInterval h it in
  let* parent := deref h (parent_ current) in
  let* range := CurrentRange it in
  Ok (mkVisit range current parent).

Fixpoint map_result {A B : Type} (f : A -> result B) (l : list A)
  : result (list B) :=
  match l with
  | [] => Ok []
  | x :: rest =>
      let* y := f x in
      let* ys := map_result f rest in
      Ok (y :: ys)
  end.

(** The visits of one sibling chain, and of an array of chains. *)
Definition visits_of (fuel : nat) (h : list LiveInterval) (start_interval : nat)
  : result (list Visit) :=
  let* it := AllRangesIterator_new h start_interval in
  let* its := visited fuel h it in
  map_result (resolve h) its.

Definition all_visits (fuel : nat) (h : list LiveInterval)
    (intervals : list nat) : result (list Visit) :=
  let* chains := map_result (visits_of fuel h) intervals in
  Ok (concat chains).

(** A position is covered by a range. *)
Definition covers (r : LiveRange) (j : nat) : Prop :=
  start_ r <= j < end_ r.

(** Two ranges share a position. *)
Definition overlap (r1 r2 : LiveRange) : Prop :=
  exists j, covers r1 j /\ covers r2 j.

(** The largest end of a visited range. *)
Definition max_end_of (visits : list Visit) : nat :=
  fold_left (fun m v => Nat.max m (end_ (range_ v))) visits 0.

(** Setting the bits [first, first + count) of a timeline. *)
Fixpoint set_range (first count : nat) (bv : list bool) : list bool :=
  match count with
  | O => bv
  | S count' => set_range (S first) count' (<[first := true]> bv)
  end.

(** Bit [j] of timeline [loc]. *)
Definition bit (liveness_of_values : list (list bool)) (loc j : nat) : bool :=
  match liveness_of_values !! loc with
  | Some bv => IsBitSet bv j
  | None => false
  end.

(** The common shape of [mark_spill_slot] and [mark_register]: a position
    that is taken is handed to [on_set], a free one is set. *)
Definition mark (on_set : nat -> list bool -> result (list bool))
    (j : nat) (bv : list bool) : result (list bool) :=
  if IsBitSet bv j then on_set j bv else SetBit bv j.

Section VisitValidation.
Variable kIsDebugBuild : bool.
Variable kVRegSize : Z.

(** The index of the timeline on which a visit marks its spill slot, when
    it marks one. *)
Definition slot_timeline (number_of_registers number_of_out_slots : nat)
    (v : Visit) : option Z :=
  match spill_slot_ (parent_of_current_ v) with
  | Some slot =>
      if negb (has_own_stack_slot (defined_by_ (parent_of_current_ v)))
      then Some (spill_slot_index kVRegSize number_of_registers
                                  number_of_out_slots slot)
      else None
  | None => None
  end.

(** [mark_registers] and [validate_range] on a visit, that is with the
    iterator resolved. *)
Definition mark_registers_at (h : list LiveInterval) (codegen : CodeGenerator)
    (mask_of : LiveInterval -> result Z) (intervals : list nat)
    (register_type : RegisterType) (log_fatal_on_failure : bool)
    (v : Visit) (reg : nat) (liveness_of_values : list (list bool))
  : result (list (list bool)) :=
  let* _ :=
    if kIsDebugBuild && log_fatal_on_failure && negb (is_fixed_ (current_ v))
    then CHECK (HasAllocatedRegister codegen
                  (negb (is_fp_register register_type)) reg)
    else Ok tt in
  let* liveness_of_register := vector_at liveness_of_values (Z.of_nat reg) in
  let* marked := for_each (mark_register h mask_of intervals
                             log_fatal_on_failure (current_ v) reg)
                          (positions (range_ v)) liveness_of_register in
  Ok (<[reg := marked]> liveness_of_values).

Definition mark_slot_at (log_fatal_on_failure : bool) (v : Visit) (idx : Z)
    (liveness_of_values : list (list bool)) : result (list (list bool)) :=
  let* liveness_of_spill_slot := vector_at liveness_of_values idx in
  let* marked := for_each (mark_spill_slot log_fatal_on_failure)
                          (positions (range_ v)) liveness_of_spill_slot in
  Ok (<[Z.to_nat idx := marked]> liveness_of_values).

Definition validate_visit (h : list LiveInterval) (codegen : CodeGenerator)
    (mask_of : LiveInterval -> result Z) (intervals : list nat)
    (number_of_registers number_of_out_slots : nat)
    (register_type : RegisterType) (log_fatal_on_failure : bool)
    (v : Visit) (liveness_of_values : list (list bool))
  : result (list (list bool)) :=
  let* liveness_of_values :=
    match slot_timeline number_of_registers number_of_out_slots v with
    | Some idx => mark_slot_at log_fatal_on_failure v idx liveness_of_values
    | None => Ok liveness_of_values
    end in
  let* mask := mask_of (current_ v) in
  for_each (mark_registers_at h codegen mask_of intervals register_type
              log_fatal_on_failure v)
           (LowToHighBits mask) liveness_of_values.

(** The mask that [ValidateIntervals] computes for an interval. *)
Definition validator_mask (codegen : CodeGenerator)
    (liveness : option SsaLivenessAnalysis) (register_type : RegisterType)
    (interval : LiveInterval) : result Z :=
  let* registers_blocked_for_call :=
    GetBlockedRegistersForCall kIsDebugBuild
      (registers_of codegen register_type)
      (callee_save_of codegen register_type) in
  get_register_mask kIsDebugBuild register_type
    (registers_of codegen register_type) registers_blocked_for_call
    liveness interval.

End VisitValidation.

(** ** Locations and their timelines *)

(** A vector of [count] timelines of [len] bits each. *)
Definition shaped (count len : nat) (liveness_of_values : list (list bool))
  : Prop :=
  length liveness_of_values = count /\
  Forall (fun bv => length bv = len) liveness_of_values.

(** Setting the bits of a range on timeline [loc], and on several
    timelines in turn. *)
Definition mark_on (r : LiveRange) (loc : nat)
    (liveness_of_values : list (list bool)) : list (list bool) :=
  match liveness_of_values !! loc with
  | Some bv =>
      <[loc := set_range (start_ r) (end_ r - start_ r) bv]> liveness_of_values
  | None => liveness_of_values
  end.

Definition mark_all (r : LiveRange) (locs : list nat)
    (liveness_of_values : list (list bool)) : list (list bool) :=
  fold_left (fun t loc => mark_on r loc t) locs liveness_of_values.

(** The loop over the positions of [r] on timeline [loc], written back. *)
Definition mark_timeline (on_set : nat -> list bool -> result (list bool))
    (r : LiveRange) (loc : nat) (t : list (list bool))
  : result (list (list bool)) :=
  let* bv := vector_at t (Z.of_nat loc) in
  let* marked := for_each (mark on_set) (positions r) bv in
  Ok (<[loc := marked]> t).

(** The first position of [r] that is taken on timeline [loc]. *)
Definition first_conflict (t : list (list bool)) (r : LiveRange) (loc : nat)
    (j0 : nat) : Prop :=
  covers r j0 /\ bit t loc j0 = true /\
  forall j, start_ r <= j < j0 -> bit t loc j = false.

(** The same-as-input exemption of the interval of a visit. *)
Definition exempt (v : Visit) : bool :=
  is_using_input_register_ (current_ v)
  && can_use_input_register_ (current_ v).

Section Locations.
Variable kVRegSize : Z.
Variable mask_of : LiveInterval -> result Z.
Variables number_of_registers number_of_spill_slots number_of_out_slots : nat.

(** The visit marks its range on the timeline [loc] of a spill slot. *)
Definition uses_slot (v : Visit) (loc : nat) : Prop :=
  slot_timeline kVRegSize number_of_registers number_of_out_slots v =
  Some (Z.of_nat loc).

(** The visit marks its range on the timeline of register [reg]. *)
Definition uses_register (v : Visit) (reg : nat) : Prop :=
  exists mask, mask_of (current_ v) = Ok mask /\ reg ∈ LowToHighBits mask.

Definition uses (v : Visit) (loc : nat) : Prop :=
  uses_slot v loc \/ uses_register v loc.

(** The assignment of a visit names locations that exist: its mask is
    defined and holds registers of the register file only, and its spill
    slot, when it marks one, is one of the [number_of_spill_slots] slots
    that follow the out slots. *)
Definition wf_visit (v : Visit) : Prop :=
  (exists mask, mask_of (current_ v) = Ok mask /\
                forall reg, reg ∈ LowToHighBits mask ->
                            reg < number_of_registers) /\
  (forall idx : Z,
     slot_timeline kVRegSize number_of_registers number_of_out_slots v =
       Some idx ->
     (Z.of_nat number_of_registers <= idx
      < Z.of_nat (number_of_registers + number_of_spill_slots))%Z).

End Locations.

(** What [mark_spill_slot] and [mark_register] do at a taken position. *)
Definition slot_on_set (log_fatal_on_failure : bool) (j : nat)
    (_ : list bool) : result (list bool) :=
  if log_fatal_on_failure then Halt (SpillSlotConflict j) else Return false.

Definition register_on_set (h : list LiveInterval)
    (mask_of : LiveInterval -> result Z) (intervals : list nat)
    (log_fatal_on_failure : bool) (current : LiveInterval) (reg : nat)
    (j : nat) (bv : list bool) : result (list bool) :=
  if is_using_input_register_ current && can_use_input_register_ current
  then Ok bv
  else if log_fatal_on_failure
       then dump_register_conflict h mask_of intervals j reg
       else Return false.

(** The check that debug builds make in fatal mode before they mark a
    register of an interval that is not fixed. *)
Definition allocated_check (kIsDebugBuild : bool) (codegen : CodeGenerator)
    (register_type : RegisterType) (log_fatal_on_failure : bool)
    (v : Visit) (reg : nat) : result unit :=
  if kIsDebugBuild && log_fatal_on_failure && negb (is_fixed_ (current_ v))
  then CHECK (HasAllocatedRegister codegen
                (negb (is_fp_register register_type)) reg)
  else Ok tt.

(** The timelines on which a visit with mask [mask] marks its range, in
    the order in which it marks them. *)
Definition slot_locs (kVRegSize : Z)
    (number_of_registers number_of_out_slots : nat) (v : Visit) : list nat :=
  match slot_timeline kVRegSize number_of_registers number_of_out_slots v with
  | Some idx => [Z.to_nat idx]
  | None => []
  end.

Definition visit_locs (kVRegSize : Z)
    (number_of_registers number_of_out_slots : nat) (mask : Z) (v : Visit)
  : list nat :=
  slot_locs kVRegSize number_of_registers number_of_out_slots v
  ++ LowToHighBits mask.

(** ** Compatible assignments *)

Section Compatibility.
Variable kVRegSize : Z.
Variable mask_of : LiveInterval -> result Z.
Variables number_of_registers number_of_out_slots : nat.

Let uses := uses kVRegSize mask_of number_of_registers number_of_out_slots.

(** Two visits, the second made after the first, never hold a location
    over a common position. *)
Definition disjoint_visits (v1 v2 : Visit) : Prop :=
  forall loc, uses v1 loc -> uses v2 loc -> ~ overlap (range_ v1) (range_ v2).

(** The later visit may share a location with the earlier one over a
    common position only where the location is a register and the later
    interval has the same-as-input exemption. *)
Definition compatible_visits (v1 v2 : Visit) : Prop :=
  forall loc, uses v1 loc -> uses v2 loc ->
    overlap (range_ v1) (range_ v2) ->
    uses_register mask_of v2 loc /\ exempt v2 = true.

End Compatibility.

(** The registers of the mask of a visit pass the check that debug builds
    make in fatal mode. *)
Definition passes_allocated_check (kIsDebugBuild : bool)
    (codegen : CodeGenerator) (mask_of : LiveInterval -> result Z)
    (register_type : RegisterType) (log_fatal_on_failure : bool) (v : Visit)
  : Prop :=
  forall mask reg,
    mask_of (current_ v) = Ok mask -> reg ∈ LowToHighBits mask ->
    allocated_check kIsDebugBuild codegen register_type log_fatal_on_failure
                    v reg = Ok tt.

(** Two visits may share a register over a common position when the
    later one is exempt, and a spill slot only when one of them is defined
    by a parameter or by the current method. *)
Definition slot_exempt_visits (kVRegSize : Z)
    (mask_of : LiveInterval -> result Z)
    (number_of_registers number_of_out_slots : nat) (v1 v2 : Visit) : Prop :=
  (forall reg, uses_register mask_of v1 reg -> uses_register mask_of v2 reg ->
               overlap (range_ v1) (range_ v2) -> exempt v2 = true) /\
  (has_own_stack_slot (defined_by_ (parent_of_current_ v1)) = true \/
   has_own_stack_slot (defined_by_ (parent_of_current_ v2)) = true \/
   forall loc,
     uses_slot kVRegSize number_of_registers number_of_out_slots v1 loc ->
     uses_slot kVRegSize number_of_registers number_of_out_slots v2 loc ->
     ~ overlap (range_ v1) (range_ v2)).


(** The current range of the iterator is a range of its current
    interval. *)
Definition iterator_inv (h : list LiveInterval) (it : AllRangesIterator)
  : Prop :=
  match current_interval_ it with
  | Some p =>
      exists i before,
        h !! p = Some i /\ first_range_ i = before ++ current_range_ it
  | None => True
  end.

(** The interval has a register or is not fixed: its mask does not depend
    on the liveness analysis. *)
Definition assigned_or_not_fixed (i : LiveInterval) : Prop :=
  HasRegister i = true \/ is_fixed_ i = false.

(** ** Liveness of an interval *)

(** The ranges are in ascending order, none empty, none overlapping the
    next, and none starting before [lo]. *)
Fixpoint ascending_from (lo : nat) (ranges : list LiveRange) : Prop :=
  match ranges with
  | [] => True
  | r :: rest => lo <= start_ r < end_ r /\ ascending_from (end_ r) rest
  end.

Definition ascending (ranges : list LiveRange) : Prop :=
  ascending_from 0 ranges.

(** A position is covered by one of the ranges. *)
Definition live_at (ranges : list LiveRange) (j : nat) : Prop :=
  exists r, r ∈ ranges /\ covers r j.

(** The interval of the companion of an interval, when it has one. *)
Definition companion_of (i : LiveInterval) : option nat :=
  match companion_ i with
  | HighInterval q | LowInterval q => Some q
  | NoCompanion => None
  end.

(** ** What a split produces *)

(** The range list [whole] cut at [position]: [original] holds, in their
    order, the ranges that end at or before the position and [new] those
    that start at or after it; a range that contains the position is cut
    in two, its part before the position closing [original] and its part
    from the position on opening [new]. *)
Definition cut_at (position : nat) (whole original new : list LiveRange)
  : Prop :=
  (whole = original ++ new /\
   Forall (fun r => end_ r <= position) original /\
   Forall (fun r => position <= start_ r) new) \/
  (exists before r after,
     whole = before ++ r :: after /\
     start_ r < position < end_ r /\
     original = before ++ [mkLiveRange (start_ r) position] /\
     new = mkLiveRange position (end_ r) :: after).

(** The interval [original] (what is left of [whole]) and the interval
    [new], whose handle is [new_handle], are the two pieces of [whole] cut
    at [position]: [original] keeps the liveness before the position,
    [new] holds the liveness from the position on, [new] is the next
    sibling of [original] and has the parent of [whole].  The ranges of
    [new] are exactly the suffix of the ranges of [whole] at the position,
    those of [original] the prefix, and both lists are ascending.  The
    start of [new] is the position when the position is live in [whole],
    and the start of the first range after the position (no range of
    [whole] that ends after the position starts earlier) when the position
    falls in a lifetime hole. *)
Definition is_split_of (position : nat) (whole original new : LiveInterval)
    (new_handle : nat) : Prop :=
  (forall j, live_at (first_range_ original) j <->
             live_at (first_range_ whole) j /\ j < position) /\
  (forall j, live_at (first_range_ new) j <->
             live_at (first_range_ whole) j /\ position <= j) /\
  next_sibling_ original = Some new_handle /\
  next_sibling_ new = next_sibling_ whole /\
  parent_ new = parent_ whole /\
  cut_at position (first_range_ whole) (first_range_ original)
         (first_range_ new) /\
  ascending (first_range_ original) /\
  ascending (first_range_ new) /\
  exists s,
    GetStart new = Ok s /\ position <= s /\
    (live_at (first_range_ whole) position -> s = position) /\
    (~ live_at (first_range_ whole) position ->
     position < s /\
     exists r, r ∈ first_range_ whole /\ start_ r = s /\
               forall r', r' ∈ first_range_ whole -> position < end_ r' ->
                          s <= start_ r').

(** The companion of an interval is another interval of the arena that
    can be split at the position too. *)
Definition companion_splittable (h : list LiveInterval) (interval : nat)
    (i : LiveInterval) (position : nat) : Prop :=
  forall c, companion_of i = Some c ->
    c <> interval /\
    exists ic start_c,
      h !! c = Some ic /\ ascending (first_range_ ic) /\
      GetStart ic = Ok start_c /\ start_c < position /\
      IsDeadAt ic position = Ok false.


(** ** [SplitBetween] as the spec words it *)

Section SplitBetweenSpec.
Variable g : HGraph.

(** A dominated block qualifies when its lifetime start lies strictly
    after [from] and strictly before the lifetime start of the block of
    [to]. *)
Definition qualifies (from : nat) (block_to dominated : HBasicBlock) : bool :=
  (from <? GetLifetimeStart g dominated)
  && (GetLifetimeStart g dominated <? GetLifetimeStart g block_to).

(** The block with the smallest lifetime start among the candidates and
    [default], the earliest in the list when several have it. *)
Definition smallest_start (candidates : list HBasicBlock)
    (default : HBasicBlock) : HBasicBlock :=
  fold_left (fun best d =>
               if GetLifetimeStart g d <? GetLifetimeStart g best
               then d else best)
            candidates default.

(** The leading elements of a list that satisfy a test. *)
Fixpoint take_while {A : Type} (test : A -> bool) (l : list A) : list A :=
  match l with
  | [] => []
  | x :: rest => if test x then x :: take_while test rest else []
  end.

(** The header of the outermost of the loops, taken outwards, that start
    after [block_from] does; [target] when the innermost loop does not. *)
Definition promoted (block_from : HBasicBlock) (loops : list HLoopInformation)
    (target : HBasicBlock) : HBasicBlock :=
  match last (take_while
                (fun loop => GetLifetimeStart g block_from
                             <? GetLifetimeStart g (GetHeader g loop))
                loops) with
  | Some loop => GetHeader g loop
  | None => target
  end.

(** The blocks dominated by the dominator of a block. *)
Definition dominated_by_dominator (block : HBasicBlock) : list HBasicBlock :=
  match GetDominator g block with
  | Some dominator => GetDominatedBlocks g dominator
  | None => []
  end.

(** The position at which the spec has [SplitBetween] split, for [from]
    in [block_from] and [to] in [block_to]. *)
Definition SplitBetween_spec_position (from to : nat)
    (block_from block_to : HBasicBlock) : nat :=
  if block_from =? block_to then to
  else
    let candidates :=
      List.filter (qualifies from block_to)
                  (dominated_by_dominator block_from) in
    let target := smallest_start candidates block_to in
    let target := promoted block_from (LoopsOutward g target) target in
    GetLifetimeStart g target.

End SplitBetweenSpec.

(** ** The position model *)

(** What [SplitBetween] relies on in the numbering of the liveness
    analysis (section 2 of the spec): the block of a position starts at or
    before it, and no other block starts in between; the blocks of
    positions are told apart by their lifetime start; and the header of a
    loop around a block starts at or before the block. *)
Definition position_model (ra : RegisterAllocator) : Prop :=
  let g := graph_ ra in
  let block_of position :=
    GetBlockFromPosition (liveness_ ra) (position / 2) in
  (forall p b, block_of p = Some b -> GetLifetimeStart g b <= p) /\
  (forall p b b', block_of p = Some b -> GetLifetimeStart g b' <= p ->
                  GetLifetimeStart g b' <= GetLifetimeStart g b) /\
  (forall p q b b', block_of p = Some b -> block_of q = Some b' ->
                    GetLifetimeStart g b = GetLifetimeStart g b' -> b = b') /\
  (forall b loop, loop ∈ LoopsOutward g b ->
                  GetLifetimeStart g (GetHeader g loop)
                  <= GetLifetimeStart g b).

(** ** Finite sibling chains *)

(** The sibling chain that starts at interval [p] is finite and has [n]
    ranges in all; every interval on it has a range and a parent in the
    arena. *)
Inductive chain (h : list LiveInterval) : nat -> nat -> Prop :=
| chain_end (p : nat) (i : LiveInterval) :
    h !! p = Some i -> first_range_ i <> [] ->
    is_Some (h !! parent_ i) -> next_sibling_ i = None ->
    chain h p (length (first_range_ i))
| chain_cons (p : nat) (i : LiveInterval) (q n : nat) :
    h !! p = Some i -> first_range_ i <> [] ->
    is_Some (h !! parent_ i) -> next_sibling_ i = Some q ->
    chain h q n ->
    chain h p (length (first_range_ i) + n).

(** * Further definitions *)

(** ** The outcomes that a piece of code can have *)

(** The outcome is a value, a [return b] with [returns b], or a stop with
    a failure that satisfies [halts]. *)
Definition confined {A : Type} (returns : bool -> Prop)
    (halts : failure -> Prop) (r : result A) : Prop :=
  match r with
  | Ok _ => True
  | Return b => returns b
  | Halt f => halts f
  end.

(** The failures with which [ValidateIntervals] can stop: a debug
    assertion in debug builds only; a CHECK only without a liveness
    analysis or, in debug builds, in fatal mode; a conflict in fatal mode
    only. *)
Definition validator_halts (kIsDebugBuild : bool)
    (liveness : option SsaLivenessAnalysis) (log_fatal_on_failure : bool)
    (f : failure) : Prop :=
  match f with
  | DCheckFailed => kIsDebugBuild = true
  | CheckFailed =>
      liveness = None \/
      (kIsDebugBuild = true /\ log_fatal_on_failure = true)
  | SpillSlotConflict _ | RegisterConflict _ _ => log_fatal_on_failure = true
  | UndefinedBehaviour | OutOfFuel => True
  end.

(** The only [return] inside the loops of [ValidateIntervals] is the
    [return false] of non-fatal mode. *)
Definition validator_returns (log_fatal_on_failure : bool) (b : bool) : Prop :=
  log_fatal_on_failure = false /\ b = false.

(** What the first of two runs may do without the second doing the
    same: stop, or leave by a [return]. *)
Inductive excuse : Type := Aborts | Returns.

(** The first run is excused, or the second run has the same outcome. *)
Definition agrees_unless {A : Type} (e : excuse) (r1 r2 : result A) : Prop :=
  match e, r1 with
  | Aborts, Halt _ => True
  | Returns, Return _ => True
  | _, _ => r1 = r2
  end.

(** The failure is one of the two conflict messages. *)
Definition is_conflict (f : failure) : Prop :=
  match f with
  | SpillSlotConflict _ | RegisterConflict _ _ => True
  | _ => False
  end.

(** The first run leaves by a [return] where the second stops with a
    conflict message, or the two runs have the same outcome. *)
Definition rejects_or_agrees {A : Type} (r1 r2 : result A) : Prop :=
  match r1 with
  | Return _ => exists f, r2 = Halt f /\ is_conflict f
  | _ => r1 = r2
  end.

(** ** Valid assignments *)

(** What a visit reads names a register of the file (of the right type,
    which debug builds assert) and a slot of the spill area; a fixed
    interval without a register needs the liveness analysis and, in debug
    builds, the type void. *)
Definition valid_assignment (kIsDebugBuild : bool) (kVRegSize : Z)
    (codegen : CodeGenerator) (liveness : option SsaLivenessAnalysis)
    (register_type : RegisterType)
    (number_of_spill_slots number_of_out_slots : nat) (v : Visit) : Prop :=
  match register_ (current_ v) with
  | Some reg =>
      (0 <= reg < Z.of_nat (registers_of codegen register_type))%Z /\
      (kIsDebugBuild = true ->
       is_fp_register register_type
       = IsFloatingPointType (type_ (current_ v)))
  | None =>
      is_fixed_ (current_ v) = true ->
      liveness <> None /\
      (kIsDebugBuild = true -> type_ (current_ v) = kVoid)
  end /\
  match spill_slot_ (parent_of_current_ v) with
  | Some slot =>
      has_own_stack_slot (defined_by_ (parent_of_current_ v)) = true \/
      ((0 <= slot < 2 ^ 31)%Z /\
       (Z.of_nat number_of_out_slots <= slot / kVRegSize
        < Z.of_nat number_of_out_slots + Z.of_nat number_of_spill_slots)%Z)
  | None => True
  end.

(** ** The siblings of an interval and their ranges *)

(** The interval [p], its next sibling, and so on to the last sibling. *)
Inductive siblings (h : list LiveInterval) : nat -> list nat -> Prop :=
| siblings_last (p : nat) (i : LiveInterval) :
    h !! p = Some i -> next_sibling_ i = None -> siblings h p [p]
| siblings_next (p : nat) (i : LiveInterval) (q : nat) (ps : list nat) :
    h !! p = Some i -> next_sibling_ i = Some q -> siblings h q ps ->
    siblings h p (p :: ps).

(** The suffixes of a range list that start at one of its ranges. *)
Fixpoint suffixes (ranges : list LiveRange) : list (list LiveRange) :=
  match ranges with
  | [] => []
  | r :: rest => (r :: rest) :: suffixes rest
  end.

(** The states of an iterator that stands, in turn, on each range of
    each of the intervals. *)
Definition states_of (h : list LiveInterval) (ps : list nat)
  : list AllRangesIterator :=
  flat_map (fun p =>
              match h !! p with
              | Some i => map (mkAllRangesIterator (Some p))
                              (suffixes (first_range_ i))
              | None => []
              end) ps.

(** The ranges of the intervals, each with the handle of its interval. *)
Definition ranges_of (h : list LiveInterval) (ps : list nat)
  : list (nat * LiveRange) :=
  flat_map (fun p =>
              match h !! p with
              | Some i => map (pair p) (first_range_ i)
              | None => []
              end) ps.

(** Where an iterator stands. *)
Definition standing_on (it : AllRangesIterator) : option (nat * LiveRange) :=
  match current_interval_ it, current_range_ it with
  | Some p, r :: _ => Some (p, r)
  | _, _ => None
  end.

(** ** The destructor *)

(** Modelled from the spec: what the destructor walks of the method body
    (section 4.4).  Instructions are named by numbers; a block has its phis
    and its other instructions. *)
Record MethodBody : Type := mkMethodBody {
  GetLinearOrder : list HBasicBlock;
  GetPhis : HBasicBlock -> list nat;
  GetInstructions : HBasicBlock -> list nat
}.

(** Modelled from the spec: the back-reference of an instruction to its
    live interval (section 4.4), which is null, an interval of the arena,
    or a raw address. *)
Inductive LiveIntervalPointer : Type :=
| NullInterval
| IntervalAt (p : nat)
| RawAddress (address : Z).

(** The back-references of all the instructions. *)
Definition LiveIntervals : Type := nat -> LiveIntervalPointer.

(** Modelled from the spec: the missing [HInstruction::SetLiveInterval],
    which overwrites the back-reference of one instruction. *)
Definition SetLiveInterval (instruction : nat) (p : LiveIntervalPointer)
    (intervals : LiveIntervals) : LiveIntervals :=
  fun other => if other =? instruction then p else intervals other.

(** "Error: BAD 71ve1nt3rval." *)
Definition bad_live_interval : LiveIntervalPointer := RawAddress 0xebad7113.

(** One of the two loops over an [HInstructionIterator]: every
    instruction of the list gets the poison address. *)
Definition poison_all (instructions : list nat) (intervals : LiveIntervals)
  : LiveIntervals :=
  fold_left (fun s instruction =>
               SetLiveInterval instruction bad_live_interval s)
            instructions intervals.

(** The destructor, on the method body of [codegen_->GetGraph()]. *)
Definition RegisterAllocator_delete (kIsDebugBuild : bool)
    (graph : MethodBody) (intervals : LiveIntervals) : LiveIntervals :=
  if kIsDebugBuild then
    fold_left (fun s block =>
                 poison_all (GetInstructions graph block)
                            (poison_all (GetPhis graph block) s))
              (GetLinearOrder graph) intervals
  else intervals.

(** The instructions of the blocks of the linear order. *)
Definition in_method (graph : MethodBody) (instruction : nat) : Prop :=
  exists block,
    block ∈ GetLinearOrder graph /\
    (instruction ∈ GetPhis graph block \/
     instruction ∈ GetInstructions graph block).

(** ** A scenario for a call *)

(** A value in register 1, which is not callee-saved, over [[8, 14)], and
    a call at position 10: a fixed interval without a register over
    [[10, 12)]. *)
Definition arena_across_call : list LiveInterval :=
  [scenario_interval 8 14 (Some 1%Z) None 0 scenario_call false;
   mkLiveInterval [mkLiveRange 10 12] None None true kVoid 1 None NoCompanion
                  None false false].
(** * Properties *)

(** ** Generic facts about the outcome monad *)

Lemma bind_Ok {A B : Type} (m : result A) (k : A -> result B) (b : B) :
  bind m k = Ok b -> exists a, m = Ok a /\ k a = Ok b.
Proof. destruct m; simpl; intros; [eauto | discriminate..]. Qed.

Lemma DCHECK_true (dbg : bool) : DCHECK dbg true = Ok tt.
Proof. unfold DCHECK. simpl. now rewrite andb_false_r. Qed.

Lemma DCHECK_when (dbg c : bool) :
  (dbg = true -> c = true) -> DCHECK dbg c = Ok tt.
Proof.
  intros Hc. unfold DCHECK. destruct dbg; [|reflexivity].
  now rewrite Hc.
Qed.


Lemma for_each_app {A S : Type} (body : A -> S -> result S) (l1 l2 : list A)
    (s : S) :
  for_each body (l1 ++ l2) s =
  bind (for_each body l1 s) (for_each body l2).
Proof.
  revert s. induction l1 as [|x l1 IH]; intros s; simpl; [reflexivity|].
  destruct (body x s); simpl; auto.
Qed.

(** ** The call-clobber mask *)

Lemma shl1_Ok (reg : nat) :
  reg < 32 -> shl1 (Z.of_nat reg) = Ok (Z.shiftl 1 (Z.of_nat reg)).
Proof.
  intros Hreg. unfold shl1, uint32_bits.
  destruct (Z.leb_spec 0 (Z.of_nat reg)); [|lia].
  destruct (Z.ltb_spec (Z.of_nat reg) 32); [reflexivity|lia].
Qed.

Lemma testbit_shl1 (reg r : nat) :
  Z.testbit (Z.shiftl 1 (Z.of_nat reg)) (Z.of_nat r) = (r =? reg).
Proof.
  rewrite Z.shiftl_1_l, Z.pow2_bits_eqb by lia.
  destruct (Nat.eqb_spec r reg) as [->|Hne].
  - apply Z.eqb_refl.
  - apply Z.eqb_neq. lia.
Qed.


(** Case analysis on the comparisons of a goal. *)
Ltac cmp_cases :=
  repeat match goal with
  | |- context [?a <=? ?b] => destruct (Nat.leb_spec a b)
  | |- context [?a <? ?b] => destruct (Nat.ltb_spec a b)
  | |- context [?a =? ?b] => destruct (Nat.eqb_spec a b)
  end.

(** The loop over the registers [first, first + count): it sets, on top of
    the bits of the mask it starts from, the bit of each register of that
    segment that is not callee-save. *)
Lemma GetBlockedRegistersForCall_loop (is_callee_save : nat -> bool)
    (count first : nat) (mask : Z) :
  first + count <= 32 ->
  exists mask',
    for_each (GetBlockedRegistersForCall_body is_callee_save)
             (seq first count) mask = Ok mask' /\
    forall r : nat,
      Z.testbit mask' (Z.of_nat r) =
      Z.testbit mask (Z.of_nat r)
      || ((first <=? r) && (r <? first + count) && negb (is_callee_save r)).
Proof.
  revert first mask. induction count as [|count IH]; intros first mask Hle.
  - exists mask. split; [reflexivity|]. intros r.
    cmp_cases; try lia; simpl; now rewrite orb_false_r.
  - simpl. unfold GetBlockedRegistersForCall_body at 1.
    destruct (is_callee_save first) eqn:Hsave; simpl.
    + destruct (IH (S first) mask) as (mask' & Hrun & Hbits); [lia|].
      exists mask'. split; [exact Hrun|]. intros r. rewrite Hbits.
      f_equal.
      destruct (Nat.eq_dec r first) as [->|Hne].
      * rewrite Hsave, !andb_false_r. reflexivity.
      * cmp_cases; try lia; reflexivity.
    + rewrite shl1_Ok by lia. simpl.
      destruct (IH (S first) (Z.lor mask (Z.shiftl 1 (Z.of_nat first))))
        as (mask' & Hrun & Hbits); [lia|].
      exists mask'. split; [exact Hrun|]. intros r. rewrite Hbits.
      rewrite Z.lor_spec, testbit_shl1, <- orb_assoc. f_equal.
      destruct (Nat.eqb_spec r first) as [->|Hne].
      * rewrite Hsave. cmp_cases; try lia; reflexivity.
      * cmp_cases; try lia; reflexivity.
Qed.

(** The mask of a register file of at most 32 registers, bit by bit. *)
Lemma GetBlockedRegistersForCall_spec (dbg : bool) (n : nat)
    (is_callee_save : nat -> bool) :
  n <= 32 ->
  exists mask,
    GetBlockedRegistersForCall dbg n is_callee_save = Ok mask /\
    forall r : nat,
      Z.testbit mask (Z.of_nat r) = (r <? n) && negb (is_callee_save r).
Proof.
  intros Hn. unfold GetBlockedRegistersForCall.
  replace (Z.of_nat n <=? uint32_bits)%Z with true
    by (symmetry; apply Z.leb_le; unfold uint32_bits; lia).
  rewrite DCHECK_true. simpl.
  destruct (GetBlockedRegistersForCall_loop is_callee_save n 0 0%Z)
    as (mask & Hrun & Hbits); [lia|].
  exists mask. split; [exact Hrun|]. intros r.
  rewrite Hbits, Z.bits_0. reflexivity.
Qed.

(** C6. For a register file of [n <= 32] registers and any callee-save
    predicate, [GetBlockedRegistersForCall] returns a mask whose bit [r] is
    set exactly when [r < n] and the predicate reports register [r] as not
    callee-saved; in particular every bit at position [n] or above is
    zero, and so is the bit of every callee-saved register. *)
Theorem call_clobber_mask_exact (dbg : bool) (n : nat)
    (is_callee_save : nat -> bool) :
  n <= 32 ->
  exists mask,
    GetBlockedRegistersForCall dbg n is_callee_save = Ok mask /\
    (forall r : nat,
       Z.testbit mask (Z.of_nat r) = true <->
       r < n /\ is_callee_save r = false) /\
    (forall k : Z, (Z.of_nat n <= k)%Z -> Z.testbit mask k = false) /\
    (0 <= mask < 2 ^ Z.of_nat n)%Z.
Proof.
  intros Hn.
  destruct (GetBlockedRegistersForCall_spec dbg n is_callee_save Hn)
    as (mask & Hrun & Hbits).
  assert (Hhigh : forall k : Z, (Z.of_nat n <= k)%Z -> Z.testbit mask k = false).
  { intros k Hk. rewrite <- (Z2Nat.id k) by lia. rewrite Hbits.
    destruct (Nat.ltb_spec (Z.to_nat k) n); [lia|reflexivity]. }
  assert (Hnonneg : (0 <= mask)%Z).
  { destruct (Z.neg_nonneg_cases mask) as [Hneg|]; [|assumption].
    set (k := Z.max (Z.of_nat n) (Z.log2 (Z.pred (- mask)) + 1)).
    assert (Hset : Z.testbit mask k = true)
      by (apply Z.bits_above_log2_neg; lia).
    rewrite Hhigh in Hset by lia. discriminate. }
  exists mask. split; [exact Hrun|]. split; [|split; [exact Hhigh|]].
  - intros r. rewrite Hbits, andb_true_iff, negb_true_iff, Nat.ltb_lt.
    reflexivity.
  - split; [exact Hnonneg|].
    destruct (Z.eq_dec mask 0%Z) as [->|Hnz].
    { apply Z.pow_pos_nonneg; lia. }
    apply Z.log2_lt_pow2; [lia|].
    destruct (Z.lt_ge_cases (Z.log2 mask) (Z.of_nat n)) as [|Hge]; [assumption|].
    specialize (Hhigh _ Hge). rewrite Z.bit_log2 in Hhigh by lia. discriminate.
Qed.

(** The theorem at a file of four registers of which only register 3 is
    callee-saved. *)
Lemma call_clobber_mask_exact_witness :
  exists mask,
    GetBlockedRegistersForCall true 4 (fun r => r =? 3) = Ok mask /\
    (forall r : nat,
       Z.testbit mask (Z.of_nat r) = true <->
       r < 4 /\ (r =? 3) = false) /\
    (forall k : Z, (Z.of_nat 4 <= k)%Z -> Z.testbit mask k = false) /\
    (0 <= mask < 2 ^ Z.of_nat 4)%Z.
Proof. apply (call_clobber_mask_exact true 4 (fun r => r =? 3)). lia. Defined.

Example call_clobber_mask_0b0111 :
  GetBlockedRegistersForCall true 4 (fun r => r =? 3) = Ok 7%Z.
Proof. reflexivity. Qed.

(** ** [GetRegisterMask] *)

Lemma MaxInt_bits (n k : nat) :
  n <= 32 -> Z.testbit (MaxInt n) (Z.of_nat k) = (k <? n).
Proof.
  intros Hn. unfold MaxInt, uint32, uint32_bits.
  rewrite Z.mod_small.
  - destruct (Nat.ltb_spec k n).
    + apply Z.ones_spec_low. lia.
    + apply Z.ones_spec_high. lia.
  - rewrite Z.ones_equiv. split.
    + assert (0 < 2 ^ Z.of_nat n)%Z by (apply Z.pow_pos_nonneg; lia). lia.
    + assert (2 ^ Z.of_nat n <= 2 ^ 32)%Z by (apply Z.pow_le_mono_r; lia). lia.
Qed.

(** What the constructor caches. *)
Lemma RegisterAllocator_new_cached (dbg : bool) (codegen : CodeGenerator)
    (liveness : SsaLivenessAnalysis) (graph : HGraph) (ra : RegisterAllocator)
    (t : RegisterType) :
  RegisterAllocator_new dbg codegen liveness graph = Ok ra ->
  liveness_ ra = liveness /\
  cached_registers ra t = registers_of codegen t /\
  GetBlockedRegistersForCall dbg (registers_of codegen t)
    (callee_save_of codegen t) = Ok (cached_blocked_for_call ra t).
Proof.
  unfold RegisterAllocator_new, GetBlockedCoreRegistersForCall,
    GetBlockedFpRegistersForCall.
  intros Hnew.
  apply bind_Ok in Hnew as (core & Hcore & Hnew).
  apply bind_Ok in Hnew as (fp & Hfp & Hnew).
  injection Hnew as <-. destruct t; simpl; auto.
Qed.


(** C7. The three cases of [GetRegisterMask] on an allocator built by the
    constructor for register files of at most 32 registers: the singleton
    mask of the assigned register; for a fixed interval without a
    register, the cached call-clobber mask (the one
    [GetBlockedRegistersForCall] computes for that type) when the start of
    its first range maps to an instruction, and otherwise the mask of all
    the registers of that type; and the empty mask for any other interval.
    In the scenario with four core registers of which only register 3 is
    callee-saved, the fixed interval [[10, 12)] yields [0b0111] when
    position 10 maps to a call and [0b1111] when it does not. *)
Theorem GetRegisterMask_cases :
  (forall (dbg : bool) (codegen : CodeGenerator)
          (liveness : SsaLivenessAnalysis) (graph : HGraph)
          (ra : RegisterAllocator) (interval : LiveInterval)
          (t : RegisterType),
     registers_of codegen t <= 32 ->
     RegisterAllocator_new dbg codegen liveness graph = Ok ra ->
     (forall reg : Z,
        register_ interval = Some reg ->
        (0 <= reg < 32)%Z ->
        (dbg = true ->
         is_fp_register t = IsFloatingPointType (type_ interval)) ->
        GetRegisterMask dbg ra interval t = Ok (Z.shiftl 1 reg) /\
        forall k : Z, Z.testbit (Z.shiftl 1 reg) k = (k =? reg)%Z) /\
     (forall (range : LiveRange) (rest : list LiveRange),
        register_ interval = None ->
        is_fixed_ interval = true ->
        first_range_ interval = range :: rest ->
        (dbg = true -> type_ interval = kVoid) ->
        GetRegisterMask dbg ra interval t =
          Ok (if is_instruction liveness (start_ range)
              then cached_blocked_for_call ra t
              else MaxInt (registers_of codegen t)) /\
        GetBlockedRegistersForCall dbg (registers_of codegen t)
          (callee_save_of codegen t) = Ok (cached_blocked_for_call ra t) /\
        forall k : nat,
          Z.testbit (MaxInt (registers_of codegen t)) (Z.of_nat k) =
          (k <? registers_of codegen t)) /\
     (register_ interval = None ->
      is_fixed_ interval = false ->
      GetRegisterMask dbg ra interval t = Ok 0%Z)) /\
  (forall dbg : bool, scenario_mask dbg true = Ok 7%Z) /\
  (forall dbg : bool, scenario_mask dbg false = Ok 15%Z).
Proof.
  split; [|split; intros []; reflexivity].
  intros dbg codegen liveness graph ra interval t Hn Hnew.
  destruct (RegisterAllocator_new_cached dbg codegen liveness graph ra t Hnew)
    as (Hliveness & Hcount & Hblocked).
  split; [|split].
  - intros reg Hreg Hrange Htype. split.
    + unfold GetRegisterMask. rewrite Hreg.
      rewrite DCHECK_when
        by (intros ->; rewrite Htype by reflexivity; apply eqb_reflx).
      rewrite DCHECK_when.
      2:{ intros _. apply Z.leb_le. unfold size_t, size_t_bits, uint32_bits.
          rewrite Z.mod_small; lia. }
      simpl. unfold shl1, uint32_bits.
      destruct (Z.leb_spec 0 reg); [|lia].
      destruct (Z.ltb_spec reg 32); [reflexivity|lia].
    + intros k. rewrite Z.shiftl_1_l, Z.eqb_sym. apply Z.pow2_bits_eqb. lia.
  - intros range rest Hreg Hfixed Hranges Htype. split; [|split].
    + unfold GetRegisterMask. rewrite Hreg, Hfixed, Hranges.
      rewrite DCHECK_when by (intros ->; now rewrite Htype).
      rewrite DCHECK_when by reflexivity.
      unfold GetStart. rewrite Hranges. simpl.
      unfold is_instruction. rewrite Hliveness.
      destruct t; simpl in *; rewrite Hcount; reflexivity.
    + exact Hblocked.
    + intros k. apply MaxInt_bits, Hn.
  - intros Hreg Hfixed. unfold GetRegisterMask. now rewrite Hreg, Hfixed.
Qed.

(** The general part of the theorem at the scenario. *)
Lemma GetRegisterMask_cases_witness :
  GetRegisterMask true
    (mkRegisterAllocator scenario_codegen (scenario_liveness true)
       scenario_graph 4 0 7 0)
    scenario_fixed kCoreRegister = Ok 7%Z.
Proof.
  refine (proj1 (proj1 (proj2 (proj1 GetRegisterMask_cases true
            scenario_codegen (scenario_liveness true) scenario_graph _
            scenario_fixed kCoreRegister _ _))
            (mkLiveRange 10 12) [] _ _ _ _)).
  - simpl. lia.
  - reflexivity.
  - reflexivity.
  - reflexivity.
  - reflexivity.
  - reflexivity.
Defined.

(** C9. The copy of the mask computation inside [ValidateIntervals],
    given the register count, the call-clobber mask and the liveness
    analysis of an allocator instance, computes for every interval and
    register type what the method [GetRegisterMask] of that instance
    computes. *)
Theorem get_register_mask_agrees (dbg : bool) (ra : RegisterAllocator)
    (interval : LiveInterval) (t : RegisterType) :
  get_register_mask dbg t (cached_registers ra t)
    (cached_blocked_for_call ra t) (Some (liveness_ ra)) interval =
  GetRegisterMask dbg ra interval t.
Proof.
  unfold get_register_mask, GetRegisterMask.
  destruct (register_ interval) as [reg|]; [reflexivity|].
  destruct (is_fixed_ interval); [|reflexivity].
  destruct (DCHECK dbg (DataType_eqb (type_ interval) kVoid)); simpl; trivial.
  destruct (DCHECK dbg (negb (bool_decide (first_range_ interval = []))));
    simpl; trivial.
  destruct (GetStart interval); simpl; trivial.
  destruct t; reflexivity.
Qed.

(** ** Marking a range on a timeline *)

Lemma IsBitSet_insert (bv : list bool) (i j : nat) :
  i < length bv ->
  IsBitSet (<[i := true]> bv) j = IsBitSet bv j || (j =? i).
Proof.
  intros Hi. unfold IsBitSet.
  destruct (Nat.eqb_spec j i) as [->|Hne].
  - rewrite list_lookup_insert_eq by assumption. now rewrite orb_true_r.
  - rewrite list_lookup_insert_ne by auto. now rewrite orb_false_r.
Qed.

Lemma length_set_range (count first : nat) (bv : list bool) :
  length (set_range first count bv) = length bv.
Proof.
  revert first bv. induction count as [|count IH]; intros first bv; simpl.
  - reflexivity.
  - now rewrite IH, length_insert.
Qed.

Lemma IsBitSet_set_range (count first : nat) (bv : list bool) (j : nat) :
  first + count <= length bv ->
  IsBitSet (set_range first count bv) j =
  IsBitSet bv j || ((first <=? j) && (j <? first + count)).
Proof.
  revert first bv. induction count as [|count IH]; intros first bv Hlen; simpl.
  - cmp_cases; try lia; simpl; now rewrite orb_false_r.
  - rewrite IH by (rewrite length_insert; lia).
    rewrite IsBitSet_insert by lia. rewrite <- orb_assoc. f_equal.
    cmp_cases; try lia; reflexivity.
Qed.


Section Marking.
Variable on_set : nat -> list bool -> result (list bool).
Let marking := mark on_set.

(** No position of the range is taken: the loop sets them all. *)
Lemma mark_loop_fresh (count first : nat) (bv : list bool) :
  first + count <= length bv ->
  (forall j, first <= j < first + count -> IsBitSet bv j = false) ->
  for_each marking (seq first count) bv = Ok (set_range first count bv).
Proof.
  revert first bv. induction count as [|count IH]; intros first bv Hlen Hfresh.
  - reflexivity.
  - simpl. unfold marking, mark at 1. rewrite Hfresh by lia.
    unfold SetBit. destruct (Nat.ltb_spec first (length bv)); [|lia]. simpl.
    apply IH.
    + rewrite length_insert. lia.
    + intros j Hj. rewrite IsBitSet_insert by lia. rewrite Hfresh by lia.
      cmp_cases; [lia|reflexivity].
Qed.

(** A taken position is let through: the loop sets the others. *)
Lemma mark_loop_accepting (count first : nat) (bv : list bool) :
  (forall j bv', on_set j bv' = Ok bv') ->
  first + count <= length bv ->
  for_each marking (seq first count) bv = Ok (set_range first count bv).
Proof.
  intros Haccept. revert first bv.
  induction count as [|count IH]; intros first bv Hlen.
  - reflexivity.
  - simpl. unfold marking, mark at 1. destruct (IsBitSet bv first) eqn:Hbit.
    + rewrite Haccept. simpl.
      assert (Hfirst : bv !! first = Some true).
      { unfold IsBitSet in Hbit. destruct (bv !! first) as [[]|]; congruence. }
      rewrite (list_insert_id bv first true Hfirst). apply IH. lia.
    + unfold SetBit. destruct (Nat.ltb_spec first (length bv)); [|lia]. simpl.
      apply IH. rewrite length_insert. lia.
Qed.

(** The loop reaches the first taken position of the range with the
    positions before it set. *)
Lemma mark_loop_first_taken (count first : nat) (bv : list bool) (j0 : nat) :
  first + count <= length bv ->
  first <= j0 < first + count ->
  IsBitSet bv j0 = true ->
  (forall j, first <= j < j0 -> IsBitSet bv j = false) ->
  for_each marking (seq first count) bv =
  bind (on_set j0 (set_range first (j0 - first) bv))
       (for_each marking (seq (S j0) (first + count - S j0))).
Proof.
  revert first bv. induction count as [|count IH];
    intros first bv Hlen Hj0 Hbit Hfresh; [lia|].
  simpl. unfold marking, mark at 1.
  destruct (Nat.eq_dec j0 first) as [->|Hne].
  - rewrite Hbit, Nat.sub_diag. simpl.
    replace (first + S count - S first) with count by lia. reflexivity.
  - rewrite Hfresh by lia.
    unfold SetBit. destruct (Nat.ltb_spec first (length bv)); [|lia]. simpl.
    rewrite (IH (S first)).
    + replace (j0 - first) with (S (j0 - S first)) by lia.
      replace (S first + count - S j0) with (first + S count - S j0) by lia.
      reflexivity.
    + rewrite length_insert. lia.
    + lia.
    + rewrite IsBitSet_insert by lia. now rewrite Hbit.
    + intros j Hj. rewrite IsBitSet_insert by lia. rewrite Hfresh by lia.
      cmp_cases; [lia|reflexivity].
Qed.

(** The first taken position of a range that has one. *)
Lemma first_taken (count first : nat) (bv : list bool) :
  (exists j, first <= j < first + count /\ IsBitSet bv j = true) ->
  exists j0, first <= j0 < first + count /\ IsBitSet bv j0 = true /\
             forall j, first <= j < j0 -> IsBitSet bv j = false.
Proof.
  revert first. induction count as [|count IH]; intros first (j & Hj & Hbit).
  - lia.
  - destruct (IsBitSet bv first) eqn:Hfirst.
    + exists first. split; [lia|]. split; [assumption|]. intros; lia.
    + destruct (IH (S first)) as (j0 & Hj0 & Hbit0 & Hleast).
      { exists j. split; [|assumption].
        destruct (Nat.eq_dec j first) as [->|]; [congruence|lia]. }
      exists j0. split; [lia|]. split; [assumption|].
      intros j' Hj'. destruct (Nat.eq_dec j' first) as [->|]; [assumption|].
      apply Hleast. lia.
Qed.

(** A loop whose taken positions all end the run in the same way ends in
    that way as soon as the range has a taken position. *)
Lemma mark_loop_stops (count first : nat) (bv : list bool)
    (out : result (list bool)) :
  (forall j bv', on_set j bv' = out) ->
  (forall bv', out <> Ok bv') ->
  first + count <= length bv ->
  (exists j, first <= j < first + count /\ IsBitSet bv j = true) ->
  for_each marking (seq first count) bv = out.
Proof.
  intros Hout Hfinal Hlen Htaken.
  destruct (first_taken count first bv Htaken) as (j0 & Hj0 & Hbit & Hleast).
  rewrite (mark_loop_first_taken count first bv j0) by assumption.
  rewrite Hout. destruct out; simpl; [now destruct (Hfinal a)|reflexivity..].
Qed.

End Marking.

(** ** The loops of the validator run over the visits *)

Lemma map_result_Ok {A B : Type} (f : A -> result B) (l : list A)
    (l' : list B) :
  map_result f l = Ok l' -> Forall2 (fun x y => f x = Ok y) l l'.
Proof.
  revert l'. induction l as [|x l IH]; intros l' Hmap; simpl in Hmap.
  - injection Hmap as <-. constructor.
  - apply bind_Ok in Hmap as (y & Hy & Hmap).
    apply bind_Ok in Hmap as (ys & Hys & Hmap).
    injection Hmap as <-. constructor; auto.
Qed.

Lemma for_each_Forall2 {A B S : Type} (body : A -> S -> result S)
    (body' : B -> S -> result S) (l : list A) (l' : list B) (s : S) :
  Forall2 (fun x y => forall s, body x s = body' y s) l l' ->
  for_each body l s = for_each body' l' s.
Proof.
  intros Hall. revert s. induction Hall as [|x y l l' Hxy _ IH]; intros s.
  - reflexivity.
  - simpl. rewrite Hxy. destruct (body' y s); simpl; auto.
Qed.

Lemma for_each_concat {A B S : Type} (body : A -> S -> result S)
    (body' : B -> S -> result S) (l : list A) (ls : list (list B)) (s : S) :
  Forall2 (fun x ys => forall s, body x s = for_each body' ys s) l ls ->
  for_each body l s = for_each body' (concat ls) s.
Proof.
  intros Hall. revert s. induction Hall as [|x ys l ls Hx _ IH]; intros s.
  - reflexivity.
  - simpl. rewrite for_each_app, Hx.
    destruct (for_each body' ys s); simpl; auto.
Qed.

Lemma all_ranges_loop_visited {S : Type} (fuel : nat) (h : list LiveInterval)
    (body : AllRangesIterator -> S -> result S) (it : AllRangesIterator)
    (its : list AllRangesIterator) (s : S) :
  visited fuel h it = Ok its ->
  all_ranges_loop fuel h body it s = for_each body its s.
Proof.
  revert it its s. induction fuel as [|fuel IH]; intros it its s Hvisited;
    simpl in Hvisited; [discriminate|].
  simpl. destruct (Done it).
  - injection Hvisited as <-. reflexivity.
  - apply bind_Ok in Hvisited as (it' & Hadvance & Hvisited).
    apply bind_Ok in Hvisited as (rest & Hrest & Hvisited).
    injection Hvisited as <-. simpl. rewrite Hadvance.
    destruct (body it s); simpl; auto.
Qed.

Section Bridge.
Context {S : Type}.
Variable fuel : nat.
Variable h : list LiveInterval.
Variable body : AllRangesIterator -> S -> result S.
Variable body' : Visit -> S -> result S.
Hypothesis body_resolved :
  forall it v s, resolve h it = Ok v -> body it s = body' v s.

Lemma for_all_ranges_visits (start_interval : nat) (visits : list Visit)
    (s : S) :
  visits_of fuel h start_interval = Ok visits ->
  for_all_ranges fuel h body start_interval s = for_each body' visits s.
Proof.
  unfold visits_of, for_all_ranges. intros Hvisits.
  apply bind_Ok in Hvisits as (it & -> & Hvisits).
  apply bind_Ok in Hvisits as (its & Hits & Hvisits). simpl.
  rewrite (all_ranges_loop_visited fuel h body it its s Hits).
  apply for_each_Forall2.
  eapply Forall2_impl; [apply map_result_Ok, Hvisits|].
  intros it' v Hresolve s'. now apply body_resolved.
Qed.

Lemma for_each_all_visits (intervals : list nat) (visits : list Visit)
    (s : S) :
  all_visits fuel h intervals = Ok visits ->
  for_each (for_all_ranges fuel h body) intervals s =
  for_each body' visits s.
Proof.
  unfold all_visits. intros Hvisits.
  apply bind_Ok in Hvisits as (chains & Hchains & Hvisits).
  injection Hvisits as <-.
  apply for_each_concat.
  eapply Forall2_impl; [apply map_result_Ok, Hchains|].
  intros p vs Hp s'. now apply for_all_ranges_visits.
Qed.

End Bridge.

Lemma resolve_Ok (h : list LiveInterval) (it : AllRangesIterator) (v : Visit) :
  resolve h it = Ok v ->
  CurrentInterval h it = Ok (current_ v) /\
  deref h (parent_ (current_ v)) = Ok (parent_of_current_ v) /\
  CurrentRange it = Ok (range_ v).
Proof.
  unfold resolve. intros Hresolve.
  apply bind_Ok in Hresolve as (current & Hcurrent & Hresolve).
  apply bind_Ok in Hresolve as (parent & Hparent & Hresolve).
  apply bind_Ok in Hresolve as (range & Hrange & Hresolve).
  injection Hresolve as <-. auto.
Qed.

Lemma validate_range_resolved (dbg : bool) (kVRegSize : Z)
    (h : list LiveInterval) (codegen : CodeGenerator)
    (mask_of : LiveInterval -> result Z) (intervals : list nat)
    (number_of_registers number_of_out_slots : nat)
    (register_type : RegisterType) (log_fatal_on_failure : bool)
    (it : AllRangesIterator) (v : Visit) (t : list (list bool)) :
  resolve h it = Ok v ->
  validate_range dbg kVRegSize h codegen mask_of intervals number_of_registers
    number_of_out_slots register_type log_fatal_on_failure it t =
  validate_visit dbg kVRegSize h codegen mask_of intervals number_of_registers
    number_of_out_slots register_type log_fatal_on_failure v t.
Proof.
  intros Hresolve.
  destruct (resolve_Ok h it v Hresolve) as (Hcurrent & Hparent & Hrange).
  unfold validate_range, validate_visit, mark_slot_at, slot_timeline.
  rewrite Hcurrent. simpl. rewrite Hparent. simpl.
  assert (Hregs : forall l t',
    for_each (mark_registers dbg h codegen mask_of intervals register_type
                log_fatal_on_failure (current_ v) it) l t' =
    for_each (mark_registers_at dbg h codegen mask_of intervals register_type
                log_fatal_on_failure v) l t').
  { intros l t'. apply for_each_Forall2. apply Forall2_same_length_lookup_2.
    - reflexivity.
    - intros i reg reg' Hreg Hreg' s. assert (reg = reg') as <- by congruence.
      unfold mark_registers, mark_registers_at. now rewrite Hrange. }
  destruct (spill_slot_ (parent_of_current_ v)) as [slot|]; simpl.
  - destruct (has_own_stack_slot (defined_by_ (parent_of_current_ v))); simpl.
    + destruct (mask_of (current_ v)); simpl; auto.
    + rewrite Hrange.
      destruct (vector_at t _); simpl; auto.
      destruct (for_each _ _ a); simpl; auto.
      destruct (mask_of (current_ v)); simpl; auto.
  - destruct (mask_of (current_ v)); simpl; auto.
Qed.

Lemma max_end_range_resolved (h : list LiveInterval) (it : AllRangesIterator)
    (v : Visit) (m : nat) :
  resolve h it = Ok v ->
  max_end_range it m = Ok (Nat.max m (end_ (range_ v))).
Proof.
  intros Hresolve.
  destruct (resolve_Ok h it v Hresolve) as (_ & _ & Hrange).
  unfold max_end_range. now rewrite Hrange.
Qed.

Lemma for_each_max_end (visits : list Visit) (m : nat) :
  for_each (fun v m => Ok (Nat.max m (end_ (range_ v)))) visits m =
  Ok (fold_left (fun m v => Nat.max m (end_ (range_ v))) visits m).
Proof.
  revert m. induction visits as [|v visits IH]; intros m; simpl; auto.
Qed.

(** [ValidateIntervals] as a loop over the visits, on cleared timelines
    as long as the largest end of a range. *)
Lemma ValidateIntervals_visits (dbg : bool) (kVRegSize : Z) (fuel : nat)
    (h : list LiveInterval) (intervals : list nat)
    (number_of_spill_slots number_of_out_slots : nat)
    (codegen : CodeGenerator) (liveness : option SsaLivenessAnalysis)
    (register_type : RegisterType) (log_fatal_on_failure : bool)
    (visits : list Visit) (blocked : Z) :
  all_visits fuel h intervals = Ok visits ->
  GetBlockedRegistersForCall dbg (registers_of codegen register_type)
    (callee_save_of codegen register_type) = Ok blocked ->
  ValidateIntervals dbg kVRegSize fuel h intervals number_of_spill_slots
    number_of_out_slots codegen liveness register_type log_fatal_on_failure =
  returning (
    let* _ :=
      for_each
        (validate_visit dbg kVRegSize h codegen
           (get_register_mask dbg register_type
              (registers_of codegen register_type) blocked liveness)
           intervals (registers_of codegen register_type)
           number_of_out_slots register_type log_fatal_on_failure)
        visits
        (replicate (registers_of codegen register_type + number_of_spill_slots)
                   (replicate (max_end_of visits) false)) in
    Ok true).
Proof.
  intros Hvisits Hblocked. unfold ValidateIntervals.
  replace (match register_type with
           | kCoreRegister => GetNumberOfCoreRegisters codegen
           | kFpRegister => GetNumberOfFloatingPointRegisters codegen
           end) with (registers_of codegen register_type)
    by (destruct register_type; reflexivity).
  replace (match register_type with
           | kCoreRegister => GetBlockedCoreRegistersForCall dbg _ codegen
           | kFpRegister => GetBlockedFpRegistersForCall dbg _ codegen
           end) with (Ok (A := Z) blocked)
    by (rewrite <- Hblocked; destruct register_type; reflexivity).
  simpl.
  rewrite (for_each_all_visits fuel h max_end_range
             (fun v m => Ok (Nat.max m (end_ (range_ v))))
             (max_end_range_resolved h) intervals visits 0 Hvisits).
  rewrite for_each_max_end. simpl. fold (max_end_of visits).
  rewrite (for_each_all_visits fuel h _ _
             (validate_range_resolved dbg kVRegSize h codegen _ intervals
                _ number_of_out_slots register_type log_fatal_on_failure)
             intervals visits _ Hvisits).
  reflexivity.
Qed.

(** ** Timelines *)

Lemma shaped_lookup (count len : nat) (t : list (list bool)) (loc : nat) :
  shaped count len t -> loc < count ->
  exists bv, t !! loc = Some bv /\ length bv = len.
Proof.
  intros [Hcount Hlen] Hloc.
  destruct (lookup_lt_is_Some_2 t loc) as [bv Hbv]; [lia|].
  exists bv. split; [assumption|].
  rewrite Forall_forall in Hlen. apply Hlen, list_elem_of_lookup. eauto.
Qed.

Lemma shaped_insert (count len : nat) (t : list (list bool)) (loc : nat)
    (bv : list bool) :
  shaped count len t -> length bv = len -> shaped count len (<[loc := bv]> t).
Proof.
  intros [Hcount Hlen] Hbv. split.
  - now rewrite length_insert.
  - rewrite Forall_forall in *. intros bv' Hin.
    apply list_elem_of_lookup in Hin as [i Hi].
    destruct (Nat.eq_dec i loc) as [->|Hne].
    + destruct (Nat.lt_ge_cases loc (length t)).
      * rewrite list_lookup_insert_eq in Hi by assumption. congruence.
      * rewrite list_insert_ge in Hi by assumption.
        apply Hlen, list_elem_of_lookup. eauto.
    + rewrite list_lookup_insert_ne in Hi by auto.
      apply Hlen, list_elem_of_lookup. eauto.
Qed.

Lemma shaped_replicate (count len : nat) :
  shaped count len (replicate count (replicate len false)).
Proof.
  split.
  - apply length_replicate.
  - rewrite Forall_forall. intros bv Hin.
    apply elem_of_replicate in Hin as [-> _].
    apply length_replicate.
Qed.

Lemma bit_replicate (count len loc j : nat) :
  bit (replicate count (replicate len false)) loc j = false.
Proof.
  unfold bit, IsBitSet.
  destruct (replicate count (replicate len false) !! loc) as [bv|] eqn:Hbv;
    [|reflexivity].
  apply lookup_replicate in Hbv as [-> _].
  destruct (replicate len false !! j) as [b|] eqn:Hb; [|reflexivity].
  now apply lookup_replicate in Hb as [-> _].
Qed.

Section MarkOn.
Variables count len : nat.
Variable r : LiveRange.
Hypothesis range_fits : end_ r <= len.

Lemma shaped_mark_on (t : list (list bool)) (loc : nat) :
  shaped count len t -> shaped count len (mark_on r loc t).
Proof.
  intros Hshaped. unfold mark_on.
  destruct (t !! loc) as [bv|] eqn:Hbv; [|assumption].
  apply shaped_insert; [assumption|].
  rewrite length_set_range. destruct Hshaped as [_ Hlen].
  rewrite Forall_forall in Hlen.
  apply Hlen, list_elem_of_lookup. eauto.
Qed.

Lemma bit_mark_on (t : list (list bool)) (loc loc' j : nat) :
  shaped count len t -> loc < count ->
  bit (mark_on r loc t) loc' j =
  bit t loc' j || ((loc' =? loc) && (start_ r <=? j) && (j <? end_ r)).
Proof.
  intros Hshaped Hloc.
  destruct (shaped_lookup count len t loc Hshaped Hloc) as (bv & Hbv & Hlen).
  unfold mark_on, bit. rewrite Hbv.
  assert (loc < length t) by (destruct Hshaped; lia).
  destruct (Nat.eqb_spec loc' loc) as [->|Hne].
  - rewrite list_lookup_insert_eq, Hbv by assumption.
    destruct (Nat.le_gt_cases (start_ r) (end_ r)).
    + rewrite IsBitSet_set_range by lia.
      replace (start_ r + (end_ r - start_ r)) with (end_ r) by lia.
      reflexivity.
    + replace (end_ r - start_ r) with 0 by lia. simpl.
      cmp_cases; try lia; simpl; now rewrite orb_false_r.
  - rewrite list_lookup_insert_ne by auto. simpl. now rewrite orb_false_r.
Qed.

Lemma shaped_mark_all (locs : list nat) (t : list (list bool)) :
  shaped count len t -> shaped count len (mark_all r locs t).
Proof.
  revert t. induction locs as [|loc locs IH]; intros t Hshaped; simpl.
  - assumption.
  - apply IH, shaped_mark_on, Hshaped.
Qed.

Lemma bit_mark_all (locs : list nat) (t : list (list bool)) (loc' j : nat) :
  shaped count len t -> Forall (fun loc => loc < count) locs ->
  bit (mark_all r locs t) loc' j = true <->
  bit t loc' j = true \/ (loc' ∈ locs /\ covers r j).
Proof.
  revert t. induction locs as [|loc locs IH]; intros t Hshaped Hlocs; simpl.
  - split; [auto|]. intros [?|[Hin _]]; [assumption|]. inversion Hin.
  - inversion Hlocs as [|? ? Hloc Hrest]; subst.
    rewrite IH by (auto using shaped_mark_on).
    rewrite bit_mark_on by assumption.
    rewrite orb_true_iff, !andb_true_iff, Nat.eqb_eq, Nat.leb_le, Nat.ltb_lt.
    unfold covers. rewrite elem_of_cons. intuition (subst; auto).
Qed.

End MarkOn.

Lemma max_end_of_ge_from (visits : list Visit) (m : nat) :
  m <= fold_left (fun m v => Nat.max m (end_ (range_ v))) visits m /\
  forall v, v ∈ visits ->
    end_ (range_ v) <= fold_left (fun m v => Nat.max m (end_ (range_ v))) visits m.
Proof.
  revert m. induction visits as [|v visits IH]; intros m; simpl.
  - split; [lia|]. intros v Hin. inversion Hin.
  - destruct (IH (Nat.max m (end_ (range_ v)))) as [Hm Hin]. split; [lia|].
    intros v' Hv'. apply elem_of_cons in Hv' as [->|Hv']; [lia|auto].
Qed.

Lemma max_end_of_ge (visits : list Visit) (v : Visit) :
  v ∈ visits -> end_ (range_ v) <= max_end_of visits.
Proof. apply max_end_of_ge_from. Qed.

Lemma LowToHighBits_NoDup (mask : Z) : NoDup (LowToHighBits mask).
Proof. apply NoDup_filter, NoDup_seq. Qed.

Lemma LowToHighBits_spec (mask : Z) (reg : nat) :
  reg ∈ LowToHighBits mask <->
  Z.testbit mask (Z.of_nat reg) = true /\ reg < 32.
Proof.
  unfold LowToHighBits. rewrite list_elem_of_filter, elem_of_seq.
  unfold uint32_bits. simpl. intuition lia.
Qed.

(** ** One timeline of one visit *)

Lemma taken_dec (count first : nat) (bv : list bool) :
  (exists j, first <= j < first + count /\ IsBitSet bv j = true) \/
  (forall j, first <= j < first + count -> IsBitSet bv j = false).
Proof.
  revert first. induction count as [|count IH]; intros first.
  - right. intros; lia.
  - destruct (IsBitSet bv first) eqn:Hfirst.
    + left. exists first. split; [lia|assumption].
    + destruct (IH (S first)) as [(j & Hj & Hbit)|Hfree].
      * left. exists j. split; [lia|assumption].
      * right. intros j Hj.
        destruct (Nat.eq_dec j first) as [->|]; [assumption|].
        apply Hfree. lia.
Qed.

Lemma insert_mark_on (t : list (list bool)) (loc : nat) (bv : list bool)
    (r : LiveRange) :
  t !! loc = Some bv ->
  <[loc := set_range (start_ r) (end_ r - start_ r) bv]> t = mark_on r loc t.
Proof. intros Hbv. unfold mark_on. now rewrite Hbv. Qed.

Section Timeline.
Variables count len : nat.
Variable t : list (list bool).
Variable r : LiveRange.
Variable loc : nat.
Variable on_set : nat -> list bool -> result (list bool).
Hypothesis t_shaped : shaped count len t.
Hypothesis loc_exists : loc < count.
Hypothesis range_fits : end_ r <= len.

Let marking := mark_timeline on_set r loc t.
Let first_taken_at := first_conflict t r loc.

Lemma mark_timeline_fresh :
  (forall j, covers r j -> bit t loc j = false) ->
  marking = Ok (mark_on r loc t).
Proof.
  intros Hfresh. unfold marking, mark_timeline, vector_at, positions.
  destruct (shaped_lookup count len t loc t_shaped loc_exists)
    as (bv & Hbv & Hlen).
  rewrite Nat2Z.id, Hbv. simpl.
  destruct (Nat.le_gt_cases (end_ r) (start_ r)).
  - replace (end_ r - start_ r) with 0 by lia. simpl.
    unfold mark_on. rewrite Hbv.
    replace (end_ r - start_ r) with 0 by lia. reflexivity.
  - rewrite mark_loop_fresh.
    + simpl. f_equal. now apply insert_mark_on.
    + lia.
    + intros j Hj. specialize (Hfresh j). unfold bit in Hfresh.
      rewrite Hbv in Hfresh. apply Hfresh. unfold covers. lia.
Qed.

Lemma mark_timeline_accepting :
  (forall j bv, on_set j bv = Ok bv) ->
  marking = Ok (mark_on r loc t).
Proof.
  intros Haccept. unfold marking, mark_timeline, vector_at, positions.
  destruct (shaped_lookup count len t loc t_shaped loc_exists)
    as (bv & Hbv & Hlen).
  rewrite Nat2Z.id, Hbv. simpl.
  destruct (Nat.le_gt_cases (end_ r) (start_ r)).
  - replace (end_ r - start_ r) with 0 by lia. simpl.
    unfold mark_on. rewrite Hbv.
    replace (end_ r - start_ r) with 0 by lia. reflexivity.
  - rewrite mark_loop_accepting by (assumption || lia).
    simpl. f_equal. now apply insert_mark_on.
Qed.

Lemma mark_timeline_stops (out : result (list bool)) :
  (forall j bv, on_set j bv = out) ->
  (forall bv, out <> Ok bv) ->
  (exists j, covers r j /\ bit t loc j = true) ->
  marking =
  match out with
  | Ok _ => Halt UndefinedBehaviour
  | Return b => Return b
  | Halt f => Halt f
  end.
Proof.
  intros Hout Hfinal (j & Hj & Hbit). unfold marking, mark_timeline, vector_at, positions.
  destruct (shaped_lookup count len t loc t_shaped loc_exists)
    as (bv & Hbv & Hlen).
  rewrite Nat2Z.id, Hbv. simpl. unfold covers in Hj.
  rewrite (mark_loop_stops on_set _ _ bv out Hout Hfinal).
  - destruct out; [now destruct (Hfinal a)|reflexivity..].
  - lia.
  - exists j. split; [lia|]. unfold bit in Hbit. now rewrite Hbv in Hbit.
Qed.


Lemma mark_timeline_first (j0 : nat) (out : nat -> result (list bool)) :
  (forall j bv, on_set j bv = out j) ->
  (forall bv, out j0 <> Ok bv) ->
  first_taken_at j0 ->
  marking =
  match out j0 with
  | Ok _ => Halt UndefinedBehaviour
  | Return b => Return b
  | Halt f => Halt f
  end.
Proof.
  intros Hout Hfinal (Hj0 & Hbit & Hleast).
  unfold marking, mark_timeline, vector_at, positions.
  destruct (shaped_lookup count len t loc t_shaped loc_exists)
    as (bv & Hbv & Hlen).
  rewrite Nat2Z.id, Hbv. simpl. unfold covers in Hj0.
  unfold bit in Hbit, Hleast. rewrite Hbv in Hbit, Hleast.
  rewrite (mark_loop_first_taken on_set _ _ bv j0); try assumption; try lia.
  rewrite Hout. destruct (out j0); simpl; try reflexivity.
  now destruct (Hfinal a).
Qed.

Lemma first_conflict_exists :
  (exists j, covers r j /\ bit t loc j = true) -> exists j0, first_taken_at j0.
Proof.
  intros (j & Hj & Hbit).
  destruct (shaped_lookup count len t loc t_shaped loc_exists)
    as (bv & Hbv & Hlen).
  unfold covers in Hj.
  destruct (first_taken (end_ r - start_ r) (start_ r) bv) as (j0 & H0 & Hb & Hl).
  { exists j. split; [lia|]. unfold bit in Hbit. now rewrite Hbv in Hbit. }
  exists j0. unfold first_taken_at, first_conflict, covers, bit. rewrite Hbv.
  split; [lia|]. split; [assumption|]. exact Hl.
Qed.

Lemma conflict_dec :
  (exists j, covers r j /\ bit t loc j = true) \/
  (forall j, covers r j -> bit t loc j = false).
Proof.
  destruct (shaped_lookup count len t loc t_shaped loc_exists)
    as (bv & Hbv & Hlen).
  unfold covers, bit. rewrite Hbv.
  destruct (taken_dec (end_ r - start_ r) (start_ r) bv)
    as [(j & Hj & Hbit)|Hfree].
  - left. exists j. split; [lia|assumption].
  - right. intros j Hj. apply Hfree. lia.
Qed.

End Timeline.

(** ** One visit *)

Section VisitStep.
Variable dbg : bool.
Variable kVRegSize : Z.
Variable h : list LiveInterval.
Variable codegen : CodeGenerator.
Variable mask_of : LiveInterval -> result Z.
Variable intervals : list nat.
Variables number_of_registers number_of_spill_slots number_of_out_slots : nat.
Variable register_type : RegisterType.
Variable fatal : bool.
Variable len : nat.

Let count := number_of_registers + number_of_spill_slots.
Let mark_regs :=
  mark_registers_at dbg h codegen mask_of intervals register_type fatal.
Let validate :=
  validate_visit dbg kVRegSize h codegen mask_of intervals number_of_registers
    number_of_out_slots register_type fatal.
Let slot_of :=
  slot_timeline kVRegSize number_of_registers number_of_out_slots.
Let wf :=
  wf_visit kVRegSize mask_of number_of_registers number_of_spill_slots
    number_of_out_slots.

Lemma mark_slot_at_timeline (v : Visit) (idx : Z) (t : list (list bool)) :
  (0 <= idx)%Z ->
  mark_slot_at fatal v idx t =
  mark_timeline (slot_on_set fatal) (range_ v) (Z.to_nat idx) t.
Proof.
  intros Hidx. unfold mark_slot_at, mark_timeline.
  rewrite Z2Nat.id by assumption. reflexivity.
Qed.

Lemma mark_registers_at_timeline (v : Visit) (reg : nat)
    (t : list (list bool)) :
  mark_regs v reg t =
  let* _ := allocated_check dbg codegen register_type fatal v reg in
  mark_timeline (register_on_set h mask_of intervals fatal (current_ v) reg)
                (range_ v) reg t.
Proof. reflexivity. Qed.

(** What [wf] says of the slot timeline. *)
Lemma wf_slot (v : Visit) (idx : Z) :
  wf v -> slot_of v = Some idx ->
  (0 <= idx)%Z /\ number_of_registers <= Z.to_nat idx < count.
Proof.
  intros [_ Hslot] Hidx. specialize (Hslot idx Hidx). unfold count. lia.
Qed.

Lemma wf_registers (v : Visit) (mask : Z) :
  wf v -> mask_of (current_ v) = Ok mask ->
  Forall (fun reg => reg < count) (LowToHighBits mask) /\
  Forall (fun reg => reg < number_of_registers) (LowToHighBits mask).
Proof.
  intros [(mask' & Hmask' & Hregs) _] Hmask.
  assert (mask' = mask) as -> by congruence.
  split; apply Forall_forall; intros reg Hin; specialize (Hregs reg Hin);
    unfold count; lia.
Qed.

Section OneVisit.
Variable v : Visit.
Hypothesis range_fits : end_ (range_ v) <= len.

(** The loop over the registers of a mask, in non-fatal mode: a register
    conflict that is not exempt returns false, anything else marks. *)
Lemma mark_registers_nonfatal (regs : list nat) (t : list (list bool)) :
  fatal = false ->
  shaped count len t ->
  Forall (fun reg => reg < count) regs ->
  for_each (mark_regs v) regs t = Return false \/
  for_each (mark_regs v) regs t = Ok (mark_all (range_ v) regs t).
Proof.
  intros Hfatal. revert t.
  induction regs as [|reg regs IH]; intros t Hshaped Hregs; simpl.
  - right. reflexivity.
  - apply Forall_cons in Hregs as [Hreg Hrest].
    rewrite mark_registers_at_timeline. unfold allocated_check.
    rewrite Hfatal, andb_false_r. simpl.
    assert (Hstep :
      mark_timeline (register_on_set h mask_of intervals false (current_ v) reg)
        (range_ v) reg t = Return false \/
      mark_timeline (register_on_set h mask_of intervals false (current_ v) reg)
        (range_ v) reg t = Ok (mark_on (range_ v) reg t)).
    { destruct (exempt v) eqn:Hexempt.
      - right. apply (mark_timeline_accepting count len); try assumption.
        intros j bv. unfold register_on_set. unfold exempt in Hexempt.
        now rewrite Hexempt.
      - destruct (conflict_dec count len t (range_ v) reg Hshaped Hreg range_fits)
          as [Htaken|Hfresh].
        + left.
          apply (mark_timeline_stops count len t (range_ v) reg _
                   Hshaped Hreg range_fits (Return false));
            [|discriminate|assumption].
          intros j bv. unfold register_on_set. unfold exempt in Hexempt.
          now rewrite Hexempt.
        + right. now apply (mark_timeline_fresh count len). }
    destruct Hstep as [->| ->]; [left; reflexivity|]. simpl.
    apply IH; [|assumption]. now apply shaped_mark_on.
Qed.

(** A register of the mask that is taken at a position of the range, on
    an interval that is not exempt, makes the loop return false. *)
Lemma mark_registers_reject (regs : list nat) (t : list (list bool))
    (reg0 : nat) :
  fatal = false ->
  shaped count len t ->
  Forall (fun reg => reg < count) regs ->
  exempt v = false ->
  reg0 ∈ regs ->
  (exists j, covers (range_ v) j /\ bit t reg0 j = true) ->
  for_each (mark_regs v) regs t = Return false.
Proof.
  intros Hfatal. revert t.
  induction regs as [|reg regs IH];
    intros t Hshaped Hregs Hexempt Hin Htaken.
  - inversion Hin.
  - apply Forall_cons in Hregs as [Hreg Hrest].
    assert (Hone : Forall (fun reg => reg < count) [reg])
      by (constructor; [assumption|constructor]).
    destruct (mark_registers_nonfatal [reg] t Hfatal Hshaped Hone)
      as [Hstop|Hok]; simpl in *.
    + destruct (mark_regs v reg t); simpl in *; congruence.
    + destruct (Nat.eq_dec reg0 reg) as [->|Hne].
      * exfalso. rewrite mark_registers_at_timeline in Hok.
        unfold allocated_check in Hok. rewrite Hfatal, andb_false_r in Hok.
        simpl in Hok.
        rewrite (mark_timeline_stops count len t (range_ v) reg _
                   Hshaped Hreg range_fits (Return false)) in Hok;
          [discriminate| |discriminate|assumption].
        intros j bv. unfold register_on_set. unfold exempt in Hexempt.
        now rewrite Hexempt.
      * destruct (mark_regs v reg t) as [t1| |]; simpl in *;
          try congruence.
        injection Hok as ->.
        apply IH; try assumption.
        -- now apply shaped_mark_on.
        -- apply elem_of_cons in Hin as [?|?]; [congruence|assumption].
        -- destruct Htaken as (j & Hj & Hbit). exists j. split; [assumption|].
           rewrite (bit_mark_on count len) by assumption.
           now rewrite Hbit.
Qed.

(** The loop over the registers of a mask marks them all when the debug
    check passes and the interval is exempt or its registers are free over
    the range. *)
Lemma mark_registers_accept (regs : list nat) (t : list (list bool)) :
  shaped count len t ->
  Forall (fun reg => reg < count) regs ->
  NoDup regs ->
  (forall reg, reg ∈ regs ->
     allocated_check dbg codegen register_type fatal v reg = Ok tt) ->
  (exempt v = true \/
   forall reg j, reg ∈ regs -> covers (range_ v) j -> bit t reg j = false) ->
  for_each (mark_regs v) regs t = Ok (mark_all (range_ v) regs t).
Proof.
  revert t. induction regs as [|reg regs IH];
    intros t Hshaped Hregs Hnodup Hcheck Hfree; simpl.
  - reflexivity.
  - apply Forall_cons in Hregs as [Hreg Hrest].
    apply NoDup_cons in Hnodup as [Hnotin Hnodup].
    rewrite mark_registers_at_timeline.
    rewrite Hcheck by apply list_elem_of_here. simpl.
    assert (Hstep :
      mark_timeline (register_on_set h mask_of intervals fatal (current_ v) reg)
        (range_ v) reg t = Ok (mark_on (range_ v) reg t)).
    { destruct (exempt v) eqn:Hexempt.
      - apply (mark_timeline_accepting count len); try assumption.
        intros j bv. unfold register_on_set. unfold exempt in Hexempt.
        now rewrite Hexempt.
      - destruct Hfree as [?|Hfree]; [discriminate|].
        apply (mark_timeline_fresh count len); try assumption.
        intros j Hj. apply Hfree; [apply list_elem_of_here|assumption]. }
    rewrite Hstep. simpl. apply IH; try assumption.
    + now apply shaped_mark_on.
    + intros reg' Hin. apply Hcheck. now apply list_elem_of_further.
    + destruct Hfree as [?|Hfree]; [now left|right].
      intros reg' j Hin Hj. rewrite (bit_mark_on count len) by assumption.
      rewrite Hfree by (auto using list_elem_of_further).
      destruct (Nat.eqb_spec reg' reg) as [->|]; [contradiction|reflexivity].
Qed.

(** In non-fatal mode a visit either returns false or marks its range on
    all of its timelines. *)
Lemma validate_visit_nonfatal (t : list (list bool)) :
  fatal = false ->
  shaped count len t ->
  wf v ->
  exists mask,
    mask_of (current_ v) = Ok mask /\
    (validate v t = Return false \/
     validate v t =
       Ok (mark_all (range_ v)
             (visit_locs kVRegSize number_of_registers number_of_out_slots
                         mask v) t)).
Proof.
  intros Hfatal Hshaped Hwf.
  destruct Hwf as [(mask & Hmask & Hregs) Hslot] eqn:Hwf'. clear Hwf'.
  exists mask. split; [assumption|].
  destruct (wf_registers v mask Hwf Hmask) as [Hcount _].
  unfold validate, validate_visit, visit_locs, slot_locs,
    mark_all.
  fold slot_of. rewrite fold_left_app.
  destruct (slot_of v) as [idx|] eqn:Hidx; simpl.
  - destruct (wf_slot v idx Hwf Hidx) as [Hpos Hloc].
    rewrite mark_slot_at_timeline by assumption.
    destruct (conflict_dec count len t (range_ v) (Z.to_nat idx) Hshaped
                ltac:(lia) range_fits) as [Htaken|Hfresh].
    + left.
      rewrite (mark_timeline_stops count len t (range_ v) (Z.to_nat idx) _
                 Hshaped ltac:(lia) range_fits (Return false));
        [reflexivity| |discriminate|assumption].
      intros j bv. unfold slot_on_set. now rewrite Hfatal.
    + rewrite (mark_timeline_fresh count len) by (assumption || lia).
      simpl. rewrite Hmask. simpl.
      apply (mark_registers_nonfatal _ _ Hfatal); [|assumption].
      now apply shaped_mark_on.
  - rewrite Hmask. simpl.
    now apply (mark_registers_nonfatal _ _ Hfatal).
Qed.

(** A spill slot that is taken at a position of the range makes the visit
    return false in non-fatal mode. *)
Lemma validate_visit_reject_slot (t : list (list bool)) (loc : nat) :
  fatal = false ->
  shaped count len t ->
  wf v ->
  uses_slot kVRegSize number_of_registers number_of_out_slots v loc ->
  (exists j, covers (range_ v) j /\ bit t loc j = true) ->
  validate v t = Return false.
Proof.
  intros Hfatal Hshaped Hwf Huses Htaken. unfold uses_slot in Huses.
  fold slot_of in Huses.
  destruct (wf_slot v _ Hwf Huses) as [Hpos Hloc]. rewrite Nat2Z.id in Hloc.
  unfold validate, validate_visit. fold slot_of.
  rewrite Huses. rewrite mark_slot_at_timeline by assumption.
  rewrite Nat2Z.id.
  rewrite (mark_timeline_stops count len t (range_ v) loc _
             Hshaped ltac:(lia) range_fits (Return false));
    [reflexivity| |discriminate|assumption].
  intros j bv. unfold slot_on_set. now rewrite Hfatal.
Qed.

(** In fatal mode it stops with the first such position. *)
Lemma validate_visit_fatal_slot (t : list (list bool)) (loc j0 : nat) :
  fatal = true ->
  shaped count len t ->
  wf v ->
  uses_slot kVRegSize number_of_registers number_of_out_slots v loc ->
  first_conflict t (range_ v) loc j0 ->
  validate v t = Halt (SpillSlotConflict j0).
Proof.
  intros Hfatal Hshaped Hwf Huses Hfirst. unfold uses_slot in Huses.
  fold slot_of in Huses.
  destruct (wf_slot v _ Hwf Huses) as [Hpos Hloc]. rewrite Nat2Z.id in Hloc.
  unfold validate, validate_visit. fold slot_of.
  rewrite Huses. rewrite mark_slot_at_timeline by assumption.
  rewrite Nat2Z.id.
  rewrite (mark_timeline_first count len t (range_ v) loc _
             Hshaped ltac:(lia) range_fits j0
             (fun j => Halt (SpillSlotConflict j)));
    [reflexivity| |discriminate|assumption].
  intros j bv. unfold slot_on_set. now rewrite Hfatal.
Qed.

(** A register of the mask that is taken at a position of the range makes
    a visit that is not exempt return false in non-fatal mode. *)
Lemma validate_visit_reject_register (t : list (list bool)) (reg : nat) :
  fatal = false ->
  shaped count len t ->
  wf v ->
  exempt v = false ->
  uses_register mask_of v reg ->
  (exists j, covers (range_ v) j /\ bit t reg j = true) ->
  validate v t = Return false.
Proof.
  intros Hfatal Hshaped Hwf Hexempt (mask & Hmask & Hin) Htaken.
  destruct (wf_registers v mask Hwf Hmask) as [Hcount Hfile].
  unfold validate, validate_visit. fold slot_of.
  destruct (slot_of v) as [idx|] eqn:Hidx; simpl.
  - destruct (wf_slot v idx Hwf Hidx) as [Hpos Hloc].
    rewrite mark_slot_at_timeline by assumption.
    destruct (conflict_dec count len t (range_ v) (Z.to_nat idx) Hshaped
                ltac:(lia) range_fits) as [Hslot|Hfresh].
    + rewrite (mark_timeline_stops count len t (range_ v) (Z.to_nat idx) _
                 Hshaped ltac:(lia) range_fits (Return false));
        [reflexivity| |discriminate|assumption].
      intros j bv. unfold slot_on_set. now rewrite Hfatal.
    + rewrite (mark_timeline_fresh count len) by (assumption || lia).
      simpl. rewrite Hmask. simpl.
      apply (mark_registers_reject _ _ reg Hfatal); try assumption.
      * now apply shaped_mark_on.
      * destruct Htaken as (j & Hj & Hbit). exists j. split; [assumption|].
        rewrite (bit_mark_on count len) by (assumption || lia).
        now rewrite Hbit.
  - rewrite Hmask. simpl.
    now apply (mark_registers_reject _ _ reg Hfatal).
Qed.

(** A visit marks its range on all of its timelines when its spill slot
    is free over the range, it is exempt or its registers are free over
    the range, and the debug check passes. *)
Lemma validate_visit_accept (t : list (list bool)) (mask : Z) :
  shaped count len t ->
  wf v ->
  mask_of (current_ v) = Ok mask ->
  (forall reg, reg ∈ LowToHighBits mask ->
     allocated_check dbg codegen register_type fatal v reg = Ok tt) ->
  (forall loc j,
     uses_slot kVRegSize number_of_registers number_of_out_slots v loc ->
     covers (range_ v) j -> bit t loc j = false) ->
  (exempt v = true \/
   forall reg j, reg ∈ LowToHighBits mask -> covers (range_ v) j ->
                 bit t reg j = false) ->
  validate v t =
  Ok (mark_all (range_ v)
        (visit_locs kVRegSize number_of_registers number_of_out_slots mask v)
        t).
Proof.
  intros Hshaped Hwf Hmask Hcheck Hslot Hregs.
  destruct (wf_registers v mask Hwf Hmask) as [Hcount Hfile].
  unfold validate, validate_visit, visit_locs, slot_locs,
    mark_all.
  fold slot_of. rewrite fold_left_app.
  destruct (slot_of v) as [idx|] eqn:Hidx; simpl.
  - destruct (wf_slot v idx Hwf Hidx) as [Hpos Hloc].
    rewrite mark_slot_at_timeline by assumption.
    rewrite (mark_timeline_fresh count len); try assumption; try lia.
    + simpl. rewrite Hmask. simpl.
      apply mark_registers_accept; try assumption.
      * now apply shaped_mark_on.
      * apply LowToHighBits_NoDup.
      * destruct Hregs as [?|Hregs]; [now left|right].
        intros reg j Hin Hj.
        rewrite (bit_mark_on count len) by (assumption || lia).
        rewrite Hregs by assumption.
        rewrite Forall_forall in Hfile. specialize (Hfile reg Hin).
        destruct (Nat.eqb_spec reg (Z.to_nat idx)); [lia|reflexivity].
    + intros j Hj. apply Hslot; [|assumption].
      unfold uses_slot. fold slot_of. rewrite Hidx. f_equal. lia.
  - rewrite Hmask. simpl.
    apply mark_registers_accept; try assumption.
    apply LowToHighBits_NoDup.
Qed.

End OneVisit.
End VisitStep.

(** ** All the visits *)

Section Run.
Variable dbg : bool.
Variable kVRegSize : Z.
Variable h : list LiveInterval.
Variable codegen : CodeGenerator.
Variable mask_of : LiveInterval -> result Z.
Variable intervals : list nat.
Variables number_of_registers number_of_spill_slots number_of_out_slots : nat.
Variable register_type : RegisterType.
Variable fatal : bool.
Variable len : nat.

Let count := number_of_registers + number_of_spill_slots.
Let validate :=
  validate_visit dbg kVRegSize h codegen mask_of intervals number_of_registers
    number_of_out_slots register_type fatal.
Let wf :=
  wf_visit kVRegSize mask_of number_of_registers number_of_spill_slots
    number_of_out_slots.
Let holds := uses kVRegSize mask_of number_of_registers number_of_out_slots.
Let holds_slot := uses_slot kVRegSize number_of_registers number_of_out_slots.
Let locs := visit_locs kVRegSize number_of_registers number_of_out_slots.

(** The timelines on which a visit marks are the locations it holds. *)
Lemma visit_locs_uses (v : Visit) (mask : Z) (loc : nat) :
  wf v -> mask_of (current_ v) = Ok mask ->
  loc ∈ locs mask v <-> holds v loc.
Proof.
  intros Hwf Hmask.
  unfold locs, visit_locs, slot_locs, holds, uses,
    uses_slot, uses_register.
  rewrite elem_of_app.
  destruct (slot_timeline kVRegSize number_of_registers number_of_out_slots v)
    as [idx|] eqn:Hidx.
  - destruct (wf_slot kVRegSize mask_of number_of_registers
                number_of_spill_slots number_of_out_slots v idx Hwf Hidx)
      as [Hpos _].
    rewrite list_elem_of_singleton. split.
    + intros [->|Hin]; [left; f_equal; lia|right; eauto].
    + intros [Heq|(mask' & Hmask' & Hin)].
      * left. injection Heq as ->. lia.
      * right. congruence.
  - split.
    + intros [Hin|Hin]; [inversion Hin|right; eauto].
    + intros [Heq|(mask' & Hmask' & Hin)]; [discriminate|right; congruence].
Qed.

Lemma visit_locs_exist (v : Visit) (mask : Z) :
  wf v -> mask_of (current_ v) = Ok mask ->
  Forall (fun loc => loc < count) (locs mask v).
Proof.
  intros Hwf Hmask.
  unfold locs, visit_locs, slot_locs.
  apply Forall_app. split.
  - destruct (slot_timeline kVRegSize number_of_registers number_of_out_slots v)
      as [idx|] eqn:Hidx; [|constructor].
    destruct (wf_slot kVRegSize mask_of number_of_registers
                number_of_spill_slots number_of_out_slots v idx Hwf Hidx)
      as [_ Hloc].
    constructor; [|constructor]. unfold count. lia.
  - apply (wf_registers kVRegSize mask_of number_of_registers
             number_of_spill_slots number_of_out_slots v mask Hwf Hmask).
Qed.

(** In non-fatal mode the loop over the visits returns false, or falls
    through with every bit that was set still set and the range of every
    visit marked on every location it holds. *)
Lemma run_nonfatal (visits : list Visit) (t : list (list bool)) :
  fatal = false ->
  shaped count len t ->
  Forall (fun v => wf v /\ end_ (range_ v) <= len) visits ->
  for_each validate visits t = Return false \/
  exists t',
    for_each validate visits t = Ok t' /\
    shaped count len t' /\
    (forall loc j, bit t loc j = true -> bit t' loc j = true) /\
    (forall v loc j, v ∈ visits -> holds v loc -> covers (range_ v) j ->
                     bit t' loc j = true).
Proof.
  intros Hfatal. revert t.
  induction visits as [|v visits IH]; intros t Hshaped Hwf; simpl.
  - right. exists t. split; [reflexivity|]. split; [assumption|].
    split; [auto|]. intros v loc j Hin. inversion Hin.
  - apply Forall_cons in Hwf as [[Hv Hfits] Hwf].
    destruct (validate_visit_nonfatal dbg kVRegSize h codegen mask_of intervals
                number_of_registers number_of_spill_slots number_of_out_slots
                register_type fatal len v Hfits t Hfatal Hshaped Hv)
      as (mask & Hmask & [Hstop|Hok]).
    + left. fold validate in Hstop. now rewrite Hstop.
    + fold validate in Hok. rewrite Hok. simpl.
      pose proof (visit_locs_exist v mask Hv Hmask) as Hlocs.
      fold locs in Hok |- *.
      set (t1 := mark_all (range_ v) (locs mask v) t) in *.
      assert (Hshaped1 : shaped count len t1)
        by (apply shaped_mark_all; assumption).
      destruct (IH t1 Hshaped1 Hwf) as [Hstop|(t' & Hrun & Ht' & Hmono & Hmarks)].
      * now left.
      * right. exists t'. split; [assumption|]. split; [assumption|]. split.
        -- intros loc j Hbit. apply Hmono.
           apply (bit_mark_all count len (range_ v) Hfits); auto.
        -- intros v' loc j Hin Huses Hj.
           apply elem_of_cons in Hin as [->|Hin]; [|eauto].
           apply Hmono.
           apply (bit_mark_all count len (range_ v) Hfits); auto.
           right. split; [|assumption]. now apply visit_locs_uses.
Qed.

(** Two visits that hold a location over a common position, the later of
    which is not exempt where the location is a register, make the loop
    return false in non-fatal mode. *)
Lemma run_reject (before after : list Visit) (v1 v2 : Visit) (loc : nat)
    (t : list (list bool)) :
  fatal = false ->
  shaped count len t ->
  Forall (fun v => wf v /\ end_ (range_ v) <= len) (before ++ [v2]) ->
  v1 ∈ before ->
  holds v1 loc ->
  overlap (range_ v1) (range_ v2) ->
  holds_slot v2 loc \/ (uses_register mask_of v2 loc /\ exempt v2 = false) ->
  for_each validate (before ++ v2 :: after) t = Return false.
Proof.
  intros Hfatal Hshaped Hwf Hin Huses1 (j & Hj1 & Hj2) Huses2.
  apply Forall_app in Hwf as [Hbefore Hv2].
  apply Forall_cons in Hv2 as [[Hv2 Hfits] _].
  rewrite for_each_app.
  destruct (run_nonfatal before t Hfatal Hshaped Hbefore)
    as [->|(t' & -> & Ht' & _ & Hmarks)]; [reflexivity|].
  simpl.
  assert (Hbit : bit t' loc j = true) by eauto.
  replace (validate v2 t') with (Return (A := list (list bool)) false);
    [reflexivity|]. symmetry.
  destruct Huses2 as [Hslot|[Hreg Hexempt]].
  - apply (validate_visit_reject_slot dbg kVRegSize h codegen mask_of intervals
             number_of_registers number_of_spill_slots number_of_out_slots
             register_type fatal len v2 Hfits t' loc); eauto.
  - apply (validate_visit_reject_register dbg kVRegSize h codegen mask_of
             intervals number_of_registers number_of_spill_slots
             number_of_out_slots register_type fatal len v2 Hfits t' loc);
      eauto.
Qed.

(** The loop falls through when every visit is compatible with the visits
    made before it and passes the debug check. *)
Lemma run_accept (todo : list Visit) :
  forall (done : list Visit) (t : list (list bool)),
    shaped count len t ->
    (forall loc j, bit t loc j = true ->
       exists v, v ∈ done /\ holds v loc /\ covers (range_ v) j) ->
    Forall (fun v => wf v /\ end_ (range_ v) <= len) todo ->
    Forall (fun v => forall mask reg,
              mask_of (current_ v) = Ok mask -> reg ∈ LowToHighBits mask ->
              allocated_check dbg codegen register_type fatal v reg = Ok tt)
           todo ->
    (forall v1, v1 ∈ done ->
       Forall (compatible_visits kVRegSize mask_of number_of_registers
                 number_of_out_slots v1) todo) ->
    ForallOrdPairs (compatible_visits kVRegSize mask_of number_of_registers
                      number_of_out_slots) todo ->
    exists t', for_each validate todo t = Ok t'.
Proof.
  induction todo as [|v todo IH];
    intros done t Hshaped Hinv Hwf Hcheck Hdone Hpairs; simpl.
  - eauto.
  - apply Forall_cons in Hwf as [[Hv Hfits] Hwf].
    apply Forall_cons in Hcheck as [Hcheckv Hcheck].
    inversion Hpairs as [|? ? Hvtodo Htodo]; subst.
    destruct Hv as [(mask & Hmask & Hfile) Hslot] eqn:Hv'. clear Hv'.
    assert (Hcompat : forall v1 loc j,
              v1 ∈ done -> holds v1 loc -> covers (range_ v1) j ->
              holds v loc -> covers (range_ v) j ->
              uses_register mask_of v loc /\ exempt v = true).
    { intros v1 loc j Hin Hu1 Hj1 Hu Hj.
      specialize (Hdone v1 Hin). apply Forall_cons in Hdone as [Hc _].
      apply (Hc loc); [assumption..|]. exists j. split; assumption. }
    assert (Hstep : validate v t =
                    Ok (mark_all (range_ v) (locs mask v) t)).
    { apply (validate_visit_accept dbg kVRegSize h codegen mask_of intervals
               number_of_registers number_of_spill_slots number_of_out_slots
               register_type fatal len v Hfits t mask); try assumption.
      - intros reg Hin. now apply (Hcheckv mask).
      - intros loc j Hu Hj.
        destruct (bit t loc j) eqn:Hbit; [exfalso|reflexivity].
        destruct (Hinv loc j Hbit) as (v1 & Hin & Hu1 & Hj1).
        destruct (Hcompat v1 loc j Hin Hu1 Hj1 (or_introl Hu) Hj)
          as [(mask' & Hmask' & Hreg) _].
        assert (mask' = mask) as -> by congruence.
        specialize (Hfile loc Hreg).
        specialize (Hslot _ Hu). lia.
      - destruct (exempt v) eqn:Hexempt; [now left|right].
        intros reg j Hin Hj.
        destruct (bit t reg j) eqn:Hbit; [exfalso|reflexivity].
        destruct (Hinv reg j Hbit) as (v1 & Hin1 & Hu1 & Hj1).
        assert (Hu : holds v reg) by (right; exists mask; auto).
        destruct (Hcompat v1 reg j Hin1 Hu1 Hj1 Hu Hj) as [_ ?]. congruence. }
    rewrite Hstep. simpl.
    pose proof (visit_locs_exist v mask Hv Hmask) as Hlocs.
    apply (IH (done ++ [v])); try assumption.
    + now apply shaped_mark_all.
    + intros loc j Hbit.
      apply (bit_mark_all count len (range_ v) Hfits) in Hbit;
        [|assumption..].
      destruct Hbit as [Hbit|[Hin Hj]].
      * destruct (Hinv loc j Hbit) as (v1 & Hin & Hu & Hj).
        exists v1. rewrite elem_of_app. auto.
      * exists v. rewrite elem_of_app, list_elem_of_singleton.
        split; [auto|]. split; [|assumption].
        now apply (visit_locs_uses v mask).
    + intros v1 Hin. apply elem_of_app in Hin as [Hin|Hin].
      * specialize (Hdone v1 Hin). now apply Forall_cons in Hdone as [_ ?].
      * apply list_elem_of_singleton in Hin as ->. exact Hvtodo.
Qed.

End Run.

(** ** The validator reads the masks of the intervals it meets only *)

Lemma for_each_ext_in {A S : Type} (f g : A -> S -> result S) (l : list A)
    (s : S) :
  (forall x s, x ∈ l -> f x s = g x s) ->
  for_each f l s = for_each g l s.
Proof.
  revert s. induction l as [|x l IH]; intros s Hext; simpl.
  - reflexivity.
  - rewrite Hext by apply list_elem_of_here.
    destruct (g x s); simpl; auto.
    apply IH. intros y s' Hin. apply Hext. now apply list_elem_of_further.
Qed.

Section MaskExt.
Variable dbg : bool.
Variable kVRegSize : Z.
Variable h : list LiveInterval.
Variable codegen : CodeGenerator.
Variables m1 m2 : LiveInterval -> result Z.
Variable intervals : list nat.
Variables number_of_registers number_of_out_slots : nat.
Variable register_type : RegisterType.
Variable fatal : bool.
Hypothesis agree_on_array :
  forall p i, p ∈ intervals -> deref h p = Ok i -> m1 i = m2 i.

Lemma dump_register_conflict_ext (j reg : nat) :
  dump_register_conflict h m1 intervals j reg =
  dump_register_conflict h m2 intervals j reg.
Proof.
  unfold dump_register_conflict.
  rewrite (for_each_ext_in _
             (fun interval (_ : unit) =>
                let* i := deref h interval in let* _ := m2 i in Ok tt)).
  - reflexivity.
  - intros p [] Hin. destruct (deref h p) as [i| |] eqn:Hp; simpl; auto.
    now rewrite (agree_on_array p i).
Qed.

Lemma validate_visit_ext (v : Visit) (t : list (list bool)) :
  m1 (current_ v) = m2 (current_ v) ->
  validate_visit dbg kVRegSize h codegen m1 intervals number_of_registers
    number_of_out_slots register_type fatal v t =
  validate_visit dbg kVRegSize h codegen m2 intervals number_of_registers
    number_of_out_slots register_type fatal v t.
Proof.
  intros Hcurrent. unfold validate_visit. rewrite Hcurrent.
  destruct (match slot_timeline _ _ _ v with Some _ => _ | None => _ end)
    as [t1| |]; simpl; auto.
  destruct (m2 (current_ v)) as [mask| |]; simpl; auto.
  apply for_each_ext_in. intros reg t2 _.
  rewrite !mark_registers_at_timeline.
  destruct (allocated_check dbg codegen register_type fatal v reg);
    simpl; auto.
  unfold mark_timeline.
  destruct (vector_at t2 (Z.of_nat reg)) as [bv| |]; simpl; auto.
  replace (for_each (mark (register_on_set h m1 intervals fatal (current_ v)
                             reg)) (positions (range_ v)) bv)
    with (for_each (mark (register_on_set h m2 intervals fatal (current_ v)
                            reg)) (positions (range_ v)) bv); [reflexivity|].
  apply for_each_ext_in. intros j bv' _. unfold mark, register_on_set.
  now rewrite dump_register_conflict_ext.
Qed.

End MaskExt.

Lemma validator_mask_blocked (dbg : bool) (codegen : CodeGenerator)
    (liveness : option SsaLivenessAnalysis) (register_type : RegisterType)
    (blocked : Z) (interval : LiveInterval) :
  GetBlockedRegistersForCall dbg (registers_of codegen register_type)
    (callee_save_of codegen register_type) = Ok blocked ->
  get_register_mask dbg register_type (registers_of codegen register_type)
    blocked liveness interval =
  validator_mask dbg codegen liveness register_type interval.
Proof. intros Hblocked. unfold validator_mask. now rewrite Hblocked. Qed.

(** [ValidateIntervals] as a loop over the visits, with the masks it
    computes. *)
Lemma ValidateIntervals_run (dbg : bool) (kVRegSize : Z) (fuel : nat)
    (h : list LiveInterval) (intervals : list nat)
    (number_of_spill_slots number_of_out_slots : nat)
    (codegen : CodeGenerator) (liveness : option SsaLivenessAnalysis)
    (register_type : RegisterType) (fatal : bool) (visits : list Visit) :
  registers_of codegen register_type <= 32 ->
  all_visits fuel h intervals = Ok visits ->
  ValidateIntervals dbg kVRegSize fuel h intervals number_of_spill_slots
    number_of_out_slots codegen liveness register_type fatal =
  returning (
    let* _ :=
      for_each
        (validate_visit dbg kVRegSize h codegen
           (validator_mask dbg codegen liveness register_type)
           intervals (registers_of codegen register_type)
           number_of_out_slots register_type fatal)
        visits
        (replicate (registers_of codegen register_type + number_of_spill_slots)
                   (replicate (max_end_of visits) false)) in
    Ok true).
Proof.
  intros Hn Hvisits.
  destruct (GetBlockedRegistersForCall_spec dbg _
              (callee_save_of codegen register_type) Hn)
    as (blocked & Hblocked & _).
  rewrite (ValidateIntervals_visits dbg kVRegSize fuel h intervals
             number_of_spill_slots number_of_out_slots codegen liveness
             register_type fatal visits blocked Hvisits Hblocked).
  f_equal. f_equal. apply for_each_ext_in. intros v t _.
  apply validate_visit_ext.
  - intros p i _ _. now apply validator_mask_blocked.
  - now apply validator_mask_blocked.
Qed.

(** ** [ValidateIntervals] accepts and rejects *)

Lemma split_at_later {A : Type} (l : list A) (i j : nat) (x y : A) :
  i < j -> l !! i = Some x -> l !! j = Some y ->
  exists before after, l = before ++ y :: after /\ x ∈ before.
Proof.
  intros Hij Hx Hy. exists (take j l), (drop (S j) l). split.
  - symmetry. now apply take_drop_middle.
  - apply list_elem_of_lookup. exists i. now rewrite lookup_take_lt.
Qed.

Lemma disjoint_compatible (kVRegSize : Z) (mask_of : LiveInterval -> result Z)
    (number_of_registers number_of_out_slots : nat) (v1 v2 : Visit) :
  disjoint_visits kVRegSize mask_of number_of_registers number_of_out_slots
    v1 v2 ->
  compatible_visits kVRegSize mask_of number_of_registers number_of_out_slots
    v1 v2.
Proof. intros Hdisjoint loc Hu1 Hu2 Hoverlap. now destruct (Hdisjoint loc). Qed.

Lemma ForallOrdPairs_impl {A : Type} (R1 R2 : A -> A -> Prop) (l : list A) :
  (forall x y, R1 x y -> R2 x y) ->
  ForallOrdPairs R1 l -> ForallOrdPairs R2 l.
Proof.
  intros Himpl Hall. induction Hall as [|x l Hx _ IH]; constructor.
  - eapply Forall_impl; [exact Hx|]. auto.
  - exact IH.
Qed.

Section Validation.
Variable dbg : bool.
Variable kVRegSize : Z.
Variable fuel : nat.
Variable h : list LiveInterval.
Variable intervals : list nat.
Variables number_of_spill_slots number_of_out_slots : nat.
Variable codegen : CodeGenerator.
Variable liveness : option SsaLivenessAnalysis.
Variable register_type : RegisterType.
Variable visits : list Visit.

Let number_of_registers := registers_of codegen register_type.
Let mask_of := validator_mask dbg codegen liveness register_type.
Let ValidateIntervals :=
  ValidateIntervals dbg kVRegSize fuel h intervals number_of_spill_slots
    number_of_out_slots codegen liveness register_type.
Let wf_visit :=
  wf_visit kVRegSize mask_of number_of_registers number_of_spill_slots
    number_of_out_slots.
Let uses := uses kVRegSize mask_of number_of_registers number_of_out_slots.
Let uses_slot := uses_slot kVRegSize number_of_registers number_of_out_slots.

Hypothesis registers_fit : number_of_registers <= 32.
Hypothesis visits_of_intervals : all_visits fuel h intervals = Ok visits.
Hypothesis visits_wf : Forall wf_visit visits.

Lemma visits_fit :
  Forall (fun v => wf_visit v /\ end_ (range_ v) <= max_end_of visits) visits.
Proof.
  rewrite Forall_forall in *. intros v Hin. split; [auto|].
  now apply max_end_of_ge.
Qed.

(** Every visit compatible with the earlier ones: success, in both
    modes. *)
Lemma ValidateIntervals_compatible (fatal : bool) :
  ForallOrdPairs (compatible_visits kVRegSize mask_of number_of_registers
                    number_of_out_slots) visits ->
  Forall (passes_allocated_check dbg codegen mask_of register_type fatal)
         visits ->
  ValidateIntervals fatal = Ok true.
Proof.
  intros Hpairs Hcheck.
  unfold ValidateIntervals.
  rewrite (ValidateIntervals_run dbg kVRegSize fuel h intervals
             number_of_spill_slots number_of_out_slots codegen liveness
             register_type fatal visits registers_fit visits_of_intervals).
  destruct (run_accept dbg kVRegSize h codegen mask_of intervals
              number_of_registers number_of_spill_slots number_of_out_slots
              register_type fatal (max_end_of visits) visits []
              (replicate (number_of_registers + number_of_spill_slots)
                         (replicate (max_end_of visits) false)))
    as (t' & Hrun).
  - apply shaped_replicate.
  - intros loc j Hbit. now rewrite bit_replicate in Hbit.
  - apply visits_fit.
  - exact Hcheck.
  - intros v1 Hin. inversion Hin.
  - exact Hpairs.
  - fold mask_of number_of_registers. now rewrite Hrun.
Qed.

(** A later visit that holds a location of an earlier one over a common
    position, without exemption: failure in non-fatal mode. *)
Lemma ValidateIntervals_conflict (i j : nat) (v1 v2 : Visit) (loc : nat) :
  i < j -> visits !! i = Some v1 -> visits !! j = Some v2 ->
  uses v1 loc ->
  overlap (range_ v1) (range_ v2) ->
  uses_slot v2 loc \/ (uses_register mask_of v2 loc /\ exempt v2 = false) ->
  ValidateIntervals false = Ok false.
Proof.
  intros Hij Hv1 Hv2 Hu1 Hoverlap Hu2.
  destruct (split_at_later visits i j v1 v2 Hij Hv1 Hv2)
    as (before & after & Hsplit & Hin).
  unfold ValidateIntervals.
  rewrite (ValidateIntervals_run dbg kVRegSize fuel h intervals
             number_of_spill_slots number_of_out_slots codegen liveness
             register_type false visits registers_fit visits_of_intervals).
  fold mask_of number_of_registers.
  assert (Hfit : Forall (fun v => wf_visit v /\
                                  end_ (range_ v) <= max_end_of visits)
                        (before ++ [v2])).
  { pose proof visits_fit as Hall. rewrite Forall_forall in *.
    intros v Hv. apply Hall. rewrite Hsplit.
    rewrite elem_of_app in *. rewrite elem_of_cons.
    destruct Hv as [?|Hv]; [auto|].
    apply list_elem_of_singleton in Hv. auto. }
  set (len := max_end_of visits) in *.
  rewrite Hsplit.
  rewrite (run_reject dbg kVRegSize h codegen mask_of intervals
             number_of_registers number_of_spill_slots number_of_out_slots
             register_type false len before after v1 v2 loc);
    auto using shaped_replicate.
Qed.

End Validation.

(** C1. On an interval set whose visits name existing locations:
    (a) when no two visits hold a location over a common position,
    [ValidateIntervals] returns success, in both modes;
    (b) when a later visit holds a register of an earlier visit over a
    common position and its interval is not both "using" and "able to use"
    an input register, [ValidateIntervals] returns false in non-fatal mode;
    (c) overlaps on a register where the later interval has that exemption
    are accepted: when these are the only overlaps, [ValidateIntervals]
    returns success. *)
Theorem ValidateIntervals_disjoint_overlapping_exempt
    (dbg : bool) (kVRegSize : Z) (fuel : nat) (h : list LiveInterval)
    (intervals : list nat) (number_of_spill_slots number_of_out_slots : nat)
    (codegen : CodeGenerator) (liveness : option SsaLivenessAnalysis)
    (register_type : RegisterType) (visits : list Visit) :
  let number_of_registers := registers_of codegen register_type in
  let mask_of := validator_mask dbg codegen liveness register_type in
  let validate :=
    ValidateIntervals dbg kVRegSize fuel h intervals number_of_spill_slots
      number_of_out_slots codegen liveness register_type in
  number_of_registers <= 32 ->
  all_visits fuel h intervals = Ok visits ->
  Forall (wf_visit kVRegSize mask_of number_of_registers number_of_spill_slots
            number_of_out_slots) visits ->
  (forall fatal : bool,
     ForallOrdPairs (disjoint_visits kVRegSize mask_of number_of_registers
                       number_of_out_slots) visits ->
     Forall (passes_allocated_check dbg codegen mask_of register_type fatal)
            visits ->
     validate fatal = Ok true) /\
  (forall (i j : nat) (v1 v2 : Visit) (reg : nat),
     i < j -> visits !! i = Some v1 -> visits !! j = Some v2 ->
     uses_register mask_of v1 reg -> uses_register mask_of v2 reg ->
     overlap (range_ v1) (range_ v2) ->
     exempt v2 = false ->
     validate false = Ok false) /\
  (forall fatal : bool,
     ForallOrdPairs (compatible_visits kVRegSize mask_of number_of_registers
                       number_of_out_slots) visits ->
     Forall (passes_allocated_check dbg codegen mask_of register_type fatal)
            visits ->
     validate fatal = Ok true).
Proof.
  intros number_of_registers mask_of validate Hn Hvisits Hwf.
  split; [|split].
  - intros fatal Hdisjoint Hcheck.
    apply (ValidateIntervals_compatible dbg kVRegSize fuel h intervals
             number_of_spill_slots number_of_out_slots codegen liveness
             register_type visits Hn Hvisits Hwf fatal); [|assumption].
    eapply ForallOrdPairs_impl; [|exact Hdisjoint].
    apply disjoint_compatible.
  - intros i j v1 v2 reg Hij Hv1 Hv2 Hu1 Hu2 Hoverlap Hexempt.
    apply (ValidateIntervals_conflict dbg kVRegSize fuel h intervals
             number_of_spill_slots number_of_out_slots codegen liveness
             register_type visits Hn Hvisits Hwf i j v1 v2 reg);
      try assumption.
    + now right.
    + now right.
  - intros fatal Hcompatible Hcheck.
    now apply (ValidateIntervals_compatible dbg kVRegSize fuel h intervals
                 number_of_spill_slots number_of_out_slots codegen liveness
                 register_type visits Hn Hvisits Hwf fatal).
Qed.

(** Facts about the visits of the scenarios. *)
Lemma scenario_wf (first last : nat) (self : nat) (same_as_input : bool)
    (dbg : bool) :
  let i := scenario_interval first last (Some 1%Z) None self scenario_call
             same_as_input in
  wf_visit 4 (validator_mask dbg scenario_codegen None kCoreRegister) 4 1 0
           (mkVisit (mkLiveRange first last) i i).
Proof.
  intros i. split.
  - exists 2%Z. split.
    + destruct dbg; reflexivity.
    + intros r Hin. apply LowToHighBits_spec in Hin as [Hbit _].
      change 2%Z with (2 ^ 1)%Z in Hbit.
      rewrite Z.pow2_bits_eqb in Hbit by lia.
      apply Z.eqb_eq in Hbit. lia.
  - intros idx Hidx. discriminate.
Qed.

Lemma scenario_uses_register (first last : nat) (self : nat)
    (same_as_input : bool) (dbg : bool) :
  let i := scenario_interval first last (Some 1%Z) None self scenario_call
             same_as_input in
  uses_register (validator_mask dbg scenario_codegen None kCoreRegister)
                (mkVisit (mkLiveRange first last) i i) 1.
Proof.
  intros i. exists 2%Z. split.
  - destruct dbg; reflexivity.
  - apply LowToHighBits_spec. split; [reflexivity|lia].
Qed.

(** The theorem at the two intervals in register 1 over [[4, 8)] and
    [[6, 10)], the second not exempt. *)
Lemma ValidateIntervals_disjoint_overlapping_exempt_witness :
  scenario_validate true (arena_register_overlap false) false = Ok false.
Proof.
  refine (proj1 (proj2 (ValidateIntervals_disjoint_overlapping_exempt
            true 4 10 (arena_register_overlap false) [0; 1] 1 0
            scenario_codegen None kCoreRegister
            [mkVisit (mkLiveRange 4 8)
               (scenario_interval 4 8 (Some 1%Z) None 0 scenario_call false)
               (scenario_interval 4 8 (Some 1%Z) None 0 scenario_call false);
             mkVisit (mkLiveRange 6 10)
               (scenario_interval 6 10 (Some 1%Z) None 1 scenario_call false)
               (scenario_interval 6 10 (Some 1%Z) None 1 scenario_call false)]
            _ _ _))
          0 1 _ _ 1 _ _ _ _ _ _ _).
  - simpl. lia.
  - reflexivity.
  - constructor; [apply scenario_wf|].
    constructor; [apply scenario_wf|constructor].
  - lia.
  - reflexivity.
  - reflexivity.
  - apply scenario_uses_register.
  - apply scenario_uses_register.
  - exists 6. unfold covers. simpl. lia.
  - reflexivity.
Defined.

(** ** Spill-slot conflicts *)

Lemma ForallOrdPairs_impl_in {A : Type} (R1 R2 : A -> A -> Prop)
    (l : list A) :
  (forall x y, x ∈ l -> y ∈ l -> R1 x y -> R2 x y) ->
  ForallOrdPairs R1 l -> ForallOrdPairs R2 l.
Proof.
  intros Himpl Hall. induction Hall as [|x l Hx _ IH]; constructor.
  - rewrite Forall_forall in *. intros y Hy.
    apply Himpl; [apply list_elem_of_here|now apply list_elem_of_further|].
    now apply Hx.
  - apply IH. intros y z Hy Hz.
    apply Himpl; now apply list_elem_of_further.
Qed.

Lemma has_own_stack_slot_no_slot (kVRegSize : Z)
    (number_of_registers number_of_out_slots : nat) (v : Visit) (loc : nat) :
  has_own_stack_slot (defined_by_ (parent_of_current_ v)) = true ->
  ~ uses_slot kVRegSize number_of_registers number_of_out_slots v loc.
Proof.
  intros Hown. unfold uses_slot, slot_timeline. rewrite Hown.
  destruct (spill_slot_ (parent_of_current_ v)); discriminate.
Qed.

Lemma slot_exempt_compatible (kVRegSize : Z)
    (mask_of : LiveInterval -> result Z)
    (number_of_registers number_of_spill_slots number_of_out_slots : nat)
    (v1 v2 : Visit) :
  wf_visit kVRegSize mask_of number_of_registers number_of_spill_slots
    number_of_out_slots v1 ->
  wf_visit kVRegSize mask_of number_of_registers number_of_spill_slots
    number_of_out_slots v2 ->
  slot_exempt_visits kVRegSize mask_of number_of_registers number_of_out_slots
    v1 v2 ->
  compatible_visits kVRegSize mask_of number_of_registers number_of_out_slots
    v1 v2.
Proof.
  intros Hwf1 Hwf2 [Hregs Hslots] loc Hu1 Hu2 Hoverlap.
  assert (Hlow : forall v,
            wf_visit kVRegSize mask_of number_of_registers
              number_of_spill_slots number_of_out_slots v ->
            uses_register mask_of v loc -> loc < number_of_registers).
  { intros v [(mask & Hmask & Hfile) _] (mask' & Hmask' & Hin).
    apply Hfile. congruence. }
  assert (Hhigh : forall v,
            wf_visit kVRegSize mask_of number_of_registers
              number_of_spill_slots number_of_out_slots v ->
            uses_slot kVRegSize number_of_registers number_of_out_slots v loc ->
            number_of_registers <= loc).
  { intros v [_ Hslot] Hu. specialize (Hslot _ Hu). lia. }
  destruct Hu1 as [Hs1|Hr1], Hu2 as [Hs2|Hr2].
  - exfalso. destruct Hslots as [Hown|[Hown|Hdisjoint]].
    + now apply (has_own_stack_slot_no_slot _ _ _ _ _ Hown) in Hs1.
    + now apply (has_own_stack_slot_no_slot _ _ _ _ _ Hown) in Hs2.
    + now apply (Hdisjoint loc).
  - exfalso. specialize (Hhigh v1 Hwf1 Hs1). specialize (Hlow v2 Hwf2 Hr2). lia.
  - exfalso. specialize (Hhigh v2 Hwf2 Hs2). specialize (Hlow v1 Hwf1 Hr1). lia.
  - split; [assumption|]. now apply (Hregs loc).
Qed.

(** In fatal mode, two visits on the same spill slot over a common
    position stop the validator at the first position they share. *)
Lemma ValidateIntervals_two_slots_fatal (dbg : bool) (kVRegSize : Z)
    (fuel : nat) (h : list LiveInterval) (intervals : list nat)
    (number_of_spill_slots number_of_out_slots : nat)
    (codegen : CodeGenerator) (liveness : option SsaLivenessAnalysis)
    (register_type : RegisterType) (v1 v2 : Visit) (loc : nat) :
  let number_of_registers := registers_of codegen register_type in
  let mask_of := validator_mask dbg codegen liveness register_type in
  number_of_registers <= 32 ->
  all_visits fuel h intervals = Ok [v1; v2] ->
  Forall (wf_visit kVRegSize mask_of number_of_registers number_of_spill_slots
            number_of_out_slots) [v1; v2] ->
  uses_slot kVRegSize number_of_registers number_of_out_slots v1 loc ->
  uses_slot kVRegSize number_of_registers number_of_out_slots v2 loc ->
  overlap (range_ v1) (range_ v2) ->
  passes_allocated_check dbg codegen mask_of register_type true v1 ->
  ValidateIntervals dbg kVRegSize fuel h intervals number_of_spill_slots
    number_of_out_slots codegen liveness register_type true =
  Halt (SpillSlotConflict
          (Nat.max (start_ (range_ v1)) (start_ (range_ v2)))).
Proof.
  intros number_of_registers mask_of Hn Hvisits Hwf Hu1 Hu2 Hoverlap Hcheck.
  rewrite (ValidateIntervals_run dbg kVRegSize fuel h intervals
             number_of_spill_slots number_of_out_slots codegen liveness
             register_type true [v1; v2] Hn Hvisits).
  fold number_of_registers mask_of.
  set (len := max_end_of [v1; v2]).
  set (count := number_of_registers + number_of_spill_slots).
  assert (Hfit1 : end_ (range_ v1) <= len)
    by (apply max_end_of_ge, list_elem_of_here).
  assert (Hfit2 : end_ (range_ v2) <= len)
    by (apply max_end_of_ge, list_elem_of_further, list_elem_of_here).
  apply Forall_cons in Hwf as [Hwf1 Hwf2].
  apply Forall_cons in Hwf2 as [Hwf2 _].
  destruct Hwf1 as [(mask & Hmask & Hfile) Hslot] eqn:Hwf1'. clear Hwf1'.
  pose proof (shaped_replicate count len) as Hshaped.
  simpl.
  rewrite (validate_visit_accept dbg kVRegSize h codegen mask_of intervals
             number_of_registers number_of_spill_slots number_of_out_slots
             register_type true len v1 Hfit1 _ mask Hshaped Hwf1 Hmask).
  - simpl.
    pose proof (visit_locs_exist kVRegSize mask_of number_of_registers
                  number_of_spill_slots number_of_out_slots v1 mask Hwf1 Hmask)
      as Hlocs.
    rewrite (validate_visit_fatal_slot dbg kVRegSize h codegen mask_of
               intervals number_of_registers number_of_spill_slots
               number_of_out_slots register_type true len v2 Hfit2 _ loc
               (Nat.max (start_ (range_ v1)) (start_ (range_ v2))));
      try reflexivity; try assumption.
    + now apply shaped_mark_all.
    + destruct Hoverlap as (j & Hj1 & Hj2). unfold covers in *.
      split; [unfold covers; lia|]. split.
      * apply (bit_mark_all count len (range_ v1) Hfit1); try assumption.
        right. split; [|unfold covers; lia].
        apply (visit_locs_uses kVRegSize mask_of number_of_registers
                 number_of_spill_slots number_of_out_slots v1 mask loc Hwf1
                 Hmask).
        now left.
      * intros j' Hj'.
        destruct (bit _ loc j') eqn:Hbit; [exfalso|reflexivity].
        apply (bit_mark_all count len (range_ v1) Hfit1) in Hbit;
          try assumption.
        destruct Hbit as [Hbit|[_ Hcov]].
        -- now rewrite bit_replicate in Hbit.
        -- unfold covers in Hcov. lia.
  - intros reg Hin. now apply (Hcheck mask).
  - intros loc' j _ _. apply bit_replicate.
  - right. intros reg j _ _. apply bit_replicate.
Qed.

Lemma same_slot_uses (kVRegSize : Z) (mask_of : LiveInterval -> result Z)
    (number_of_registers number_of_spill_slots number_of_out_slots : nat)
    (v : Visit) (slot : Z) :
  wf_visit kVRegSize mask_of number_of_registers number_of_spill_slots
    number_of_out_slots v ->
  spill_slot_ (parent_of_current_ v) = Some slot ->
  has_own_stack_slot (defined_by_ (parent_of_current_ v)) = false ->
  uses_slot kVRegSize number_of_registers number_of_out_slots v
    (Z.to_nat (spill_slot_index kVRegSize number_of_registers
                 number_of_out_slots slot)).
Proof.
  intros [_ Hwf] Hslot Hown. unfold uses_slot.
  assert (Hidx : slot_timeline kVRegSize number_of_registers
                   number_of_out_slots v =
                 Some (spill_slot_index kVRegSize number_of_registers
                         number_of_out_slots slot)).
  { unfold slot_timeline. now rewrite Hslot, Hown. }
  rewrite Hidx. f_equal. specialize (Hwf _ Hidx). lia.
Qed.

(** C8. On an interval set whose visits name existing locations: when the
    parents of two visits have the same spill slot, neither parent is
    defined by a parameter or by the current method, and the two ranges
    overlap, [ValidateIntervals] returns false in non-fatal mode; when
    these are the only two visits, fatal mode stops with a spill-slot
    conflict at the first position the ranges share; and a spill slot
    shared over a common position is accepted when one of the two parents
    is defined by a parameter or by the current method.  In the scenario
    with ranges [[4, 8)] and [[6, 10)] on slot 0, the validator returns
    false in non-fatal mode, reports the conflict at position 6 in fatal
    mode, and succeeds when the slot belongs to a parameter. *)
Theorem ValidateIntervals_spill_slot_conflict :
  (forall (dbg : bool) (kVRegSize : Z) (fuel : nat) (h : list LiveInterval)
          (intervals : list nat)
          (number_of_spill_slots number_of_out_slots : nat)
          (codegen : CodeGenerator) (liveness : option SsaLivenessAnalysis)
          (register_type : RegisterType) (visits : list Visit),
     let number_of_registers := registers_of codegen register_type in
     let mask_of := validator_mask dbg codegen liveness register_type in
     let validate :=
       ValidateIntervals dbg kVRegSize fuel h intervals number_of_spill_slots
         number_of_out_slots codegen liveness register_type in
     number_of_registers <= 32 ->
     all_visits fuel h intervals = Ok visits ->
     Forall (wf_visit kVRegSize mask_of number_of_registers
               number_of_spill_slots number_of_out_slots) visits ->
     (forall (i j : nat) (v1 v2 : Visit) (slot : Z),
        i < j -> visits !! i = Some v1 -> visits !! j = Some v2 ->
        spill_slot_ (parent_of_current_ v1) = Some slot ->
        spill_slot_ (parent_of_current_ v2) = Some slot ->
        has_own_stack_slot (defined_by_ (parent_of_current_ v1)) = false ->
        has_own_stack_slot (defined_by_ (parent_of_current_ v2)) = false ->
        overlap (range_ v1) (range_ v2) ->
        validate false = Ok false) /\
     (forall (v1 v2 : Visit) (slot : Z),
        visits = [v1; v2] ->
        spill_slot_ (parent_of_current_ v1) = Some slot ->
        spill_slot_ (parent_of_current_ v2) = Some slot ->
        has_own_stack_slot (defined_by_ (parent_of_current_ v1)) = false ->
        has_own_stack_slot (defined_by_ (parent_of_current_ v2)) = false ->
        overlap (range_ v1) (range_ v2) ->
        passes_allocated_check dbg codegen mask_of register_type true v1 ->
        validate true =
        Halt (SpillSlotConflict
                (Nat.max (start_ (range_ v1)) (start_ (range_ v2))))) /\
     (forall fatal : bool,
        ForallOrdPairs (slot_exempt_visits kVRegSize mask_of
                          number_of_registers number_of_out_slots) visits ->
        Forall (passes_allocated_check dbg codegen mask_of register_type fatal)
               visits ->
        validate fatal = Ok true)) /\
  (forall dbg : bool,
     scenario_validate dbg (arena_slot_overlap scenario_call) false =
     Ok false) /\
  (forall dbg : bool,
     scenario_validate dbg (arena_slot_overlap scenario_call) true =
     Halt (SpillSlotConflict 6)) /\
  (forall dbg fatal : bool,
     scenario_validate dbg (arena_slot_overlap scenario_parameter) fatal =
     Ok true).
Proof.
  split; [|split; [|split]];
    [|intros []; reflexivity|intros []; reflexivity
     |intros [] []; reflexivity].
  intros dbg kVRegSize fuel h intervals number_of_spill_slots
    number_of_out_slots codegen liveness register_type visits
    number_of_registers mask_of validate Hn Hvisits Hwf.
  split; [|split].
  - intros i j v1 v2 slot Hij Hv1 Hv2 Hs1 Hs2 Hown1 Hown2 Hoverlap.
    assert (Hwf1 : wf_visit kVRegSize mask_of number_of_registers
                     number_of_spill_slots number_of_out_slots v1).
    { rewrite Forall_forall in Hwf. apply Hwf, list_elem_of_lookup. eauto. }
    assert (Hwf2 : wf_visit kVRegSize mask_of number_of_registers
                     number_of_spill_slots number_of_out_slots v2).
    { rewrite Forall_forall in Hwf. apply Hwf, list_elem_of_lookup. eauto. }
    apply (ValidateIntervals_conflict dbg kVRegSize fuel h intervals
             number_of_spill_slots number_of_out_slots codegen liveness
             register_type visits Hn Hvisits Hwf i j v1 v2
             (Z.to_nat (spill_slot_index kVRegSize number_of_registers
                          number_of_out_slots slot)));
      try assumption.
    + left. now apply (same_slot_uses _ _ _ _ _ _ _ Hwf1).
    + left. now apply (same_slot_uses _ _ _ _ _ _ _ Hwf2).
  - intros v1 v2 slot -> Hs1 Hs2 Hown1 Hown2 Hoverlap Hcheck.
    pose proof Hwf as Hwf'.
    apply Forall_cons in Hwf' as [Hwf1 Hwf2].
    apply Forall_cons in Hwf2 as [Hwf2 _].
    apply (ValidateIntervals_two_slots_fatal dbg kVRegSize fuel h intervals
             number_of_spill_slots number_of_out_slots codegen liveness
             register_type v1 v2
             (Z.to_nat (spill_slot_index kVRegSize number_of_registers
                          number_of_out_slots slot)));
      try assumption.
    + now apply (same_slot_uses _ _ _ _ _ _ _ Hwf1).
    + now apply (same_slot_uses _ _ _ _ _ _ _ Hwf2).
  - intros fatal Hexempt Hcheck.
    apply (ValidateIntervals_compatible dbg kVRegSize fuel h intervals
             number_of_spill_slots number_of_out_slots codegen liveness
             register_type visits Hn Hvisits Hwf fatal); [|assumption].
    eapply ForallOrdPairs_impl_in; [|exact Hexempt].
    intros v1 v2 Hin1 Hin2. rewrite Forall_forall in Hwf.
    apply (slot_exempt_compatible _ _ _ number_of_spill_slots); auto.
Qed.

Lemma scenario_slot_wf (first last : nat) (self : nat) (dbg : bool) :
  let i := scenario_interval first last None (Some 0%Z) self scenario_call
             false in
  wf_visit 4 (validator_mask dbg scenario_codegen None kCoreRegister) 4 1 0
           (mkVisit (mkLiveRange first last) i i).
Proof.
  intros i. split.
  - exists 0%Z. split.
    + destruct dbg; reflexivity.
    + intros r Hin. apply LowToHighBits_spec in Hin as [Hbit _].
      now rewrite Z.bits_0 in Hbit.
  - intros idx Hidx. injection Hidx as <-. vm_compute. intuition discriminate.
Qed.

(** The general part of the theorem at the scenario of the spec. *)
Lemma ValidateIntervals_spill_slot_conflict_witness :
  scenario_validate true (arena_slot_overlap scenario_call) false = Ok false.
Proof.
  refine (proj1 (proj1 ValidateIntervals_spill_slot_conflict
            true 4%Z 10 (arena_slot_overlap scenario_call) [0; 1] 1 0
            scenario_codegen None kCoreRegister
            [mkVisit (mkLiveRange 4 8)
               (scenario_interval 4 8 None (Some 0%Z) 0 scenario_call false)
               (scenario_interval 4 8 None (Some 0%Z) 0 scenario_call false);
             mkVisit (mkLiveRange 6 10)
               (scenario_interval 6 10 None (Some 0%Z) 1 scenario_call false)
               (scenario_interval 6 10 None (Some 0%Z) 1 scenario_call false)]
            _ _ _)
          0 1 _ _ 0%Z _ _ _ _ _ _ _ _).
  - simpl. lia.
  - reflexivity.
  - constructor; [apply scenario_slot_wf|].
    constructor; [apply scenario_slot_wf|constructor].
  - lia.
  - reflexivity.
  - reflexivity.
  - reflexivity.
  - reflexivity.
  - reflexivity.
  - reflexivity.
  - exists 6. unfold covers. simpl. lia.
Defined.

(** ** The traversal of finite sibling chains ends *)

Lemma map_result_defined {A B : Type} (f : A -> result B) (l : list A) :
  Forall (fun x => exists y, f x = Ok y) l ->
  exists l', map_result f l = Ok l' /\ length l' = length l.
Proof.
  induction 1 as [|x l (y & Hy) _ (l' & Hl' & Hlen)]; simpl.
  - exists []. auto.
  - rewrite Hy, Hl'. simpl. exists (y :: l'). simpl. auto.
Qed.

(** The iterator inside interval [p], with the ranges [cur] left: it
    visits them, and then goes on as from the state that [Advance] reaches
    after the last of them. *)
Lemma visited_ranges (h : list LiveInterval) (p : nat) (i : LiveInterval)
    (next : AllRangesIterator) (rest : list AllRangesIterator) (m : nat) :
  h !! p = Some i ->
  is_Some (h !! parent_ i) ->
  (forall last_range,
     Advance h (mkAllRangesIterator (Some p) [last_range]) = Ok next) ->
  (forall fuel, m < fuel -> visited fuel h next = Ok rest) ->
  Forall (fun it => exists v, resolve h it = Ok v) rest ->
  forall cur : list LiveRange,
    cur <> [] ->
    exists its,
      (forall fuel, length cur + m < fuel ->
         visited fuel h (mkAllRangesIterator (Some p) cur) = Ok its) /\
      Forall (fun it => exists v, resolve h it = Ok v) its /\
      length its = length cur + length rest.
Proof.
  intros Hp [parent Hparent] Hnext Hrest Hresolved.
  assert (Hresolve : forall r cur,
            exists v, resolve h (mkAllRangesIterator (Some p) (r :: cur)) = Ok v).
  { intros r cur. unfold resolve, CurrentInterval, deref. simpl.
    rewrite Hp. simpl. rewrite Hparent. simpl. eauto. }
  induction cur as [|r cur IH]; intros Hcur; [contradiction|].
  destruct cur as [|r' cur].
  - exists (mkAllRangesIterator (Some p) [r] :: rest). split; [|split].
    + intros fuel Hfuel. destruct fuel as [|fuel]; [simpl in Hfuel; lia|].
      simpl visited. rewrite Hnext. simpl.
      rewrite Hrest by (simpl in Hfuel; lia). reflexivity.
    + constructor; [apply Hresolve|assumption].
    + reflexivity.
  - destruct IH as (its & Hits & Hall & Hlen); [discriminate|].
    exists (mkAllRangesIterator (Some p) (r :: r' :: cur) :: its).
    split; [|split].
    + intros fuel Hfuel. destruct fuel as [|fuel]; [simpl in Hfuel; lia|].
      simpl. rewrite Hits by (simpl in Hfuel |- *; lia). reflexivity.
    + constructor; [apply Hresolve|assumption].
    + simpl in *. lia.
Qed.

(** With more fuel than the chain has ranges, the traversal of a finite
    chain visits each of its ranges. *)
Lemma chain_visited (h : list LiveInterval) (p n : nat) :
  chain h p n ->
  exists i its,
    h !! p = Some i /\
    (forall fuel, n < fuel ->
       visited fuel h (mkAllRangesIterator (Some p) (first_range_ i)) = Ok its) /\
    Forall (fun it => exists v, resolve h it = Ok v) its /\
    length its = n.
Proof.
  induction 1 as [p i Hp Hranges Hparent Hsibling
                 |p i q n Hp Hranges Hparent Hsibling _
                    (iq & its_q & Hq & Hvisited_q & Hall_q & Hlen_q)].
  - destruct (visited_ranges h p i (mkAllRangesIterator None []) [] 0 Hp Hparent)
      with (cur := first_range_ i) as (its & Hits & Hall & Hlen);
      try assumption.
    + intros r. unfold Advance, CurrentInterval, deref. simpl.
      rewrite Hp. simpl. now rewrite Hsibling.
    + intros fuel Hfuel. destruct fuel; [lia|reflexivity].
    + constructor.
    + exists i, its. split; [assumption|]. split; [|split].
      * intros fuel Hfuel. apply Hits. lia.
      * assumption.
      * simpl in Hlen. lia.
  - destruct (visited_ranges h p i
                (mkAllRangesIterator (Some q) (first_range_ iq)) its_q n
                Hp Hparent)
      with (cur := first_range_ i) as (its & Hits & Hall & Hlen);
      try assumption.
    + intros r. unfold Advance, CurrentInterval, deref. simpl.
      rewrite Hp. simpl. rewrite Hsibling, Hq. reflexivity.
    + exists i, its. split; [assumption|]. split; [|split].
      * assumption.
      * assumption.
      * lia.
Qed.

Lemma chain_visits (h : list LiveInterval) (p n : nat) :
  chain h p n ->
  exists visits,
    length visits = n /\
    forall fuel, n < fuel -> visits_of fuel h p = Ok visits.
Proof.
  intros Hchain.
  destruct (chain_visited h p n Hchain) as (i & its & Hp & Hits & Hall & Hlen).
  destruct (map_result_defined (resolve h) its Hall) as (visits & Hvisits & Hl).
  exists visits. split; [lia|]. intros fuel Hfuel.
  unfold visits_of, AllRangesIterator_new, deref. rewrite Hp. simpl.
  rewrite Hits by assumption. simpl. exact Hvisits.
Qed.

(** An array of finite sibling chains is traversed with any fuel above
    the number of ranges of its longest chain. *)
Theorem all_visits_defined (h : list LiveInterval) (intervals : list nat) :
  Forall (fun p => exists n, chain h p n) intervals ->
  exists fuel0 visits,
    forall fuel, fuel0 <= fuel -> all_visits fuel h intervals = Ok visits.
Proof.
  induction 1 as [|p intervals (n & Hchain) _ (fuel0 & visits & Hvisits)].
  - exists 0, []. reflexivity.
  - destruct (chain_visits h p n Hchain) as (chain_visits & _ & Hp).
    exists (Nat.max (S n) fuel0), (chain_visits ++ visits).
    intros fuel Hfuel. unfold all_visits. simpl.
    rewrite Hp by lia. simpl.
    specialize (Hvisits fuel ltac:(lia)). unfold all_visits in Hvisits.
    destruct (map_result (visits_of fuel h) intervals) as [chains| |];
      simpl in *; congruence.
Qed.

(** ** What the iterator visits *)

Lemma Advance_inv (h : list LiveInterval) (it it' : AllRangesIterator) :
  iterator_inv h it -> Advance h it = Ok it' -> iterator_inv h it'.
Proof.
  unfold iterator_inv, Advance. intros Hinv Hadvance.
  destruct (current_range_ it) as [|r [|next rest]] eqn:Hrange;
    [discriminate| |].
  - apply bind_Ok in Hadvance as (i & Hi & Hadvance).
    destruct (next_sibling_ i) as [q|].
    + apply bind_Ok in Hadvance as (sibling & Hq & Hadvance).
      injection Hadvance as <-. simpl.
      exists sibling, []. split; [|reflexivity].
      unfold deref in Hq. destruct (h !! q); congruence.
    + injection Hadvance as <-. exact I.
  - injection Hadvance as <-. simpl.
    destruct (current_interval_ it) as [p|]; [|exact I].
    destruct Hinv as (i & before & Hp & Hfirst).
    exists i, (before ++ [r]). split; [assumption|].
    now rewrite <- app_assoc.
Qed.

Lemma visited_inv (fuel : nat) (h : list LiveInterval)
    (it : AllRangesIterator) (its : list AllRangesIterator) :
  iterator_inv h it -> visited fuel h it = Ok its ->
  Forall (iterator_inv h) its.
Proof.
  revert it its. induction fuel as [|fuel IH]; intros it its Hinv Hvisited;
    simpl in Hvisited; [discriminate|].
  destruct (Done it).
  - injection Hvisited as <-. constructor.
  - apply bind_Ok in Hvisited as (it' & Hadvance & Hvisited).
    apply bind_Ok in Hvisited as (rest & Hrest & Hvisited).
    injection Hvisited as <-. constructor; [assumption|].
    eapply IH; [|eassumption]. eapply Advance_inv; eassumption.
Qed.

Lemma resolve_inv (h : list LiveInterval) (it : AllRangesIterator)
    (v : Visit) :
  iterator_inv h it -> resolve h it = Ok v ->
  range_ v ∈ first_range_ (current_ v).
Proof.
  intros Hinv Hresolve.
  destruct (resolve_Ok h it v Hresolve) as (Hcurrent & _ & Hrange).
  unfold iterator_inv in Hinv. unfold CurrentInterval, deref in Hcurrent.
  unfold CurrentRange in Hrange.
  destruct (current_interval_ it) as [p|]; [|discriminate].
  destruct Hinv as (i & before & Hp & Hfirst). rewrite Hp in Hcurrent.
  injection Hcurrent as <-.
  destruct (current_range_ it) as [|r rest]; [discriminate|].
  injection Hrange as <-. rewrite Hfirst, elem_of_app. right.
  apply list_elem_of_here.
Qed.

(** The visits of a chain: each range is a range of its interval, and the
    first visit is that of the head of the chain. *)
Lemma visits_of_spec (fuel : nat) (h : list LiveInterval) (p : nat)
    (visits : list Visit) :
  visits_of fuel h p = Ok visits ->
  Forall (fun v => range_ v ∈ first_range_ (current_ v)) visits /\
  exists v, v ∈ visits /\ deref h p = Ok (current_ v).
Proof.
  unfold visits_of. intros Hvisits.
  apply bind_Ok in Hvisits as (it & Hit & Hvisits).
  apply bind_Ok in Hvisits as (its & Hits & Hvisits).
  unfold AllRangesIterator_new in Hit.
  apply bind_Ok in Hit as (i & Hi & Hit). injection Hit as <-.
  assert (Hinv : iterator_inv h (mkAllRangesIterator (Some p) (first_range_ i))).
  { exists i, []. split; [|reflexivity].
    unfold deref in Hi. destruct (h !! p); congruence. }
  pose proof (visited_inv fuel h _ its Hinv Hits) as Hall.
  apply map_result_Ok in Hvisits. split.
  - clear Hits. induction Hvisits as [|it v its visits Hv _ IH]; constructor.
    + apply Forall_cons in Hall as [Hit _]. eapply resolve_inv; eassumption.
    + apply IH. now apply Forall_cons in Hall as [_ ?].
  - destruct fuel as [|fuel]; [discriminate|]. simpl in Hits.
    apply bind_Ok in Hits as (it' & _ & Hits).
    apply bind_Ok in Hits as (rest & _ & Hits). injection Hits as <-.
    inversion Hvisits as [|? v ? visits' Hv _]; subst.
    exists v. split; [apply list_elem_of_here|].
    destruct (resolve_Ok h _ v Hv) as (Hcurrent & _ & _).
    exact Hcurrent.
Qed.

Lemma all_visits_spec (fuel : nat) (h : list LiveInterval)
    (intervals : list nat) (visits : list Visit) :
  all_visits fuel h intervals = Ok visits ->
  Forall (fun v => range_ v ∈ first_range_ (current_ v)) visits /\
  forall p, p ∈ intervals ->
    exists v, v ∈ visits /\ deref h p = Ok (current_ v).
Proof.
  unfold all_visits. intros Hvisits.
  apply bind_Ok in Hvisits as (chains & Hchains & Hvisits).
  injection Hvisits as <-. apply map_result_Ok in Hchains.
  induction Hchains as [|p chain intervals chains Hp _ IH]; simpl.
  - split; [constructor|]. intros p Hin. inversion Hin.
  - destruct (visits_of_spec fuel h p chain Hp) as [Hranges (v & Hv & Hhead)].
    destruct IH as [IHranges IHheads]. split.
    + apply Forall_app. auto.
    + intros q Hq. apply elem_of_cons in Hq as [->|Hq].
      * exists v. rewrite elem_of_app. auto.
      * destruct (IHheads q Hq) as (v' & Hv' & Hhead').
        exists v'. rewrite elem_of_app. auto.
Qed.

(** ** A null liveness analysis *)

Lemma get_register_mask_liveness (dbg : bool) (register_type : RegisterType)
    (number_of_registers : nat) (blocked : Z) (l : SsaLivenessAnalysis)
    (i : LiveInterval) :
  assigned_or_not_fixed i ->
  get_register_mask dbg register_type number_of_registers blocked None i =
  get_register_mask dbg register_type number_of_registers blocked (Some l) i.
Proof.
  unfold assigned_or_not_fixed, HasRegister, get_register_mask.
  intros [Hreg|Hfixed].
  - destruct (register_ i); [reflexivity|discriminate].
  - rewrite Hfixed. reflexivity.
Qed.

Lemma get_register_mask_null (dbg : bool) (register_type : RegisterType)
    (number_of_registers : nat) (blocked : Z) (i : LiveInterval) :
  register_ i = None -> is_fixed_ i = true ->
  (dbg = true -> type_ i = kVoid) ->
  first_range_ i <> [] ->
  get_register_mask dbg register_type number_of_registers blocked None i =
  Halt CheckFailed.
Proof.
  intros Hreg Hfixed Htype Hranges. unfold get_register_mask.
  rewrite Hreg, Hfixed.
  rewrite DCHECK_when by (intros ->; now rewrite Htype).
  rewrite DCHECK_when.
  2:{ intros _. apply negb_true_iff, bool_decide_eq_false. assumption. }
  simpl. unfold GetStart. destruct (first_range_ i); [contradiction|reflexivity].
Qed.

(** With every visited interval assigned or not fixed, the validator does
    the same with and without a liveness analysis. *)
Lemma ValidateIntervals_liveness_free (dbg : bool) (kVRegSize : Z)
    (fuel : nat) (h : list LiveInterval) (intervals : list nat)
    (number_of_spill_slots number_of_out_slots : nat)
    (codegen : CodeGenerator) (register_type : RegisterType) (fatal : bool)
    (visits : list Visit) (l : SsaLivenessAnalysis) :
  all_visits fuel h intervals = Ok visits ->
  Forall (fun v => assigned_or_not_fixed (current_ v)) visits ->
  ValidateIntervals dbg kVRegSize fuel h intervals number_of_spill_slots
    number_of_out_slots codegen None register_type fatal =
  ValidateIntervals dbg kVRegSize fuel h intervals number_of_spill_slots
    number_of_out_slots codegen (Some l) register_type fatal.
Proof.
  intros Hvisits Hall.
  destruct (GetBlockedRegistersForCall dbg (registers_of codegen register_type)
              (callee_save_of codegen register_type))
    as [blocked| |] eqn:Hblocked.
  - rewrite !(ValidateIntervals_visits dbg kVRegSize fuel h intervals
                number_of_spill_slots number_of_out_slots codegen _
                register_type fatal visits blocked Hvisits Hblocked).
    f_equal. f_equal. apply for_each_ext_in. intros v t Hv.
    rewrite Forall_forall in Hall.
    apply validate_visit_ext.
    + intros p i Hp Hi.
      destruct (all_visits_spec fuel h intervals visits Hvisits) as [_ Hheads].
      destruct (Hheads p Hp) as (v' & Hv' & Hhead).
      assert (i = current_ v') as -> by congruence.
      apply get_register_mask_liveness. auto.
    + apply get_register_mask_liveness. auto.
  - unfold ValidateIntervals, GetBlockedCoreRegistersForCall,
      GetBlockedFpRegistersForCall.
    destruct register_type; simpl in Hblocked; rewrite Hblocked; reflexivity.
  - unfold ValidateIntervals, GetBlockedCoreRegistersForCall,
      GetBlockedFpRegistersForCall.
    destruct register_type; simpl in Hblocked; rewrite Hblocked; reflexivity.
Qed.

Section NullLiveness.
Variable dbg : bool.
Variable kVRegSize : Z.
Variable fuel : nat.
Variable h : list LiveInterval.
Variable intervals : list nat.
Variables number_of_spill_slots number_of_out_slots : nat.
Variable codegen : CodeGenerator.
Variable register_type : RegisterType.
Variable fatal : bool.

Let number_of_registers := registers_of codegen register_type.
Let mask_of := validator_mask dbg codegen None register_type.
Let validate :=
  ValidateIntervals dbg kVRegSize fuel h intervals number_of_spill_slots
    number_of_out_slots codegen None register_type fatal.
Let wf_visit :=
  wf_visit kVRegSize mask_of number_of_registers number_of_spill_slots
    number_of_out_slots.

Hypothesis registers_fit : number_of_registers <= 32.

(** In non-fatal mode, on visits that name existing locations, the
    validator returns. *)
Lemma ValidateIntervals_null_returns (visits : list Visit) :
  all_visits fuel h intervals = Ok visits ->
  Forall wf_visit visits ->
  fatal = false ->
  exists b, validate = Ok b.
Proof.
  intros Hvisits Hwf Hfatal. unfold validate.
  rewrite (ValidateIntervals_run dbg kVRegSize fuel h intervals
             number_of_spill_slots number_of_out_slots codegen None
             register_type fatal visits registers_fit Hvisits).
  fold mask_of number_of_registers.
  destruct (run_nonfatal dbg kVRegSize h codegen mask_of intervals
              number_of_registers number_of_spill_slots number_of_out_slots
              register_type fatal (max_end_of visits) visits
              (replicate (number_of_registers + number_of_spill_slots)
                         (replicate (max_end_of visits) false)) Hfatal)
    as [->|(t' & -> & _)].
  - apply shaped_replicate.
  - now apply (visits_fit dbg kVRegSize number_of_spill_slots
                 number_of_out_slots codegen None register_type).
  - exists false. reflexivity.
  - exists true. reflexivity.
Qed.

Section FixedWithoutRegister.
Variables before after : list Visit.
Variable v : Visit.
Hypothesis visits_of_intervals :
  all_visits fuel h intervals = Ok (before ++ v :: after).
Hypothesis before_wf : Forall wf_visit before.
Hypothesis v_unassigned : register_ (current_ v) = None.
Hypothesis v_fixed : is_fixed_ (current_ v) = true.
Hypothesis v_void : dbg = true -> type_ (current_ v) = kVoid.
Hypothesis v_no_slot :
  slot_timeline kVRegSize number_of_registers number_of_out_slots v = None.

Lemma validate_visit_null (t : list (list bool)) :
  validate_visit dbg kVRegSize h codegen mask_of intervals number_of_registers
    number_of_out_slots register_type fatal v t = Halt CheckFailed.
Proof.
  unfold validate_visit. rewrite v_no_slot. simpl.
  unfold mask_of, validator_mask.
  destruct (GetBlockedRegistersForCall_spec dbg
              (registers_of codegen register_type)
              (callee_save_of codegen register_type) registers_fit)
    as (blocked & Hblocked & _).
  rewrite Hblocked. simpl. rewrite get_register_mask_null; try assumption; [reflexivity|].
  destruct (all_visits_spec fuel h intervals _ visits_of_intervals)
    as [Hranges _].
  rewrite Forall_forall in Hranges.
  specialize (Hranges v). intros Hempty. rewrite Hempty in Hranges.
  assert (Hin : v ∈ before ++ v :: after)
    by (rewrite elem_of_app, elem_of_cons; auto).
  specialize (Hranges Hin). inversion Hranges.
Qed.

Lemma before_fit :
  Forall (fun v' => wf_visit v' /\
                    end_ (range_ v') <= max_end_of (before ++ v :: after))
         before.
Proof.
  rewrite Forall_forall in *. intros v' Hin. split; [auto|].
  apply max_end_of_ge. rewrite elem_of_app. auto.
Qed.

(** The visits before the fixed interval are accepted: the CHECK fails. *)
Lemma ValidateIntervals_null_aborts :
  ForallOrdPairs (compatible_visits kVRegSize mask_of number_of_registers
                    number_of_out_slots) before ->
  Forall (passes_allocated_check dbg codegen mask_of register_type fatal)
         before ->
  validate = Halt CheckFailed.
Proof.
  intros Hpairs Hcheck. unfold validate.
  rewrite (ValidateIntervals_run dbg kVRegSize fuel h intervals
             number_of_spill_slots number_of_out_slots codegen None
             register_type fatal _ registers_fit visits_of_intervals).
  fold mask_of number_of_registers.
  set (len := max_end_of (before ++ v :: after)).
  rewrite for_each_app.
  destruct (run_accept dbg kVRegSize h codegen mask_of intervals
              number_of_registers number_of_spill_slots number_of_out_slots
              register_type fatal len before []
              (replicate (number_of_registers + number_of_spill_slots)
                         (replicate len false)))
    as (t' & ->); try assumption.
  - apply shaped_replicate.
  - intros loc j Hbit. now rewrite bit_replicate in Hbit.
  - apply before_fit.
  - intros v1 Hin. inversion Hin.
  - simpl. now rewrite validate_visit_null.
Qed.

(** In non-fatal mode the validator returns false, for a conflict before
    the fixed interval, or the CHECK fails. *)
Lemma ValidateIntervals_null_never_succeeds :
  fatal = false ->
  validate = Ok false \/ validate = Halt CheckFailed.
Proof.
  intros Hfatal. unfold validate.
  rewrite (ValidateIntervals_run dbg kVRegSize fuel h intervals
             number_of_spill_slots number_of_out_slots codegen None
             register_type fatal _ registers_fit visits_of_intervals).
  fold mask_of number_of_registers.
  set (len := max_end_of (before ++ v :: after)).
  rewrite for_each_app.
  destruct (run_nonfatal dbg kVRegSize h codegen mask_of intervals
              number_of_registers number_of_spill_slots number_of_out_slots
              register_type fatal len before
              (replicate (number_of_registers + number_of_spill_slots)
                         (replicate len false)) Hfatal)
    as [->|(t' & -> & _)].
  - apply shaped_replicate.
  - apply before_fit.
  - left. reflexivity.
  - right. simpl. now rewrite validate_visit_null.
Qed.

End FixedWithoutRegister.
End NullLiveness.

(** C10. [ValidateIntervals] with a null liveness analysis.  When every
    interval it visits has a register or is not fixed, it does exactly what
    it does with a liveness analysis, whichever that is, and in non-fatal
    mode on visits that name existing locations it returns.  When it
    visits a fixed interval without a register, the CHECK on the liveness
    pointer fails as soon as the validation reaches that interval: it
    fails when the visits before it are accepted, and in non-fatal mode
    the only other outcome is the failure returned for a conflict among
    those earlier visits. *)
Theorem ValidateIntervals_null_liveness
    (dbg : bool) (kVRegSize : Z) (fuel : nat) (h : list LiveInterval)
    (intervals : list nat) (number_of_spill_slots number_of_out_slots : nat)
    (codegen : CodeGenerator) (register_type : RegisterType) (fatal : bool) :
  let number_of_registers := registers_of codegen register_type in
  let mask_of := validator_mask dbg codegen None register_type in
  let validate liveness :=
    ValidateIntervals dbg kVRegSize fuel h intervals number_of_spill_slots
      number_of_out_slots codegen liveness register_type fatal in
  let wf :=
    wf_visit kVRegSize mask_of number_of_registers number_of_spill_slots
      number_of_out_slots in
  (forall visits : list Visit,
     all_visits fuel h intervals = Ok visits ->
     Forall (fun v => assigned_or_not_fixed (current_ v)) visits ->
     (forall l : SsaLivenessAnalysis, validate None = validate (Some l)) /\
     (number_of_registers <= 32 -> Forall wf visits -> fatal = false ->
      exists b : bool, validate None = Ok b)) /\
  (forall (before after : list Visit) (v : Visit),
     number_of_registers <= 32 ->
     all_visits fuel h intervals = Ok (before ++ v :: after) ->
     Forall wf before ->
     register_ (current_ v) = None ->
     is_fixed_ (current_ v) = true ->
     (dbg = true -> type_ (current_ v) = kVoid) ->
     slot_timeline kVRegSize number_of_registers number_of_out_slots v =
       None ->
     (ForallOrdPairs (compatible_visits kVRegSize mask_of number_of_registers
                        number_of_out_slots) before ->
      Forall (passes_allocated_check dbg codegen mask_of register_type fatal)
             before ->
      validate None = Halt CheckFailed) /\
     (fatal = false ->
      validate None = Ok false \/ validate None = Halt CheckFailed)).
Proof.
  intros number_of_registers mask_of validate wf. split.
  - intros visits Hvisits Hall. split.
    + intros l. now apply (ValidateIntervals_liveness_free _ _ _ _ _ _ _ _ _ _
                             visits).
    + intros Hn Hwf Hfatal.
      now apply (ValidateIntervals_null_returns dbg kVRegSize fuel h intervals
                   number_of_spill_slots number_of_out_slots codegen
                   register_type fatal Hn visits).
  - intros before after v Hn Hvisits Hwf Hreg Hfixed Hvoid Hslot. split.
    + now apply (ValidateIntervals_null_aborts dbg kVRegSize fuel h intervals
                   number_of_spill_slots number_of_out_slots codegen
                   register_type fatal Hn before after v).
    + now apply (ValidateIntervals_null_never_succeeds dbg kVRegSize fuel h
                   intervals number_of_spill_slots number_of_out_slots codegen
                   register_type fatal Hn before after v).
Qed.

(** The theorem at an interval in register 1 followed by a fixed interval
    without a register. *)
Lemma ValidateIntervals_null_liveness_witness :
  scenario_validate true arena_fixed_unassigned false = Halt CheckFailed.
Proof.
  refine (proj1 (proj2 (ValidateIntervals_null_liveness
            true 4 10 arena_fixed_unassigned [0; 1] 1 0 scenario_codegen
            kCoreRegister false)
            [mkVisit (mkLiveRange 4 8)
               (scenario_interval 4 8 (Some 1%Z) None 0 scenario_call false)
               (scenario_interval 4 8 (Some 1%Z) None 0 scenario_call false)]
            []
            (mkVisit (mkLiveRange 10 12)
               (mkLiveInterval [mkLiveRange 10 12] None None true kVoid 1 None
                  NoCompanion None false false)
               (mkLiveInterval [mkLiveRange 10 12] None None true kVoid 1 None
                  NoCompanion None false false))
            _ _ _ _ _ _ _) _ _).
  - simpl. lia.
  - reflexivity.
  - constructor; [apply scenario_wf|constructor].
  - reflexivity.
  - reflexivity.
  - reflexivity.
  - reflexivity.
  - constructor; constructor.
  - constructor; [|constructor]. intros mask reg _ _. reflexivity.
Defined.

(** ** Cutting a range list *)

Lemma ascending_from_weaken (lo lo' : nat) (ranges : list LiveRange) :
  lo' <= lo -> ascending_from lo ranges -> ascending_from lo' ranges.
Proof.
  destruct ranges as [|r rest]; simpl; [auto|]. intros Hlo [Hr Hrest].
  split; [lia|assumption].
Qed.

Lemma ascending_from_after (lo : nat) (ranges : list LiveRange)
    (r : LiveRange) (j : nat) :
  ascending_from lo ranges -> r ∈ ranges -> covers r j -> lo <= j.
Proof.
  revert lo. induction ranges as [|r' rest IH]; intros lo Hasc Hin Hj.
  - inversion Hin.
  - destruct Hasc as [Hr' Hrest].
    apply elem_of_cons in Hin as [->|Hin].
    + unfold covers in Hj. lia.
    + specialize (IH _ Hrest Hin Hj). lia.
Qed.

Lemma live_at_cons (r : LiveRange) (rest : list LiveRange) (j : nat) :
  live_at (r :: rest) j <-> covers r j \/ live_at rest j.
Proof.
  unfold live_at. split.
  - intros (r' & Hin & Hj). apply elem_of_cons in Hin as [->|Hin]; eauto.
  - intros [Hj|(r' & Hin & Hj)].
    + exists r. split; [apply list_elem_of_here|assumption].
    + exists r'. split; [now apply list_elem_of_further|assumption].
Qed.

Lemma live_at_nil (j : nat) : ~ live_at [] j.
Proof. intros (r & Hin & _). inversion Hin. Qed.

(** What [split_ranges] returns on an ascending list: the part of the
    liveness before the position and the part from the position on, both
    ascending. *)
Lemma split_ranges_spec (position : nat) (ranges : list LiveRange) :
  forall (lo : nat) (before suffix : list LiveRange),
    ascending_from lo ranges ->
    split_ranges position ranges = (before, suffix) ->
    (forall j, live_at before j <-> live_at ranges j /\ j < position) /\
    (forall j, live_at suffix j <-> live_at ranges j /\ position <= j) /\
    ascending_from lo before /\
    ascending_from lo suffix /\
    Forall (fun r => end_ r <= position) before /\
    Forall (fun r => position <= start_ r) suffix.
Proof.
  induction ranges as [|r rest IH]; intros lo before suffix Hasc Hsplit;
    simpl in Hsplit.
  - injection Hsplit as <- <-.
    split; [|split; [|split; [|split; [|split]]]];
      try exact I; try constructor;
      try (intros H; now apply live_at_nil in H);
      try (intros [H _]; now apply live_at_nil in H).
  - destruct Hasc as [Hr Hrest].
    destruct (Nat.leb_spec (end_ r) position) as [Hend|Hend].
    + destruct (split_ranges position rest) as [before' suffix'] eqn:Hrec.
      injection Hsplit as <- <-.
      destruct (IH (end_ r) before' suffix' Hrest eq_refl)
        as (Hbefore & Hsuffix & Hasc1 & Hasc2 & Hends & Hstarts).
      split; [|split; [|split; [|split; [|split]]]].
      * intros j. rewrite !live_at_cons, Hbefore. unfold covers.
        intuition lia.
      * intros j. rewrite live_at_cons, Hsuffix. unfold covers.
        intuition lia.
      * simpl. auto.
      * apply (ascending_from_weaken (end_ r)); [lia|assumption].
      * constructor; assumption.
      * assumption.
    + destruct (Nat.leb_spec position (start_ r)) as [Hstart|Hstart].
      * injection Hsplit as <- <-.
        split; [|split; [|split; [|split; [|split]]]].
        -- intros j. split; [intros H; now apply live_at_nil in H|].
           intros [(r' & Hin & Hj) Hlt]. exfalso.
           assert (lo <= j) by (eapply ascending_from_after; eauto; simpl; auto).
           apply elem_of_cons in Hin as [->|Hin].
           ++ unfold covers in Hj. lia.
           ++ pose proof (ascending_from_after _ _ _ _ Hrest Hin Hj). lia.
        -- intros j. split; [|tauto]. intros Hlive. split; [assumption|].
           destruct Hlive as (r' & Hin & Hj).
           apply elem_of_cons in Hin as [->|Hin].
           ++ unfold covers in Hj. lia.
           ++ pose proof (ascending_from_after _ _ _ _ Hrest Hin Hj). lia.
        -- exact I.
        -- simpl. auto.
        -- constructor.
        -- constructor; [assumption|].
           rewrite Forall_forall. intros r' Hin.
           clear IH. revert Hrest Hin Hr Hend. generalize (end_ r).
           induction rest as [|r'' rest IHrest]; intros e Hrest Hin Hr Hend.
           ++ inversion Hin.
           ++ destruct Hrest as [Hr'' Hrest].
              apply elem_of_cons in Hin as [->|Hin]; [lia|].
              apply (IHrest (end_ r'')); try assumption; lia.
      * injection Hsplit as <- <-.
        split; [|split; [|split; [|split; [|split]]]].
        -- intros j. rewrite !live_at_cons. unfold covers. simpl. split.
           ++ intros [Hj|H]; [|now apply live_at_nil in H]. split; [left|]; lia.
           ++ intros [[Hj|(r' & Hin & Hj)] Hlt]; [left; lia|].
              pose proof (ascending_from_after _ _ _ _ Hrest Hin Hj). lia.
        -- intros j. rewrite !live_at_cons. unfold covers. simpl. split.
           ++ intros [Hj|(r' & Hin & Hj)].
              ** split; [left|]; lia.
              ** pose proof (ascending_from_after _ _ _ _ Hrest Hin Hj).
                 split; [right; exists r'; auto|lia].
           ++ intros [[Hj|Hlive] Hle]; [left; lia|right; assumption].
        -- simpl. split; [lia|exact I].
        -- simpl. split; [lia|assumption].
        -- constructor; [simpl; lia|constructor].
        -- constructor; [simpl; lia|].
           rewrite Forall_forall. intros r' Hin.
           clear IH. revert Hrest Hin Hr Hend. generalize (end_ r).
           induction rest as [|r'' rest IHrest]; intros e Hrest Hin Hr Hend.
           ++ inversion Hin.
           ++ destruct Hrest as [Hr'' Hrest].
              apply elem_of_cons in Hin as [->|Hin]; [lia|].
              apply (IHrest (end_ r'')); try assumption; lia.
Qed.

(** ** [SplitAt] *)

Lemma last_ascending (lo : nat) (ranges : list LiveRange) (r : LiveRange) :
  ascending_from lo ranges -> last ranges = Some r ->
  forall r', r' ∈ ranges -> end_ r' <= end_ r.
Proof.
  revert lo. induction ranges as [|r0 rest IH]; intros lo Hasc Hlast r' Hin.
  - discriminate.
  - destruct Hasc as [Hr0 Hrest]. destruct rest as [|r1 rest'].
    + simpl in Hlast. injection Hlast as <-.
      apply elem_of_cons in Hin as [->|Hin]; [lia|inversion Hin].
    + change (last (r0 :: r1 :: rest')) with (last (r1 :: rest')) in Hlast.
      apply elem_of_cons in Hin as [->|Hin].
      * assert (Hr1 : end_ r1 <= end_ r)
          by (apply (IH _ Hrest Hlast), list_elem_of_here).
        destruct Hrest as [? _]. lia.
      * now apply (IH _ Hrest Hlast).
Qed.

(** The shape of what [split_ranges] returns: the list cut between two
    ranges, or inside a range. *)
Lemma split_ranges_shape (position : nat) (ranges : list LiveRange) :
  forall before suffix : list LiveRange,
    split_ranges position ranges = (before, suffix) ->
    ranges = before ++ suffix \/
    exists bf r af,
      ranges = bf ++ r :: af /\
      start_ r < position < end_ r /\
      before = bf ++ [mkLiveRange (start_ r) position] /\
      suffix = mkLiveRange position (end_ r) :: af.
Proof.
  induction ranges as [|r rest IH]; intros before suffix Hsplit;
    simpl in Hsplit.
  - injection Hsplit as <- <-. now left.
  - destruct (Nat.leb_spec (end_ r) position) as [Hend|Hend].
    + destruct (split_ranges position rest) as [before' suffix'] eqn:Hrec.
      injection Hsplit as <- <-.
      destruct (IH before' suffix' eq_refl)
        as [->|(bf & r0 & af & -> & Hr0 & -> & ->)].
      * now left.
      * right. exists (r :: bf), r0, af. auto.
    + destruct (Nat.leb_spec position (start_ r)) as [Hstart|Hstart].
      * injection Hsplit as <- <-. now left.
      * injection Hsplit as <- <-. right. exists [], r, rest.
        split; [reflexivity|]. split; [lia|]. split; reflexivity.
Qed.

(** On an ascending list [split_ranges] cuts at the position. *)
Lemma split_ranges_cut (position : nat) (ranges before suffix : list LiveRange) :
  ascending ranges ->
  split_ranges position ranges = (before, suffix) ->
  cut_at position ranges before suffix /\
  ascending before /\ ascending suffix.
Proof.
  intros Hasc Hsplit.
  destruct (split_ranges_spec position ranges 0 before suffix Hasc Hsplit)
    as (_ & _ & Hasc1 & Hasc2 & Hends & Hstarts).
  split; [|split; assumption].
  destruct (split_ranges_shape position ranges before suffix Hsplit)
    as [Hwhole|Hinside].
  - left. auto.
  - right. assumption.
Qed.

(** The cut of an ascending list at a position is unique: it is the one
    that [split_ranges] computes. *)
Lemma cut_at_unique (position : nat) (whole original new : list LiveRange) :
  ascending whole ->
  cut_at position whole original new ->
  split_ranges position whole = (original, new).
Proof.
  unfold ascending. generalize 0 as lo. intros lo Hasc Hcut. revert lo Hasc.
  destruct Hcut as [(-> & Hends & Hstarts)
                   |(bf & r & af & -> & Hr & -> & ->)].
  - induction original as [|r0 original IH]; intros lo Hasc; simpl in *.
    + destruct new as [|r rest]; [reflexivity|]. simpl.
      apply Forall_cons in Hstarts as [Hstart _]. destruct Hasc as [Hr _].
      destruct (Nat.leb_spec (end_ r) position); [lia|].
      destruct (Nat.leb_spec position (start_ r)); [reflexivity|lia].
    + apply Forall_cons in Hends as [Hend Hends]. destruct Hasc as [_ Hasc].
      destruct (Nat.leb_spec (end_ r0) position); [|lia].
      now rewrite (IH Hends (end_ r0) Hasc).
  - induction bf as [|r0 bf IH]; intros lo Hasc; simpl in *.
    + destruct (Nat.leb_spec (end_ r) position); [lia|].
      destruct (Nat.leb_spec position (start_ r)); [lia|reflexivity].
    + destruct Hasc as [Hr0 Hasc].
      assert (Hbefore : end_ r0 <= start_ r).
      { apply (ascending_from_after (end_ r0) (bf ++ r :: af) r);
          [assumption| |unfold covers; lia].
        rewrite elem_of_app. right. apply list_elem_of_here. }
      destruct (Nat.leb_spec (end_ r0) position); [|lia].
      now rewrite (IH (end_ r0) Hasc).
Qed.

(** The head of an ascending list starts first. *)
Lemma ascending_head_first (lo : nat) (r : LiveRange) (rest : list LiveRange)
    (r' : LiveRange) :
  ascending_from lo (r :: rest) -> r' ∈ r :: rest -> start_ r <= start_ r'.
Proof.
  intros [Hr Hrest] Hin. apply elem_of_cons in Hin as [->|Hin]; [lia|].
  assert (Hcovers : covers r' (start_ r')).
  { clear -Hrest Hin. revert Hrest. generalize (end_ r).
    induction rest as [|r0 rest IH]; intros lo Hrest; [inversion Hin|].
    destruct Hrest as [Hr0 Hrest].
    apply elem_of_cons in Hin as [->|Hin]; [unfold covers; lia|].
    now apply (IH Hin (end_ r0)). }
  pose proof (ascending_from_after _ _ _ _ Hrest Hin Hcovers). lia.
Qed.

(** The ranges of an ascending list are not empty. *)
Lemma ascending_covers_start (lo : nat) (ranges : list LiveRange)
    (r : LiveRange) :
  ascending_from lo ranges -> r ∈ ranges -> start_ r < end_ r.
Proof.
  revert lo. induction ranges as [|r0 rest IH]; intros lo Hasc Hin.
  - inversion Hin.
  - destruct Hasc as [Hr0 Hrest].
    apply elem_of_cons in Hin as [->|Hin]; [lia|]. now apply (IH (end_ r0)).
Qed.

(** The start of the suffix of an interval that is not dead at the
    position: the position when it is live, and otherwise the start of the
    first range after it. *)
Lemma suffix_start (position : nat) (ranges before suffix : list LiveRange)
    (e : nat) :
  ascending ranges ->
  split_ranges position ranges = (before, suffix) ->
  (exists r, last ranges = Some r /\ end_ r = e) -> position < e ->
  exists r rest,
    suffix = r :: rest /\ position <= start_ r /\
    (live_at ranges position -> start_ r = position) /\
    (~ live_at ranges position ->
     position < start_ r /\
     exists r', r' ∈ ranges /\ start_ r' = start_ r /\
                forall r'', r'' ∈ ranges -> position < end_ r'' ->
                            start_ r <= start_ r'').
Proof.
  intros Hasc Hsplit (rl & Hlast & <-) Hlive.
  destruct (split_ranges_spec position ranges 0 before suffix Hasc Hsplit)
    as (_ & Hsuffix & _ & Hasc2 & _ & Hstarts).
  assert (Hlast_in : rl ∈ ranges).
  { apply list_elem_of_lookup. exists (pred (length ranges)).
    now rewrite <- last_lookup. }
  assert (Hrl : start_ rl < end_ rl)
    by now apply (ascending_covers_start 0 ranges).
  destruct suffix as [|r rest].
  - exfalso. apply (live_at_nil (Nat.max position (start_ rl))).
    apply Hsuffix. split; [|lia]. exists rl. split; [assumption|].
    unfold covers. lia.
  - exists r, rest. split; [reflexivity|].
    apply Forall_cons in Hstarts as [Hr Hrest]. split; [assumption|]. split.
    + intros Hpos.
      assert (Hs : live_at (r :: rest) position) by (apply Hsuffix; auto).
      destruct Hs as (r' & Hin & Hcov). unfold covers in Hcov.
      pose proof (ascending_head_first 0 r rest r' Hasc2 Hin). lia.
    + intros Hhole.
      assert (Hfirst : forall r'', r'' ∈ ranges -> position < end_ r'' ->
                                   start_ r <= start_ r'').
      { intros r'' Hin Hend.
        pose proof (ascending_covers_start 0 ranges r'' Hasc Hin) as Hne.
        assert (Hafter : position < start_ r'').
        { destruct (Nat.lt_ge_cases position (start_ r'')) as [|Hge];
            [assumption|].
          exfalso. apply Hhole. exists r''. split; [assumption|].
          unfold covers. lia. }
        assert (Hs : live_at (r :: rest) (start_ r'')).
        { apply Hsuffix. split; [|lia]. exists r''. split; [assumption|].
          unfold covers. lia. }
        destruct Hs as (r0 & Hin0 & Hcov0). unfold covers in Hcov0.
        pose proof (ascending_head_first 0 r rest r0 Hasc2 Hin0). lia. }
      assert (Hs : live_at (r :: rest) (start_ r)).
      { exists r. split; [apply list_elem_of_here|].
        destruct Hasc2 as [Hr2 _]. unfold covers. lia. }
      apply Hsuffix in Hs as [(r' & Hin & Hcov) _].
      destruct (Nat.eq_dec (start_ r) position) as [Heq|Hne].
      * exfalso. apply Hhole. exists r'. split; [assumption|]. now rewrite <- Heq.
      * split; [lia|].
        (* the head of the suffix is a range of the original *)
        destruct (split_ranges_shape position ranges before (r :: rest) Hsplit)
          as [Hwhole|(bf & r0 & af & _ & _ & _ & Hcut)].
        -- exists r. split; [|split; [reflexivity|assumption]].
           rewrite Hwhole, elem_of_app. right. apply list_elem_of_here.
        -- injection Hcut as -> _. simpl in Hne. lia.
Qed.

Lemma SplitAt_Ok (h : list LiveInterval) (p : nat) (i : LiveInterval)
    (position start : nat) (before suffix : list LiveRange) :
  h !! p = Some i ->
  GetStart i = Ok start -> start < position ->
  IsDeadAt i position = Ok false ->
  split_ranges position (first_range_ i) = (before, suffix) ->
  SplitAt h p position =
  Ok (<[p := mkLiveInterval before (register_ i) (spill_slot_ i) (is_fixed_ i)
               (type_ i) (parent_ i) (Some (length h)) (companion_ i)
               (defined_by_ i) (is_using_input_register_ i)
               (can_use_input_register_ i)]> h
      ++ [mkLiveInterval suffix None None false (type_ i) (parent_ i)
            (next_sibling_ i) NoCompanion None false false],
      length h).
Proof.
  intros Hp Hstart Hlt Hdead Hsplit. unfold SplitAt, deref.
  rewrite Hp. simpl. rewrite Hstart. simpl. rewrite Hdead. simpl.
  destruct (Nat.leb_spec position start); [lia|]. simpl.
  now rewrite Hsplit.
Qed.

(** The two pieces that [SplitAt] leaves in the arena. *)
Lemma SplitAt_pieces (h : list LiveInterval) (p : nat) (i : LiveInterval)
    (position start : nat) :
  h !! p = Some i ->
  ascending (first_range_ i) ->
  GetStart i = Ok start -> start < position ->
  IsDeadAt i position = Ok false ->
  exists h' original new,
    SplitAt h p position = Ok (h', length h) /\
    length h' = S (length h) /\
    h' !! p = Some original /\
    h' !! length h = Some new /\
    (forall q, q <> p -> q < length h -> h' !! q = h !! q) /\
    is_split_of position i original new (length h) /\
    register_ original = register_ i /\
    companion_ original = companion_ i /\
    register_ new = None /\
    companion_ new = NoCompanion.
Proof.
  intros Hp Hasc Hstart Hlt Hdead.
  destruct (split_ranges position (first_range_ i)) as [before suffix] eqn:Hsplit.
  rewrite (SplitAt_Ok h p i position start before suffix) by assumption.
  assert (Hlen : p < length h) by (eapply lookup_lt_Some; eassumption).
  eexists _, _, _. split; [reflexivity|].
  split; [rewrite length_app, length_insert; simpl; lia|].
  split; [rewrite lookup_app_l by (rewrite length_insert; lia);
          now apply list_lookup_insert_eq|].
  split.
  { rewrite lookup_app_r by (rewrite length_insert; lia).
    rewrite length_insert, Nat.sub_diag. reflexivity. }
  split.
  { intros q Hne Hq. rewrite lookup_app_l by (rewrite length_insert; lia).
    now apply list_lookup_insert_ne. }
  split; [|simpl; auto].
  destruct (split_ranges_spec position (first_range_ i) 0 before suffix Hasc
              Hsplit) as (Hbefore & Hsuffix & _).
  destruct (split_ranges_cut position (first_range_ i) before suffix Hasc
              Hsplit) as (Hcut & Hasc_before & Hasc_suffix).
  unfold is_split_of. simpl.
  split; [assumption|]. split; [assumption|].
  split; [reflexivity|]. split; [reflexivity|]. split; [reflexivity|].
  split; [assumption|]. split; [assumption|]. split; [assumption|].
  unfold IsDeadAt, GetEnd in Hdead.
  destruct (last (first_range_ i)) as [rl|] eqn:Hlast; [|discriminate].
  simpl in Hdead. injection Hdead as Hdead. apply Nat.leb_gt in Hdead.
  destruct (suffix_start position (first_range_ i) before suffix (end_ rl)
              Hasc Hsplit (ex_intro _ rl (conj Hlast eq_refl)) Hdead)
    as (r & rest & -> & Hr & Hlive & Hhole).
  exists (start_ r). unfold GetStart. simpl. auto.
Qed.

(** ** [Split] *)


Lemma ascending_not_dead_at_start (i : LiveInterval) (start : nat) :
  ascending (first_range_ i) -> GetStart i = Ok start ->
  IsDeadAt i start = Ok false.
Proof.
  unfold GetStart, IsDeadAt, GetEnd. intros Hasc Hstart.
  destruct (first_range_ i) as [|r rest] eqn:Hranges; [discriminate|].
  injection Hstart as <-.
  destruct (last (r :: rest)) as [rl|] eqn:Hlast.
  - simpl. f_equal. apply Nat.leb_gt.
    pose proof (last_ascending 0 (r :: rest) rl Hasc Hlast r
                  (list_elem_of_here _ _)) as Hend.
    destruct Hasc as [Hr _]. lia.
  - apply last_None in Hlast. discriminate.
Qed.

Lemma ClearRegister_Ok (h : list LiveInterval) (p : nat) (i : LiveInterval) :
  h !! p = Some i ->
  ClearRegister h p = Ok (<[p := with_register None i]> h).
Proof. intros Hp. unfold ClearRegister, update, deref. now rewrite Hp. Qed.



(** The two pieces of a split make up the liveness of the whole, with no
    gap and no overlap. *)
Lemma is_split_of_partition (position : nat)
    (whole original new : LiveInterval) (q : nat) :
  is_split_of position whole original new q ->
  (forall j, live_at (first_range_ whole) j <->
             live_at (first_range_ original) j \/
             live_at (first_range_ new) j) /\
  (forall j, ~ (live_at (first_range_ original) j /\
                live_at (first_range_ new) j)).
Proof.
  intros (Hbefore & Hsuffix & _). split.
  - intros j. rewrite Hbefore, Hsuffix.
    destruct (Nat.lt_ge_cases j position); intuition lia.
  - intros j. rewrite Hbefore, Hsuffix. intuition lia.
Qed.

(** The two pieces of a split of an interval with ascending ranges hold
    the ranges that cutting the range list at the position gives, and no
    others. *)
Lemma is_split_of_ranges (position : nat)
    (whole original new : LiveInterval) (q : nat) :
  ascending (first_range_ whole) ->
  is_split_of position whole original new q ->
  split_ranges position (first_range_ whole) =
  (first_range_ original, first_range_ new).
Proof.
  intros Hasc (_ & _ & _ & _ & _ & Hcut & _). now apply cut_at_unique.
Qed.

(** [Split] after the start, on an interval with a companion [c]:
    [SplitAt] on the interval, [SplitAt] on the companion, and the two
    links between the new halves. *)
Lemma Split_companion (h : list LiveInterval) (interval c : nat)
    (i ic : LiveInterval) (position start start_c : nat) :
  h !! interval = Some i ->
  ascending (first_range_ i) ->
  GetStart i = Ok start -> start < position ->
  IsDeadAt i position = Ok false ->
  c <> interval ->
  h !! c = Some ic ->
  ascending (first_range_ ic) ->
  GetStart ic = Ok start_c -> start_c < position ->
  IsDeadAt ic position = Ok false ->
  exists h1 h2 original new c' new_c,
    SplitAt h interval position = Ok (h1, length h) /\
    SplitAt h1 c position = Ok (h2, S (length h)) /\
    length h2 = S (S (length h)) /\
    h2 !! interval = Some original /\
    h2 !! length h = Some new /\
    h2 !! c = Some c' /\
    h2 !! S (length h) = Some new_c /\
    is_split_of position i original new (length h) /\
    is_split_of position ic c' new_c (S (length h)).
Proof.
  intros Hp Hasc Hstart Hlt Hdead Hne Hc Hasc_c Hstart_c Hlt_c Hdead_c.
  assert (Hlen : interval < length h) by (eapply lookup_lt_Some; eassumption).
  assert (Hlen_c : c < length h) by (eapply lookup_lt_Some; eassumption).
  destruct (SplitAt_pieces h interval i position start Hp Hasc Hstart Hlt Hdead)
    as (h1 & original & new & Hsplit1 & Hlen1 & Ho & Hn & Hframe1 & Hpieces & _).
  assert (Hc1 : h1 !! c = Some ic) by (rewrite Hframe1; auto).
  destruct (SplitAt_pieces h1 c ic position start_c Hc1 Hasc_c Hstart_c Hlt_c
              Hdead_c)
    as (h2 & c' & new_c & Hsplit2 & Hlen2 & Hc' & Hnc & Hframe2 & Hpieces_c & _).
  rewrite Hlen1 in Hsplit2, Hnc, Hpieces_c.
  exists h1, h2, original, new, c', new_c.
  split; [assumption|]. split; [assumption|].
  split; [lia|].
  split; [rewrite Hframe2; auto; lia|].
  split; [rewrite Hframe2; auto; lia|].
  auto.
Qed.

(** C2, as amended.  [Split] at a position after the start of an interval
    with ascending ranges that is not dead there returns a new interval,
    linked as the next sibling of the original, whose ranges are exactly
    the suffix of the ranges of the original at the position (a range that
    contains the position is cut in two), while the original keeps the
    prefix: together they make up the original liveness with no gap and no
    overlap.  The new interval starts at the position when the position is
    live in the original, and at the start of the first range after the
    position when the position falls in a lifetime hole.  A high or low
    companion is split at the same position, and the two new halves are
    linked to each other. *)
Theorem Split_after_start (dbg : bool) (h : list LiveInterval)
    (interval : nat) (i : LiveInterval) (position start : nat) :
  h !! interval = Some i ->
  ascending (first_range_ i) ->
  GetStart i = Ok start -> start < position ->
  IsDeadAt i position = Ok false ->
  companion_splittable h interval i position ->
  exists h' original new,
    Split dbg h interval position = Ok (h', length h) /\
    h' !! interval = Some original /\
    h' !! length h = Some new /\
    is_split_of position i original new (length h) /\
    (forall j, live_at (first_range_ i) j <->
               live_at (first_range_ original) j \/
               live_at (first_range_ new) j) /\
    (forall j, ~ (live_at (first_range_ original) j /\
                  live_at (first_range_ new) j)) /\
    match companion_ i with
    | NoCompanion => companion_ new = NoCompanion
    | HighInterval c =>
        exists ic c' new_high,
          h !! c = Some ic /\ h' !! c = Some c' /\
          h' !! S (length h) = Some new_high /\
          is_split_of position ic c' new_high (S (length h)) /\
          companion_ new = HighInterval (S (length h)) /\
          companion_ new_high = LowInterval (length h)
    | LowInterval c =>
        exists ic c' new_low,
          h !! c = Some ic /\ h' !! c = Some c' /\
          h' !! S (length h) = Some new_low /\
          is_split_of position ic c' new_low (S (length h)) /\
          companion_ new = LowInterval (S (length h)) /\
          companion_ new_low = HighInterval (length h)
    end.
Proof.
  intros Hp Hasc Hstart Hlt Hdead Hcompanion.
  assert (Hlen : interval < length h) by (eapply lookup_lt_Some; eassumption).
  assert (Hprefix :
            Split dbg h interval position =
            (let* '(h1, new_interval) := SplitAt h interval position in
             match companion_ i with
             | HighInterval high_of_interval =>
                 let* '(h2, high) := SplitAt h1 high_of_interval position in
                 let* h3 := SetHighInterval h2 new_interval high in
                 let* h4 := SetLowInterval h3 high new_interval in
                 Ok (h4, new_interval)
             | LowInterval low_of_interval =>
                 let* '(h2, low) := SplitAt h1 low_of_interval position in
                 let* h3 := SetLowInterval h2 new_interval low in
                 let* h4 := SetHighInterval h3 low new_interval in
                 Ok (h4, new_interval)
             | NoCompanion => Ok (h1, new_interval)
             end)).
  { unfold Split, deref. rewrite Hp. simpl. rewrite Hstart. simpl.
    rewrite DCHECK_when by (intros _; apply Nat.leb_le; lia). simpl.
    rewrite Hdead. simpl. rewrite DCHECK_true. simpl.
    destruct (Nat.eqb_spec position start); [lia|]. reflexivity. }
  rewrite Hprefix. clear Hprefix.
  unfold companion_splittable, companion_of in Hcompanion.
  destruct (companion_ i) as [|c|c] eqn:Hcomp.
  - destruct (SplitAt_pieces h interval i position start Hp Hasc Hstart Hlt
                Hdead)
      as (h1 & original & new & -> & Hlen1 & Ho & Hn & _ & Hpieces & _ & _ & _
          & Hnc).
    exists h1, original, new. simpl.
    destruct (is_split_of_partition _ _ _ _ _ Hpieces). auto 10.
  - destruct (Hcompanion c eq_refl)
      as (Hne & ic & start_c & Hc & Hasc_c & Hstart_c & Hlt_c & Hdead_c).
    destruct (Split_companion h interval c i ic position start start_c)
      as (h1 & h2 & original & new & c' & new_c & -> & Hsplit2 & Hlen2 & Ho
          & Hn & Hc' & Hnc & Hpieces & Hpieces_c); try assumption.
    simpl. rewrite Hsplit2. simpl.
    assert (Hlen_c : c < length h) by (eapply lookup_lt_Some; eassumption).
    unfold SetHighInterval, SetLowInterval, update, deref.
    rewrite Hn. simpl.
    rewrite list_lookup_insert_ne by lia. rewrite Hnc. simpl.
    eexists _, original, (with_companion (HighInterval (S (length h))) new).
    split; [reflexivity|].
    split; [rewrite !list_lookup_insert_ne by lia; assumption|].
    split.
    { rewrite list_lookup_insert_ne by lia.
      apply list_lookup_insert_eq. lia. }
    split; [assumption|].
    destruct (is_split_of_partition _ _ _ _ _ Hpieces) as [Hunion Hdisjoint].
    split; [assumption|]. split; [assumption|].
    exists ic, c', (with_companion (LowInterval (length h)) new_c).
    split; [assumption|].
    split; [rewrite !list_lookup_insert_ne by lia; assumption|].
    split.
    { apply list_lookup_insert_eq. rewrite length_insert. lia. }
    auto.
  - destruct (Hcompanion c eq_refl)
      as (Hne & ic & start_c & Hc & Hasc_c & Hstart_c & Hlt_c & Hdead_c).
    destruct (Split_companion h interval c i ic position start start_c)
      as (h1 & h2 & original & new & c' & new_c & -> & Hsplit2 & Hlen2 & Ho
          & Hn & Hc' & Hnc & Hpieces & Hpieces_c); try assumption.
    simpl. rewrite Hsplit2. simpl.
    assert (Hlen_c : c < length h) by (eapply lookup_lt_Some; eassumption).
    unfold SetHighInterval, SetLowInterval, update, deref.
    rewrite Hn. simpl.
    rewrite list_lookup_insert_ne by lia. rewrite Hnc. simpl.
    eexists _, original, (with_companion (LowInterval (S (length h))) new).
    split; [reflexivity|].
    split; [rewrite !list_lookup_insert_ne by lia; assumption|].
    split.
    { rewrite list_lookup_insert_ne by lia.
      apply list_lookup_insert_eq. lia. }
    split; [assumption|].
    destruct (is_split_of_partition _ _ _ _ _ Hpieces) as [Hunion Hdisjoint].
    split; [assumption|]. split; [assumption|].
    exists ic, c', (with_companion (HighInterval (length h)) new_c).
    split; [assumption|].
    split; [rewrite !list_lookup_insert_ne by lia; assumption|].
    split.
    { apply list_lookup_insert_eq. rewrite length_insert. lia. }
    auto.
Qed.

(** The theorem at the low half of a wide value live over [[4, 8)], split
    at position 6. *)
Lemma Split_after_start_witness :
  exists h' new new_high,
    Split true arena_pair 0 6 = Ok (h', 2) /\
    h' !! 2 = Some new /\ h' !! 3 = Some new_high /\
    companion_ new = HighInterval 3 /\ companion_ new_high = LowInterval 2.
Proof.
  assert (Hasc : ascending (first_range_ low_half))
    by (unfold ascending; simpl; lia).
  assert (Hlt : 4 < 6) by lia.
  assert (Hcomp : companion_splittable arena_pair 0 low_half 6).
  { intros c Hc. injection Hc as <-. split; [lia|].
    exists high_half, 4. split; [reflexivity|].
    split; [unfold ascending; simpl; lia|].
    split; [reflexivity|]. split; [lia|reflexivity]. }
  destruct (Split_after_start true arena_pair 0 low_half 6 4
              eq_refl Hasc eq_refl Hlt eq_refl Hcomp)
    as (h' & original & new & Hsplit & _ & Hnew & _ & _ & _ & Hcompanion).
  simpl in Hcompanion.
  destruct Hcompanion as (ic & c' & new_high & _ & _ & Hhigh & _ & H1 & H2).
  exists h', new, new_high. auto.
Defined.

(** C2, counterexample.  The interval with the ranges [[0, 4)] and
    [[8, 12)] starts at 0 and is not dead at position 6, which is after
    its start; [Split] at 6 returns a new interval that holds the range
    [[8, 12)] and so starts at 8, not at 6. *)
Lemma Split_in_lifetime_hole_starts_later :
  arena_hole !! 0 = Some interval_with_hole /\
  GetStart interval_with_hole = Ok 0 /\
  IsDeadAt interval_with_hole 6 = Ok false /\
  exists h' new,
    Split true arena_hole 0 6 = Ok (h', 1) /\
    h' !! 1 = Some new /\
    first_range_ new = [mkLiveRange 8 12] /\
    GetStart new = Ok 8 /\
    GetStart new <> Ok 6.
Proof.
  split; [reflexivity|]. split; [reflexivity|]. split; [reflexivity|].
  eexists _, _. split; [reflexivity|]. split; [reflexivity|].
  split; [reflexivity|]. split; [reflexivity|]. discriminate.
Qed.


(** ** [SplitBetween] *)

Section SplitBetween.
Variable dbg : bool.
Variable ra : RegisterAllocator.

Let g := graph_ ra.
Let start_of := GetLifetimeStart g.
Let block_of (position : nat) :=
  GetBlockFromPosition (liveness_ ra) (position / 2).

(** The scan over the dominated blocks, while no debug assertion fails,
    keeps the block that the spec selects. *)
Lemma scan_smallest_start (from : nat) (block_from block_to0 : HBasicBlock)
    (dominated : list HBasicBlock) :
  (dbg = true ->
   forall d, d ∈ dominated -> from < start_of d -> d <> block_from) ->
  forall block_to,
    start_of block_to <= start_of block_to0 ->
    for_each (closer_dominated dbg g from block_from) dominated block_to =
    Ok (smallest_start g
          (List.filter (qualifies g from block_to0) dominated) block_to).
Proof.
  intros Hne. induction dominated as [|d dominated IH];
    intros block_to Hle; [reflexivity|].
  assert (IH' : forall b, start_of b <= start_of block_to0 ->
            for_each (closer_dominated dbg g from block_from) dominated b =
            Ok (smallest_start g
                  (List.filter (qualifies g from block_to0) dominated) b)).
  { apply IH. intros Hdbg d' Hin. apply Hne; [assumption|].
    now apply list_elem_of_further. }
  simpl. unfold closer_dominated at 1, qualifies at 1. fold start_of.
  destruct (Nat.ltb_spec from (start_of d)) as [Hfrom|Hfrom]; simpl.
  - destruct (Nat.ltb_spec (start_of d) (start_of block_to)) as [Hlt|Hge].
    + rewrite DCHECK_when.
      2:{ intros Hdbg. apply negb_true_iff, Nat.eqb_neq.
          apply Hne; [assumption|apply list_elem_of_here|assumption]. }
      simpl. rewrite IH' by lia.
      destruct (Nat.ltb_spec (start_of d) (start_of block_to0)); [|lia].
      unfold smallest_start. simpl. fold start_of.
      destruct (Nat.ltb_spec (start_of d) (start_of block_to)); [|lia].
      reflexivity.
    + simpl. rewrite IH' by lia.
      destruct (Nat.ltb_spec (start_of d) (start_of block_to0)).
      * unfold smallest_start. simpl. fold start_of.
        destruct (Nat.ltb_spec (start_of d) (start_of block_to)); [lia|].
        reflexivity.
      * reflexivity.
  - now rewrite IH' by lia.
Qed.

(** The walk over the loops ends on the header that the spec promotes
    to. *)
Lemma outermost_header_promoted (block_from : HBasicBlock)
    (loops : list HLoopInformation) (block_to : HBasicBlock) :
  outermost_header g block_from loops block_to =
  promoted g block_from loops block_to.
Proof.
  revert block_to. induction loops as [|loop outer IH]; intros block_to.
  - reflexivity.
  - simpl. rewrite IH. unfold promoted. simpl. fold start_of.
    destruct (Nat.leb_spec (start_of (GetHeader g loop)) (start_of block_from));
      destruct (Nat.ltb_spec (start_of block_from)
                  (start_of (GetHeader g loop))); try lia.
    + reflexivity.
    + destruct (take_while _ outer) as [|l ls]; [reflexivity|].
      change (last (loop :: l :: ls)) with (last (l :: ls)).
      destruct (last (l :: ls)) eqn:Hlast; [reflexivity|].
      apply last_None in Hlast. discriminate.
Qed.

(** The position that [SplitBetween] computes, with [from] and [to] in
    blocks and the debug assertion of the scan satisfied. *)
Lemma SplitBetween_position_spec (from to : nat)
    (block_from block_to : HBasicBlock) :
  block_of from = Some block_from ->
  block_of to = Some block_to ->
  (dbg = true ->
   forall d, d ∈ dominated_by_dominator g block_from ->
             from < start_of d -> d <> block_from) ->
  SplitBetween_position dbg ra from to =
    Ok (SplitBetween_spec_position g from to block_from block_to).
Proof.
  intros Hfrom Hto Hne.
  unfold SplitBetween_position, SplitBetween_spec_position.
  fold g. fold (block_of from) (block_of to). rewrite Hfrom, Hto.
  rewrite !DCHECK_when by (intros _; now apply bool_decide_eq_true).
  simpl.
  destruct (Nat.eqb_spec block_from block_to) as [->|Hblocks].
  - now rewrite bool_decide_eq_true_2.
  - rewrite bool_decide_eq_false_2 by congruence.
    unfold dominated_by_dominator in *.
    destruct (GetDominator g block_from) as [dominator|].
    + rewrite (scan_smallest_start from block_from block_to) by auto.
      simpl. now rewrite outermost_header_promoted.
    + simpl. now rewrite outermost_header_promoted.
Qed.

(** C5. With [from] and [to] in blocks and the debug assertion of the
    scan satisfied, [SplitBetween] splits where the spec says: at [to]
    when the two blocks are the same; otherwise at the lifetime start of
    the block obtained by taking, among the blocks dominated by the
    dominator of the block of [from] whose lifetime start lies strictly
    between [from] and the lifetime start of the block of [to], the one
    with the smallest start (the block of [to] when there is none), and
    then promoting it to the headers of the enclosing loops for as long as
    the block of [from] starts strictly before the header. *)
Theorem SplitBetween_follows_spec (h : list LiveInterval) (interval : nat)
    (from to : nat) (block_from block_to : HBasicBlock) :
  block_of from = Some block_from ->
  block_of to = Some block_to ->
  (dbg = true ->
   forall d, d ∈ dominated_by_dominator g block_from ->
             from < start_of d -> d <> block_from) ->
  SplitBetween_position dbg ra from to =
    Ok (SplitBetween_spec_position g from to block_from block_to) /\
  SplitBetween dbg ra h interval from to =
    Split dbg h interval
          (SplitBetween_spec_position g from to block_from block_to).
Proof.
  intros Hfrom Hto Hne.
  assert (Hposition :
    SplitBetween_position dbg ra from to =
    Ok (SplitBetween_spec_position g from to block_from block_to)).
  { unfold SplitBetween_position, SplitBetween_spec_position.
    fold g. fold (block_of from) (block_of to). rewrite Hfrom, Hto.
    rewrite !DCHECK_when by (intros _; now apply bool_decide_eq_true).
    simpl.
    destruct (Nat.eqb_spec block_from block_to) as [->|Hblocks].
    - now rewrite bool_decide_eq_true_2.
    - rewrite bool_decide_eq_false_2 by congruence.
      unfold dominated_by_dominator in *.
      destruct (GetDominator g block_from) as [dominator|].
      + rewrite (scan_smallest_start from block_from block_to) by auto.
        simpl. now rewrite outermost_header_promoted.
      + simpl. now rewrite outermost_header_promoted. }
  split; [assumption|]. unfold SplitBetween. now rewrite Hposition.
Qed.

End SplitBetween.

Section SplitBetweenBounds.
Variable dbg : bool.
Variable ra : RegisterAllocator.
Hypothesis model : position_model ra.

Let g := graph_ ra.
Let start_of := GetLifetimeStart g.
Let block_of (position : nat) :=
  GetBlockFromPosition (liveness_ ra) (position / 2).

Lemma block_starts_before (p : nat) (b : HBasicBlock) :
  block_of p = Some b -> start_of b <= p.
Proof. destruct model as (H & _). apply H. Qed.

Lemma starts_after_block (p : nat) (b b' : HBasicBlock) :
  block_of p = Some b -> start_of b < start_of b' -> p < start_of b'.
Proof.
  destruct model as (_ & H & _). intros Hb Hlt.
  destruct (Nat.lt_ge_cases p (start_of b')) as [|Hge]; [assumption|].
  specialize (H p b b' Hb Hge). unfold start_of, g in *. lia.
Qed.

Lemma smallest_start_between (from bound : nat)
    (candidates : list HBasicBlock) (default : HBasicBlock) :
  Forall (fun d => from < start_of d) candidates ->
  from < start_of default <= bound ->
  from < start_of (smallest_start g candidates default) <= bound.
Proof.
  unfold smallest_start. revert default.
  induction candidates as [|d candidates IH]; intros default Hall Hdefault.
  - assumption.
  - apply Forall_cons in Hall as [Hd Hall]. simpl. apply IH; [assumption|].
    fold start_of. destruct (Nat.ltb_spec (start_of d) (start_of default)); lia.
Qed.

Lemma promoted_between (from bound : nat) (block_from : HBasicBlock)
    (loops : list HLoopInformation) (target : HBasicBlock) :
  block_of from = Some block_from ->
  Forall (fun loop => start_of (GetHeader g loop) <= bound) loops ->
  from < start_of target <= bound ->
  from < start_of (outermost_header g block_from loops target) <= bound.
Proof.
  intros Hfrom. revert target.
  induction loops as [|loop outer IH]; intros target Hall Htarget.
  - assumption.
  - apply Forall_cons in Hall as [Hloop Hall]. simpl. fold start_of.
    destruct (Nat.leb_spec (start_of (GetHeader g loop)) (start_of block_from))
      as [|Hlt]; [assumption|].
    apply IH; [assumption|]. split; [|assumption].
    now apply (starts_after_block from block_from).
Qed.

(** C4. Under the position model, for [from <= to] in blocks,
    [SplitBetween] hands [Split] a position that is neither earlier than
    [from] nor later than [to]. *)
Theorem SplitBetween_position_between (h : list LiveInterval) (interval : nat)
    (from to : nat) (block_from block_to : HBasicBlock) :
  from <= to ->
  block_of from = Some block_from ->
  block_of to = Some block_to ->
  exists position,
    SplitBetween_position dbg ra from to = Ok position /\
    SplitBetween dbg ra h interval from to = Split dbg h interval position /\
    from <= position <= to.
Proof.
  intros Hle Hfrom Hto.
  pose proof (block_starts_before from block_from Hfrom) as Hstart_from.
  pose proof (block_starts_before to block_to Hto) as Hstart_to.
  assert (Hposition :
    SplitBetween_position dbg ra from to =
    Ok (SplitBetween_spec_position g from to block_from block_to)).
  { apply SplitBetween_position_spec; [assumption|assumption|].
    intros _ d _ Hd ->. fold g start_of in Hd. lia. }
  eexists. split; [exact Hposition|].
  split; [unfold SplitBetween; now rewrite Hposition|].
  unfold SplitBetween_spec_position.
  destruct (Nat.eqb_spec block_from block_to) as [->|Hne]; [lia|].
  rewrite <- (outermost_header_promoted ra). fold g start_of.
  assert (Hto_after : from < start_of block_to).
  { apply (starts_after_block from block_from); [assumption|].
    destruct model as (_ & Hlatest & Hinj & _).
    assert (start_of block_from <= start_of block_to)
      by (apply (Hlatest to); [assumption|fold g start_of; lia]).
    assert (start_of block_from <> start_of block_to)
      by (intros Heq; apply Hne; now apply (Hinj from to)).
    lia. }
  set (candidates := List.filter (qualifies g from block_to)
                       (dominated_by_dominator g block_from)).
  set (target := smallest_start g candidates block_to).
  assert (Htarget : from < start_of target <= start_of block_to).
  { apply smallest_start_between; [|lia].
    apply Forall_forall. intros d Hd.
    apply list_elem_of_In, filter_In in Hd as [_ Hd].
    unfold qualifies in Hd. apply andb_true_iff in Hd as [Hd _].
    now apply Nat.ltb_lt in Hd. }
  assert (Hfinal : from < start_of (outermost_header g block_from
                                      (LoopsOutward g target) target)
                   <= start_of target).
  { apply promoted_between; [assumption| |lia].
    apply Forall_forall. intros loop Hloop.
    destruct model as (_ & _ & _ & Hheader). now apply Hheader. }
  lia.
Qed.

End SplitBetweenBounds.

Lemma diamond_block (p : nat) :
  10 * (2 * (p / 2) / 10) <= p < 10 * (2 * (p / 2) / 10) + 10.
Proof.
  pose proof (Nat.div_mod_eq p 2).
  pose proof (Nat.mod_upper_bound p 2 ltac:(lia)).
  pose proof (Nat.div_mod_eq (2 * (p / 2)) 10).
  pose proof (Nat.mod_upper_bound (2 * (p / 2)) 10 ltac:(lia)).
  lia.
Qed.

Lemma diamond_position_model : position_model diamond_allocator.
Proof.
  cbv beta iota zeta delta
    [position_model diamond_allocator diamond_graph diamond_liveness graph_
     liveness_ GetBlockFromPosition GetLifetimeStart LoopsOutward GetHeader].
  split; [|split; [|split]].
  - intros p b Hb. unfold HBasicBlock in *.
    assert (Hb' : 2 * (p / 2) / 10 = b) by congruence.
    pose proof (diamond_block p). lia.
  - intros p b b' Hb Hle. unfold HBasicBlock in *.
    assert (Hb' : 2 * (p / 2) / 10 = b) by congruence.
    pose proof (diamond_block p). lia.
  - intros p q b b' _ _ Heq. unfold HBasicBlock in *. lia.
  - intros b loop Hloop. unfold HBasicBlock, HLoopInformation in *.
    destruct (Nat.eqb_spec b 5) as [->|]; simpl in Hloop.
    + apply list_elem_of_singleton in Hloop as ->. lia.
    + destruct (Nat.eqb_spec b 6) as [->|]; simpl in Hloop.
      * apply list_elem_of_singleton in Hloop as ->. lia.
      * inversion Hloop.
Qed.

(** The theorem for [from] in block 2 and [to] in block 6. *)
Lemma SplitBetween_position_between_witness :
  exists position,
    SplitBetween_position true diamond_allocator 22 64 = Ok position /\
    22 <= position <= 64.
Proof.
  assert (Hle : 22 <= 64) by lia.
  destruct (SplitBetween_position_between true diamond_allocator
              diamond_position_model arena_hole 0 22 64 2 6 Hle eq_refl eq_refl)
    as (position & Hposition & _ & Hbounds).
  exists position. split; assumption.
Defined.

(** The theorem for [from] in block 2 and [to] in block 6: the split is at
    the start of block 3. *)
Lemma SplitBetween_follows_spec_witness :
  SplitBetween_position true diamond_allocator 22 64 =
  Ok (SplitBetween_spec_position diamond_graph 22 64 2 6).
Proof.
  refine (proj1 (SplitBetween_follows_spec true diamond_allocator arena_hole 0
                   22 64 2 6 eq_refl eq_refl _)).
  intros _ d Hd Hlt ->. simpl in Hlt. lia.
Defined.

Example SplitBetween_diamond :
  SplitBetween_position true diamond_allocator 22 64 = Ok 30.
Proof. reflexivity. Qed.

Example SplitBetween_loop_header :
  SplitBetween_position true diamond_allocator 42 64 = Ok 50.
Proof. reflexivity. Qed.

Example SplitBetween_same_block :
  SplitBetween_position true diamond_allocator 22 26 = Ok 26.
Proof. reflexivity. Qed.

(** ** The call-clobber mask outside and at the edge of its precondition *)

(** The loop of [GetBlockedRegistersForCall] over any sequence of
    registers: it falls through exactly when every register of the sequence
    that is not callee-saved can be shifted to, and otherwise the shift is
    undefined. *)
Lemma GetBlockedRegistersForCall_loop_defined (is_callee_save : nat -> bool)
    (regs : list nat) (mask : Z) :
  (Forall (fun r => is_callee_save r = false -> r < 32) regs /\
   exists mask', for_each (GetBlockedRegistersForCall_body is_callee_save)
                          regs mask = Ok mask') \/
  (Exists (fun r => is_callee_save r = false /\ 32 <= r) regs /\
   for_each (GetBlockedRegistersForCall_body is_callee_save) regs mask =
   Halt UndefinedBehaviour).
Proof.
  revert mask. induction regs as [|r regs IH]; intros mask.
  - left. split; [constructor|]. exists mask. reflexivity.
  - simpl. unfold GetBlockedRegistersForCall_body at 1 3.
    destruct (is_callee_save r) eqn:Hsave; simpl.
    + destruct (IH mask) as [[Hall Hrun]|[Hex Hrun]].
      * left. split; [|assumption]. constructor; [congruence|assumption].
      * right. split; [|assumption]. now apply Exists_cons_tl.
    + unfold shl1, uint32_bits.
      destruct (Z.leb_spec 0 (Z.of_nat r)); [|lia].
      destruct (Z.ltb_spec (Z.of_nat r) 32); simpl.
      * destruct (IH (Z.lor mask (Z.shiftl 1 (Z.of_nat r))))
          as [[Hall Hrun]|[Hex Hrun]].
        -- left. split; [|assumption]. constructor; [lia|assumption].
        -- right. split; [|assumption]. now apply Exists_cons_tl.
      * right. split; [|reflexivity]. apply Exists_cons_hd.
        split; [exact Hsave|lia].
Qed.

(** X1. [GetBlockedRegistersForCall] returns a mask exactly when the debug
    assertion on the size of the register file holds (debug builds) and
    no register numbered 32 or more has to be shifted to (every build).  A
    file of more than 32 registers aborts a debug build; in a release build
    the first such register that is not callee-saved makes the shift
    undefined. *)
Theorem GetBlockedRegistersForCall_defined_iff (dbg : bool) (n : nat)
    (is_callee_save : nat -> bool) :
  ((exists mask, GetBlockedRegistersForCall dbg n is_callee_save = Ok mask) <->
   (dbg = true -> n <= 32) /\
   (forall r, 32 <= r < n -> is_callee_save r = true)) /\
  (dbg = true -> 32 < n ->
   GetBlockedRegistersForCall dbg n is_callee_save = Halt DCheckFailed) /\
  (dbg = false ->
   (exists r, 32 <= r < n /\ is_callee_save r = false) ->
   GetBlockedRegistersForCall dbg n is_callee_save = Halt UndefinedBehaviour).
Proof.
  unfold GetBlockedRegistersForCall, DCHECK, uint32_bits.
  destruct (GetBlockedRegistersForCall_loop_defined is_callee_save (seq 0 n) 0%Z)
    as [[Hall (mask & Hrun)]|[Hex Hrun]].
  - rewrite Forall_forall in Hall.
    assert (Hsaved : forall r, 32 <= r < n -> is_callee_save r = true).
    { intros r Hr. destruct (is_callee_save r) eqn:Hsave; [reflexivity|].
      assert (r < 32); [|lia].
      apply Hall; [|assumption]. apply elem_of_seq. lia. }
    split; [|split].
    + destruct dbg; simpl.
      * destruct (Z.leb_spec (Z.of_nat n) 32); simpl.
        -- split; [intros _; split; [lia|assumption]|]. intros _. eauto.
        -- split; [intros (m & Hm); discriminate|]. intros [Hn _].
           specialize (Hn eq_refl). lia.
      * split; [intros _; split; [discriminate|assumption]|]. intros _. eauto.
    + intros -> Hn. simpl.
      destruct (Z.leb_spec (Z.of_nat n) 32); [lia|reflexivity].
    + intros _ (r & Hr & Hsave). rewrite Hsaved in Hsave by assumption.
      discriminate.
  - apply Exists_exists in Hex as (r & Hin & Hsave & Hr).
    apply elem_of_seq in Hin.
    split; [|split].
    + split.
      * intros (mask & Hmask). destruct dbg; simpl in Hmask.
        -- destruct (Z.leb_spec (Z.of_nat n) 32); simpl in Hmask;
             [lia|discriminate].
        -- rewrite Hrun in Hmask. discriminate.
      * intros [_ Hsaved]. rewrite Hsaved in Hsave by lia. discriminate.
    + intros -> Hn. simpl.
      destruct (Z.leb_spec (Z.of_nat n) 32); [lia|reflexivity].
    + intros -> _. simpl. exact Hrun.
Qed.

(** The theorem at a file of 33 registers, in a debug build. *)
Lemma GetBlockedRegistersForCall_defined_iff_witness :
  GetBlockedRegistersForCall true 33 (fun _ => true) = Halt DCheckFailed.
Proof.
  apply (proj1 (proj2 (GetBlockedRegistersForCall_defined_iff true 33
                         (fun _ => true)))).
  - reflexivity.
  - lia.
Defined.

(** X2. [GetBlockedRegistersForCall] asks the predicate about the registers
    of the file only, and for a file of at most 32 registers the mask
    tells the callee-saved registers of the file apart: two predicates give
    the same mask exactly when they agree on the file. *)
Theorem GetBlockedRegistersForCall_agree (dbg : bool) (n : nat)
    (p q : nat -> bool) :
  ((forall r, r < n -> p r = q r) ->
   GetBlockedRegistersForCall dbg n p = GetBlockedRegistersForCall dbg n q) /\
  (n <= 32 ->
   GetBlockedRegistersForCall dbg n p = GetBlockedRegistersForCall dbg n q ->
   forall r, r < n -> p r = q r).
Proof.
  split.
  - intros Hagree. unfold GetBlockedRegistersForCall.
    destruct (DCHECK dbg _); simpl; trivial.
    apply for_each_ext_in. intros r mask Hin.
    apply elem_of_seq in Hin.
    unfold GetBlockedRegistersForCall_body. now rewrite Hagree by lia.
  - intros Hn Heq r Hr.
    destruct (GetBlockedRegistersForCall_spec dbg n p Hn) as (mp & Hp & Hbp).
    destruct (GetBlockedRegistersForCall_spec dbg n q Hn) as (mq & Hq & Hbq).
    rewrite Hp, Hq in Heq. injection Heq as ->.
    specialize (Hbp r). rewrite Hbq in Hbp.
    destruct (Nat.ltb_spec r n); [|lia]. simpl in Hbp.
    destruct (p r), (q r); simpl in Hbp; congruence.
Qed.

Lemma GetBlockedRegistersForCall_agree_witness :
  GetBlockedRegistersForCall true 4 (fun r => r =? 3) =
  GetBlockedRegistersForCall true 4 (fun r => 3 <=? r).
Proof.
  apply (proj1 (GetBlockedRegistersForCall_agree true 4 (fun r => r =? 3)
                  (fun r => 3 <=? r))).
  intros r Hr.
  destruct (Nat.eqb_spec r 3), (Nat.leb_spec 3 r); try reflexivity; lia.
Defined.

(** X3. The mask of a file of at most 32 registers lies within the mask of
    all the registers of the file; it is that mask exactly when no
    register of the file is callee-saved, and empty exactly when all
    are. *)
Theorem GetBlockedRegistersForCall_extremes (dbg : bool) (n : nat)
    (is_callee_save : nat -> bool) (mask : Z) :
  n <= 32 ->
  GetBlockedRegistersForCall dbg n is_callee_save = Ok mask ->
  Z.land mask (MaxInt n) = mask /\
  (mask = MaxInt n <-> forall r, r < n -> is_callee_save r = false) /\
  (mask = 0%Z <-> forall r, r < n -> is_callee_save r = true).
Proof.
  intros Hn Hmask.
  destruct (GetBlockedRegistersForCall_spec dbg n is_callee_save Hn)
    as (mask' & Hrun & Hbits).
  rewrite Hrun in Hmask. injection Hmask as ->.
  assert (Hnat : forall m1 m2 : Z,
            (forall k : Z, (k < 0)%Z -> Z.testbit m1 k = Z.testbit m2 k) ->
            (forall r : nat,
               Z.testbit m1 (Z.of_nat r) = Z.testbit m2 (Z.of_nat r)) ->
            m1 = m2).
  { intros m1 m2 Hneg Hall. apply Z.bits_inj. intros k.
    destruct (Z.lt_ge_cases k 0) as [|Hk]; [auto|].
    rewrite <- (Z2Nat.id k) by lia. apply Hall. }
  split; [|split].
  - apply Hnat.
    + intros k Hk. now rewrite !Z.testbit_neg_r.
    + intros r. rewrite Z.land_spec, Hbits, MaxInt_bits by assumption.
      destruct (r <? n); simpl; [apply andb_true_r|reflexivity].
  - split.
    + intros Heq r Hr. specialize (Hbits r).
      rewrite Heq, MaxInt_bits in Hbits by assumption.
      destruct (Nat.ltb_spec r n); [|lia]. simpl in Hbits.
      now destruct (is_callee_save r).
    + intros Hall. apply Hnat.
      * intros k Hk. now rewrite !Z.testbit_neg_r.
      * intros r. rewrite Hbits, MaxInt_bits by assumption.
        destruct (Nat.ltb_spec r n); [|reflexivity]. simpl.
        now rewrite Hall.
  - split.
    + intros Heq r Hr. specialize (Hbits r).
      rewrite Heq, Z.bits_0 in Hbits.
      destruct (Nat.ltb_spec r n); [|lia]. simpl in Hbits.
      now destruct (is_callee_save r).
    + intros Hall. apply Hnat.
      * intros k Hk. now rewrite !Z.testbit_neg_r.
      * intros r. rewrite Hbits, Z.bits_0.
        destruct (Nat.ltb_spec r n); [|reflexivity]. simpl.
        now rewrite Hall.
Qed.

Lemma GetBlockedRegistersForCall_extremes_witness :
  Z.land 7 (MaxInt 4) = 7%Z /\
  (7%Z = MaxInt 4 <-> forall r, r < 4 -> (r =? 3) = false) /\
  (7%Z = 0%Z <-> forall r, r < 4 -> (r =? 3) = true).
Proof.
  apply (GetBlockedRegistersForCall_extremes true 4 (fun r => r =? 3) 7%Z).
  - lia.
  - reflexivity.
Defined.

(** ** The constructor and [GetRegisterMask] at their bounds *)

(** A mask without a bit at position [n] or above is below [2 ^ n]. *)
Lemma mask_below (n : nat) (mask : Z) :
  (forall r : nat, n <= r -> Z.testbit mask (Z.of_nat r) = false) ->
  (0 <= mask < 2 ^ Z.of_nat n)%Z.
Proof.
  intros Hbits.
  assert (Hhigh : forall k : Z, (Z.of_nat n <= k)%Z -> Z.testbit mask k = false).
  { intros k Hk. rewrite <- (Z2Nat.id k) by lia. apply Hbits. lia. }
  assert (Hnonneg : (0 <= mask)%Z).
  { destruct (Z.neg_nonneg_cases mask) as [Hneg|]; [|assumption].
    set (k := Z.max (Z.of_nat n) (Z.log2 (Z.pred (- mask)) + 1)).
    assert (Hset : Z.testbit mask k = true)
      by (apply Z.bits_above_log2_neg; lia).
    rewrite Hhigh in Hset by lia. discriminate. }
  split; [exact Hnonneg|].
  destruct (Z.eq_dec mask 0%Z) as [->|Hnz].
  { apply Z.pow_pos_nonneg; lia. }
  apply Z.log2_lt_pow2; [lia|].
  destruct (Z.lt_ge_cases (Z.log2 mask) (Z.of_nat n)) as [|Hge]; [assumption|].
  specialize (Hhigh _ Hge). rewrite Z.bit_log2 in Hhigh by lia. discriminate.
Qed.

(** X4. For register files of at most 32 registers the constructor returns an
    allocator that caches the two register counts of the code generator
    and, for each register type, the mask of the registers of that type
    that are not callee-saved; a debug build aborts on a larger file. *)
Theorem RegisterAllocator_new_caches (dbg : bool) (codegen : CodeGenerator)
    (liveness : SsaLivenessAnalysis) (graph : HGraph) :
  ((forall t, registers_of codegen t <= 32) ->
   exists ra,
     RegisterAllocator_new dbg codegen liveness graph = Ok ra /\
     codegen_ ra = codegen /\ liveness_ ra = liveness /\
     forall t,
       cached_registers ra t = registers_of codegen t /\
       (forall r : nat,
          Z.testbit (cached_blocked_for_call ra t) (Z.of_nat r) = true <->
          r < registers_of codegen t /\ callee_save_of codegen t r = false) /\
       (0 <= cached_blocked_for_call ra t
        < 2 ^ Z.of_nat (registers_of codegen t))%Z) /\
  ((exists t, 32 < registers_of codegen t) ->
   RegisterAllocator_new true codegen liveness graph = Halt DCheckFailed).
Proof.
  split.
  - intros Hfit.
    destruct (GetBlockedRegistersForCall_spec dbg _
                (callee_save_of codegen kCoreRegister) (Hfit kCoreRegister))
      as (core & Hcore & Hcore_bits).
    destruct (GetBlockedRegistersForCall_spec dbg _
                (callee_save_of codegen kFpRegister) (Hfit kFpRegister))
      as (fp & Hfp & Hfp_bits).
    simpl in Hcore, Hfp.
    exists (mkRegisterAllocator codegen liveness graph
              (GetNumberOfCoreRegisters codegen)
              (GetNumberOfFloatingPointRegisters codegen) core fp).
    split; [|split; [reflexivity|split; [reflexivity|]]].
    + unfold RegisterAllocator_new, GetBlockedCoreRegistersForCall,
        GetBlockedFpRegistersForCall.
      now rewrite Hcore, Hfp.
    + assert (Hbound : forall (n : nat) (mask : Z) (p : nat -> bool),
                (forall r : nat,
                   Z.testbit mask (Z.of_nat r) = (r <? n) && negb (p r)) ->
                (0 <= mask < 2 ^ Z.of_nat n)%Z).
      { intros n mask p Hbits. apply mask_below. intros r Hr.
        rewrite Hbits. destruct (Nat.ltb_spec r n); [lia|reflexivity]. }
      intros []; simpl.
      * split; [reflexivity|]. split.
        -- intros r. rewrite Hcore_bits, andb_true_iff, negb_true_iff,
             Nat.ltb_lt. reflexivity.
        -- now apply (Hbound _ _ (IsCoreCalleeSaveRegister codegen)).
      * split; [reflexivity|]. split.
        -- intros r. rewrite Hfp_bits, andb_true_iff, negb_true_iff,
             Nat.ltb_lt. reflexivity.
        -- now apply (Hbound _ _ (IsFloatingPointCalleeSaveRegister codegen)).
  - intros (t & Ht).
    unfold RegisterAllocator_new, GetBlockedCoreRegistersForCall,
      GetBlockedFpRegistersForCall, GetBlockedRegistersForCall.
    destruct t; simpl in Ht.
    + unfold DCHECK, uint32_bits. simpl.
      destruct (Z.leb_spec (Z.of_nat (GetNumberOfCoreRegisters codegen)) 32);
        [lia|reflexivity].
    + destruct (DCHECK true (Z.of_nat (GetNumberOfCoreRegisters codegen)
                             <=? uint32_bits)%Z) as [[]| |f] eqn:Hcheck.
      * simpl.
        destruct (for_each _ _ _) as [core| |f] eqn:Hloop; simpl.
        -- unfold DCHECK, uint32_bits. simpl.
           destruct (Z.leb_spec
                       (Z.of_nat (GetNumberOfFloatingPointRegisters codegen)) 32);
             [lia|reflexivity].
        -- exfalso.
           destruct (GetBlockedRegistersForCall_loop_defined
                       (IsCoreCalleeSaveRegister codegen)
                       (seq 0 (GetNumberOfCoreRegisters codegen)) 0%Z)
             as [[_ (m & Hm)]|[_ Hm]]; congruence.
        -- exfalso.
           unfold DCHECK, uint32_bits in Hcheck. simpl in Hcheck.
           destruct (Z.leb_spec
                       (Z.of_nat (GetNumberOfCoreRegisters codegen)) 32)
             as [Hle|]; [|discriminate].
           destruct (GetBlockedRegistersForCall_loop 
                       (IsCoreCalleeSaveRegister codegen)
                       (GetNumberOfCoreRegisters codegen) 0 0%Z)
             as (m & Hm & _); [lia|]. congruence.
      * unfold DCHECK in Hcheck. destruct (_ && _); discriminate.
      * unfold DCHECK in Hcheck. destruct (_ && _); [|discriminate].
        injection Hcheck as <-. reflexivity.
Qed.

(** The first part of the theorem at the code generator of the
    scenario. *)
Lemma RegisterAllocator_new_caches_witness :
  exists ra,
    RegisterAllocator_new true scenario_codegen (scenario_liveness true)
      scenario_graph = Ok ra /\
    codegen_ ra = scenario_codegen /\
    liveness_ ra = scenario_liveness true /\
    forall t,
      cached_registers ra t = registers_of scenario_codegen t /\
      (forall r : nat,
         Z.testbit (cached_blocked_for_call ra t) (Z.of_nat r) = true <->
         r < registers_of scenario_codegen t /\
         callee_save_of scenario_codegen t r = false) /\
      (0 <= cached_blocked_for_call ra t
       < 2 ^ Z.of_nat (registers_of scenario_codegen t))%Z.
Proof.
  apply (proj1 (RegisterAllocator_new_caches true scenario_codegen
                  (scenario_liveness true) scenario_graph)).
  intros []; simpl; lia.
Defined.

(** ** [GetRegisterMask] at its bounds *)

Lemma DCHECK_Ok (dbg c : bool) (u : unit) :
  DCHECK dbg c = Ok u -> dbg = true -> c = true.
Proof.
  unfold DCHECK. intros Hcheck ->. destruct c; [reflexivity|discriminate].
Qed.

Lemma DCHECK_fails (c : bool) : c = false -> DCHECK true c = Halt DCheckFailed.
Proof. now intros ->. Qed.

Lemma shl1_defined (reg : Z) (mask : Z) :
  shl1 reg = Ok mask <-> (0 <= reg < 32)%Z /\ mask = Z.shiftl 1 reg.
Proof.
  unfold shl1, uint32_bits.
  destruct (Z.leb_spec 0 reg); destruct (Z.ltb_spec reg 32); simpl;
    (split; [intros Hshift;
             first [discriminate
                   |injection Hshift as <-; split; [lia|reflexivity]]
            |intros [? ->]; first [lia|reflexivity]]).
Qed.

Lemma shl1_undefined (reg : Z) :
  (reg < 0 \/ 32 <= reg)%Z -> shl1 reg = Halt UndefinedBehaviour.
Proof.
  unfold shl1, uint32_bits. intros Hreg.
  destruct (Z.leb_spec 0 reg); destruct (Z.ltb_spec reg 32); simpl;
    try reflexivity; lia.
Qed.

Lemma DataType_eqb_eq (a b : DataType) : DataType_eqb a b = true <-> a = b.
Proof. destruct a, b; simpl; split; congruence. Qed.

(** X5. On an allocator for a register file of at most 32 registers,
    and an interval whose register is not [-1] (which stands for no
    register in the program), [GetRegisterMask] returns a mask exactly
    when: for an interval with a register, the register can be shifted to
    (0 to 31) and, in debug builds, the register type matches the value
    type; for a fixed interval without a register, the interval has a range
    and, in debug builds, is of type void.  The debug assertion on the
    register number admits register 32: it then passes, and the shift is
    undefined; any other register outside 0 to 31 aborts a debug build. *)
Theorem GetRegisterMask_defined_iff (dbg : bool) (ra : RegisterAllocator)
    (interval : LiveInterval) (t : RegisterType) :
  cached_registers ra t <= 32 ->
  register_ interval <> Some (-1)%Z ->
  ((exists mask, GetRegisterMask dbg ra interval t = Ok mask) <->
   match register_ interval with
   | Some reg =>
       (0 <= reg < 32)%Z /\
       (dbg = true ->
        is_fp_register t = IsFloatingPointType (type_ interval))
   | None =>
       is_fixed_ interval = true ->
       first_range_ interval <> [] /\
       (dbg = true -> type_ interval = kVoid)
   end) /\
  (register_ interval = Some 32%Z ->
   is_fp_register t = IsFloatingPointType (type_ interval) ->
   GetRegisterMask dbg ra interval t = Halt UndefinedBehaviour) /\
  (forall reg : Z,
     register_ interval = Some reg ->
     (- 2 ^ 31 <= reg < -1 \/ 32 < reg < 2 ^ 31)%Z ->
     GetRegisterMask true ra interval t = Halt DCheckFailed).
Proof.
  intros _ _. unfold GetRegisterMask. split; [|split].
  - destruct (register_ interval) as [reg|].
    + split.
      * intros (mask & Hmask).
        apply bind_Ok in Hmask as (u1 & Htype & Hmask).
        apply bind_Ok in Hmask as (u2 & _ & Hmask).
        apply shl1_defined in Hmask as [Hreg _]. split; [assumption|].
        intros Hdbg. now apply eqb_prop, (DCHECK_Ok dbg _ u1).
      * intros [Hreg Htype]. exists (Z.shiftl 1 reg).
        rewrite DCHECK_when
          by (intros Hdbg; rewrite Htype by assumption; apply eqb_reflx).
        rewrite DCHECK_when.
        2:{ intros _. apply Z.leb_le. unfold size_t, size_t_bits, uint32_bits.
            rewrite Z.mod_small; lia. }
        simpl. now apply shl1_defined.
    + destruct (is_fixed_ interval); [|split; [discriminate|eauto]].
      split.
      * intros (mask & Hmask) _.
        apply bind_Ok in Hmask as (u1 & Htype & Hmask).
        apply bind_Ok in Hmask as (u2 & _ & Hmask).
        apply bind_Ok in Hmask as (start & Hstart & _).
        split.
        -- unfold GetStart in Hstart. intros Hnil. rewrite Hnil in Hstart.
           discriminate.
        -- intros Hdbg. now apply DataType_eqb_eq, (DCHECK_Ok dbg _ u1).
      * intros Hfixed. destruct (Hfixed eq_refl) as [Hranges Htype].
        rewrite DCHECK_when
          by (intros Hdbg; apply DataType_eqb_eq; auto).
        rewrite DCHECK_when
          by (intros _; now apply negb_true_iff, bool_decide_eq_false).
        simpl. unfold GetStart.
        destruct (first_range_ interval); [contradiction|]. simpl.
        destruct t; eauto.
  - intros -> Htype. rewrite Htype, eqb_reflx, !DCHECK_true. reflexivity.
  - intros reg -> Hreg.
    destruct (eqb (is_fp_register t) (IsFloatingPointType (type_ interval)));
      [|reflexivity].
    rewrite DCHECK_true. simpl. rewrite DCHECK_fails; [reflexivity|].
    apply Z.leb_gt. unfold size_t, size_t_bits, uint32_bits.
    destruct Hreg as [Hneg|Hbig].
    + replace reg with (reg + 2 ^ 64 - 1 * 2 ^ 64)%Z at 1 by lia.
      unfold Z.sub at 1. rewrite <- Z.mul_opp_l, Z.mod_add by lia.
      rewrite Z.mod_small; lia.
    + rewrite Z.mod_small; lia.
Qed.

(** The second part of the theorem at an interval in register 32, on the
    allocator of the scenario with its four core registers. *)
Lemma GetRegisterMask_defined_iff_witness :
  GetRegisterMask true diamond_allocator
    (scenario_interval 4 8 (Some 32%Z) None 0 scenario_call false)
    kCoreRegister = Halt UndefinedBehaviour.
Proof.
  refine (proj1 (proj2 (GetRegisterMask_defined_iff true diamond_allocator
                          (scenario_interval 4 8 (Some 32%Z) None 0
                             scenario_call false) kCoreRegister _ _)) _ _).
  - simpl. lia.
  - discriminate.
  - reflexivity.
  - reflexivity.
Defined.

(** X6. An allocator built by the constructor for register files of at most
    32 registers, asked about an interval whose register, if it has one,
    is a register of the file: every register of the mask is a register of
    the file. *)
Theorem GetRegisterMask_within_register_file (dbg : bool)
    (codegen : CodeGenerator) (liveness : SsaLivenessAnalysis)
    (graph : HGraph) (ra : RegisterAllocator) (interval : LiveInterval)
    (t : RegisterType) (mask : Z) :
  registers_of codegen t <= 32 ->
  RegisterAllocator_new dbg codegen liveness graph = Ok ra ->
  (forall reg, register_ interval = Some reg ->
               (reg < Z.of_nat (registers_of codegen t))%Z) ->
  GetRegisterMask dbg ra interval t = Ok mask ->
  (forall k : Z, Z.testbit mask k = true ->
                 (0 <= k < Z.of_nat (registers_of codegen t))%Z) /\
  (0 <= mask < 2 ^ Z.of_nat (registers_of codegen t))%Z /\
  Forall (fun reg => reg < registers_of codegen t) (LowToHighBits mask).
Proof.
  intros Hn Hnew Hreg Hmask.
  destruct (RegisterAllocator_new_cached dbg codegen liveness graph ra t Hnew)
    as (_ & Hcount & Hblocked).
  destruct (GetBlockedRegistersForCall_spec dbg _ (callee_save_of codegen t) Hn)
    as (blocked & Hrun & Hblocked_bits).
  rewrite Hrun in Hblocked. injection Hblocked as Hblocked.
  assert (Hbits : forall r : nat,
            Z.testbit mask (Z.of_nat r) = true -> r < registers_of codegen t).
  { intros r Hbit. unfold GetRegisterMask in Hmask.
    destruct (register_ interval) as [reg|].
    - apply bind_Ok in Hmask as (u1 & _ & Hmask).
      apply bind_Ok in Hmask as (u2 & _ & Hmask).
      apply shl1_defined in Hmask as [Hrange ->].
      specialize (Hreg reg eq_refl).
      rewrite Z.shiftl_1_l, Z.pow2_bits_eqb in Hbit by lia.
      apply Z.eqb_eq in Hbit. lia.
    - destruct (is_fixed_ interval).
      + apply bind_Ok in Hmask as (u1 & _ & Hmask).
        apply bind_Ok in Hmask as (u2 & _ & Hmask).
        apply bind_Ok in Hmask as (start & _ & Hmask).
        assert (Hcases : mask = cached_blocked_for_call ra t \/
                         mask = MaxInt (cached_registers ra t)).
        { destruct t; simpl;
            destruct (GetInstructionFromPosition _ _);
            injection Hmask as <-; auto. }
        destruct Hcases as [->| ->].
        * rewrite <- Hblocked, Hblocked_bits in Hbit.
          apply andb_true_iff in Hbit as [Hlt _]. now apply Nat.ltb_lt.
        * rewrite Hcount, MaxInt_bits in Hbit by assumption.
          now apply Nat.ltb_lt.
      + injection Hmask as <-. rewrite Z.bits_0 in Hbit. discriminate. }
  assert (Hnonneg : forall k : Z, Z.testbit mask k = true -> (0 <= k)%Z).
  { intros k Hbit. destruct (Z.lt_ge_cases k 0); [|assumption].
    rewrite Z.testbit_neg_r in Hbit by assumption. discriminate. }
  split; [|split].
  - intros k Hbit. split; [auto|].
    rewrite <- (Z2Nat.id k) in Hbit by auto.
    apply Hbits in Hbit. specialize (Hnonneg k). lia.
  - apply mask_below. intros r Hr.
    destruct (Z.testbit mask (Z.of_nat r)) eqn:Hbit; [|reflexivity].
    apply Hbits in Hbit. lia.
  - apply Forall_forall. intros reg Hin.
    apply LowToHighBits_spec in Hin as [Hbit _]. auto.
Qed.

(** The theorem at the fixed interval of the scenario, at a call. *)
Lemma GetRegisterMask_within_register_file_witness :
  (forall k : Z, Z.testbit 7 k = true -> (0 <= k < Z.of_nat 4)%Z) /\
  (0 <= 7 < 2 ^ Z.of_nat 4)%Z /\
  Forall (fun reg => reg < 4) (LowToHighBits 7).
Proof.
  apply (GetRegisterMask_within_register_file true scenario_codegen
           (scenario_liveness true) scenario_graph
           (mkRegisterAllocator scenario_codegen (scenario_liveness true)
              scenario_graph 4 0 7 0)
           scenario_fixed kCoreRegister 7%Z).
  - simpl. lia.
  - reflexivity.
  - intros reg Hreg. discriminate.
  - reflexivity.
Defined.

(** ** The outcomes that a piece of code can have *)

Section Confined.
Context {returns : bool -> Prop} {halts : failure -> Prop}.

Lemma bind_confined {A B : Type} (m : result A) (k : A -> result B) :
  confined returns halts m ->
  (forall a, m = Ok a -> confined returns halts (k a)) ->
  confined returns halts (bind m k).
Proof. destruct m; simpl; auto. Qed.

Lemma for_each_confined {A S : Type} (body : A -> S -> result S)
    (l : list A) (s : S) :
  (forall x s, confined returns halts (body x s)) ->
  confined returns halts (for_each body l s).
Proof.
  intros Hbody. revert s. induction l as [|x l IH]; intros s; simpl.
  - exact I.
  - apply bind_confined; auto.
Qed.

Lemma all_ranges_loop_confined {S : Type} (fuel : nat)
    (h : list LiveInterval) (body : AllRangesIterator -> S -> result S)
    (it : AllRangesIterator) (s : S) :
  halts OutOfFuel -> halts UndefinedBehaviour ->
  (forall it s, confined returns halts (body it s)) ->
  confined returns halts (all_ranges_loop fuel h body it s).
Proof.
  intros Hfuel Hub Hbody. revert it s.
  induction fuel as [|fuel IH]; intros it s; simpl; [assumption|].
  destruct (Done it); [exact I|].
  apply bind_confined; [apply Hbody|]. intros s' _.
  apply bind_confined; [|auto].
  unfold Advance, CurrentInterval, deref.
  destruct (current_range_ it) as [|r [|next rest]]; simpl; auto.
  destruct (current_interval_ it) as [p|]; simpl; auto.
  destruct (h !! p) as [i|]; simpl; auto.
  destruct (next_sibling_ i) as [q|]; simpl; auto.
  destruct (h !! q); simpl; auto.
Qed.

Lemma for_all_ranges_confined {S : Type} (fuel : nat)
    (h : list LiveInterval) (body : AllRangesIterator -> S -> result S)
    (start_interval : nat) (s : S) :
  halts OutOfFuel -> halts UndefinedBehaviour ->
  (forall it s, confined returns halts (body it s)) ->
  confined returns halts (for_all_ranges fuel h body start_interval s).
Proof.
  intros Hfuel Hub Hbody. unfold for_all_ranges.
  apply bind_confined.
  - unfold AllRangesIterator_new, deref.
    destruct (h !! start_interval); simpl; auto.
  - intros it _. now apply all_ranges_loop_confined.
Qed.

End Confined.

Lemma confined_impl {A : Type} (returns returns' : bool -> Prop)
    (halts halts' : failure -> Prop) (r : result A) :
  (forall b, returns b -> returns' b) ->
  (forall f, halts f -> halts' f) ->
  confined returns halts r -> confined returns' halts' r.
Proof. destruct r; simpl; auto. Qed.

Section ValidatorOutcomes.
Variable dbg : bool.
Variable kVRegSize : Z.
Variable liveness : option SsaLivenessAnalysis.
Variable fatal : bool.

Let halts := validator_halts dbg liveness fatal.
Let returns := validator_returns fatal.
Let never (_ : bool) := False.

Lemma DCHECK_confined (c : bool) (R : bool -> Prop) :
  confined R halts (DCHECK dbg c).
Proof.
  unfold DCHECK, halts. destruct dbg; simpl; [|exact I].
  destruct c; simpl; [exact I|reflexivity].
Qed.

Lemma shl1_confined (reg : Z) (R : bool -> Prop) :
  confined R halts (shl1 reg).
Proof. unfold shl1. destruct (_ && _); exact I. Qed.

Lemma GetBlockedRegistersForCall_confined (n : nat) (p : nat -> bool) :
  confined never halts (GetBlockedRegistersForCall dbg n p).
Proof.
  unfold GetBlockedRegistersForCall.
  apply bind_confined; [apply DCHECK_confined|]. intros _ _.
  apply for_each_confined. intros r mask.
  unfold GetBlockedRegistersForCall_body.
  destruct (negb (p r)); [|exact I].
  apply bind_confined; [apply shl1_confined|]. intros; exact I.
Qed.

Lemma get_register_mask_confined (t : RegisterType) (n : nat) (blocked : Z)
    (i : LiveInterval) :
  confined never halts (get_register_mask dbg t n blocked liveness i).
Proof.
  unfold get_register_mask.
  destruct (register_ i) as [reg|].
  - apply bind_confined; [apply DCHECK_confined|]. intros _ _.
    apply bind_confined; [apply DCHECK_confined|]. intros _ _.
    apply shl1_confined.
  - destruct (is_fixed_ i); [|exact I].
    apply bind_confined; [apply DCHECK_confined|]. intros _ _.
    apply bind_confined; [apply DCHECK_confined|]. intros _ _.
    apply bind_confined.
    + unfold GetStart. destruct (first_range_ i); exact I.
    + intros start _. destruct liveness eqn:Hl; [exact I|].
      unfold halts. simpl. now left.
Qed.

Lemma SetBit_confined (bv : list bool) (j : nat) (R : bool -> Prop) :
  confined R halts (SetBit bv j).
Proof. unfold SetBit. destruct (j <? length bv); exact I. Qed.

Lemma vector_at_confined {A : Type} (v : list A) (idx : Z) (R : bool -> Prop) :
  confined R halts (vector_at v idx).
Proof. unfold vector_at. destruct (v !! Z.to_nat idx); exact I. Qed.

Lemma mark_spill_slot_confined (j : nat) (bv : list bool) :
  confined returns halts (mark_spill_slot fatal j bv).
Proof.
  unfold mark_spill_slot.
  destruct (IsBitSet bv j); [|apply SetBit_confined].
  unfold returns, validator_returns, halts.
  destruct fatal; simpl; auto.
Qed.

Section Masks.
Variable h : list LiveInterval.
Variable codegen : CodeGenerator.
Variable mask_of : LiveInterval -> result Z.
Variable intervals : list nat.
Variable register_type : RegisterType.
Hypothesis mask_of_confined : forall i, confined never halts (mask_of i).

Lemma mask_of_confined_returns (i : LiveInterval) :
  confined returns halts (mask_of i).
Proof.
  eapply confined_impl; [| |apply mask_of_confined]; [intros b []|auto].
Qed.

Lemma dump_register_conflict_confined (j reg : nat) :
  fatal = true ->
  confined returns halts (dump_register_conflict h mask_of intervals j reg).
Proof.
  intros Hfatal. unfold dump_register_conflict.
  apply bind_confined.
  - apply for_each_confined. intros p [].
    apply bind_confined.
    + unfold deref. destruct (h !! p); exact I.
    + intros i _. apply bind_confined; [apply mask_of_confined_returns|].
      intros; exact I.
  - intros _ _. exact Hfatal.
Qed.

Lemma mark_register_confined (current : LiveInterval) (reg j : nat)
    (bv : list bool) :
  confined returns halts
    (mark_register h mask_of intervals fatal current reg j bv).
Proof.
  unfold mark_register.
  destruct (IsBitSet bv j); [|apply SetBit_confined].
  destruct (_ && _); [exact I|].
  destruct (bool_dec fatal true) as [Hfatal|Hfatal].
  - rewrite Hfatal at 1. now apply dump_register_conflict_confined.
  - apply not_true_is_false in Hfatal. rewrite Hfatal at 1.
    unfold returns, validator_returns. simpl. auto.
Qed.

Lemma mark_registers_confined (current : LiveInterval)
    (it : AllRangesIterator) (reg : nat) (t : list (list bool)) :
  confined returns halts
    (mark_registers dbg h codegen mask_of intervals register_type fatal
       current it reg t).
Proof.
  unfold mark_registers.
  apply bind_confined.
  - destruct (dbg && fatal && negb (is_fixed_ current)) eqn:Hcheck;
      [|exact I].
    apply andb_true_iff in Hcheck as [Hcheck _].
    apply andb_true_iff in Hcheck as [Hdbg Hfatal].
    unfold CHECK. destruct (HasAllocatedRegister _ _ _); [exact I|].
    unfold halts. simpl. auto.
  - intros _ _. apply bind_confined; [apply vector_at_confined|].
    intros bv _. apply bind_confined.
    + unfold CurrentRange. destruct (current_range_ it); exact I.
    + intros range _. apply bind_confined; [|intros; exact I].
      apply for_each_confined. intros j bv'. apply mark_register_confined.
Qed.

Lemma validate_range_confined (number_of_registers number_of_out_slots : nat)
    (it : AllRangesIterator) (t : list (list bool)) :
  confined returns halts
    (validate_range dbg kVRegSize h codegen mask_of intervals
       number_of_registers number_of_out_slots register_type fatal it t).
Proof.
  unfold validate_range.
  apply bind_confined.
  { unfold CurrentInterval, deref.
    destruct (current_interval_ it) as [p|]; [|exact I].
    destruct (h !! p); exact I. }
  intros current _. apply bind_confined.
  { unfold deref. destruct (h !! parent_ current); exact I. }
  intros parent _. apply bind_confined.
  { destruct (spill_slot_ parent) as [slot|]; [|exact I].
    destruct (negb _); [|exact I].
    apply bind_confined; [apply vector_at_confined|]. intros bv _.
    apply bind_confined.
    { unfold CurrentRange. destruct (current_range_ it); exact I. }
    intros range _. apply bind_confined; [|intros; exact I].
    apply for_each_confined. intros j bv'. apply mark_spill_slot_confined. }
  intros t' _. apply bind_confined; [apply mask_of_confined_returns|].
  intros mask _. apply for_each_confined. intros reg t''.
  apply mark_registers_confined.
Qed.

End Masks.

(** The outcomes of [ValidateIntervals], whatever it is given. *)
Lemma ValidateIntervals_confined (fuel : nat) (h : list LiveInterval)
    (intervals : list nat) (number_of_spill_slots number_of_out_slots : nat)
    (codegen : CodeGenerator) (register_type : RegisterType) :
  match ValidateIntervals dbg kVRegSize fuel h intervals number_of_spill_slots
          number_of_out_slots codegen liveness register_type fatal with
  | Ok b => b = false -> fatal = false
  | Return _ => False
  | Halt f => halts f
  end.
Proof.
  unfold ValidateIntervals.
  assert (Hblocked : forall n,
            confined never halts
              (match register_type with
               | kCoreRegister => GetBlockedCoreRegistersForCall dbg n codegen
               | kFpRegister => GetBlockedFpRegistersForCall dbg n codegen
               end)).
  { intros n. destruct register_type; apply GetBlockedRegistersForCall_confined. }
  specialize (Hblocked (match register_type with
                        | kCoreRegister => GetNumberOfCoreRegisters codegen
                        | kFpRegister => GetNumberOfFloatingPointRegisters codegen
                        end)).
  destruct (match register_type with
            | kCoreRegister => GetBlockedCoreRegistersForCall dbg _ codegen
            | kFpRegister => GetBlockedFpRegistersForCall dbg _ codegen
            end) as [blocked|b|f]; simpl in *; try assumption.
  assert (Hmax : confined never halts
                   (for_each (for_all_ranges fuel h max_end_range) intervals 0)).
  { apply for_each_confined. intros p m.
    apply for_all_ranges_confined; [exact I|exact I|]. intros it m'.
    unfold max_end_range.
    apply bind_confined; [|intros; exact I].
    unfold CurrentRange. destruct (current_range_ it); exact I. }
  destruct (for_each (for_all_ranges fuel h max_end_range) intervals 0)
    as [max_end|b|f]; simpl in *; try assumption.
  match goal with
  | |- match returning (bind ?m _) with _ => _ end =>
      assert (Hrun : confined returns halts m); [|destruct m as [t|b|f]]
  end.
  - apply for_each_confined. intros p t.
    apply for_all_ranges_confined; [exact I|exact I|]. intros it t'.
    apply validate_range_confined. intros i.
    apply get_register_mask_confined.
  - simpl. discriminate.
  - simpl in *. destruct Hrun as [Hfatal ->]. auto.
  - simpl in *. assumption.
Qed.

End ValidatorOutcomes.

(** X7. How [ValidateIntervals] reports a conflict follows the mode: with
    [log_fatal_on_failure] it never returns false, and without it never
    stops with a conflict message. *)
Theorem ValidateIntervals_reports_by_mode (dbg : bool) (kVRegSize : Z)
    (fuel : nat) (h : list LiveInterval) (intervals : list nat)
    (number_of_spill_slots number_of_out_slots : nat)
    (codegen : CodeGenerator) (liveness : option SsaLivenessAnalysis)
    (register_type : RegisterType) :
  let validate :=
    ValidateIntervals dbg kVRegSize fuel h intervals number_of_spill_slots
      number_of_out_slots codegen liveness register_type in
  validate true <> Ok false /\
  (forall j, validate false <> Halt (SpillSlotConflict j)) /\
  (forall j reg, validate false <> Halt (RegisterConflict j reg)).
Proof.
  intros validate.
  pose proof (ValidateIntervals_confined dbg kVRegSize liveness true fuel h
                intervals number_of_spill_slots number_of_out_slots codegen
                register_type) as Hfatal.
  pose proof (ValidateIntervals_confined dbg kVRegSize liveness false fuel h
                intervals number_of_spill_slots number_of_out_slots codegen
                register_type) as Hnonfatal.
  fold validate in Hfatal, Hnonfatal.
  split; [|split].
  - intros Heq. rewrite Heq in Hfatal. specialize (Hfatal eq_refl).
    discriminate.
  - intros j Heq. rewrite Heq in Hnonfatal. discriminate.
  - intros j reg Heq. rewrite Heq in Hnonfatal. discriminate.
Qed.

(** X8. The assertions that can stop [ValidateIntervals]: a release build
    never fails a debug assertion, and a CHECK fails only without a
    liveness analysis or in the fatal mode of a debug build. *)
Theorem ValidateIntervals_assertions (dbg : bool) (kVRegSize : Z)
    (fuel : nat) (h : list LiveInterval) (intervals : list nat)
    (number_of_spill_slots number_of_out_slots : nat)
    (codegen : CodeGenerator) (liveness : option SsaLivenessAnalysis)
    (register_type : RegisterType) (fatal : bool) :
  let outcome :=
    ValidateIntervals dbg kVRegSize fuel h intervals number_of_spill_slots
      number_of_out_slots codegen liveness register_type fatal in
  (outcome = Halt DCheckFailed -> dbg = true) /\
  (outcome = Halt CheckFailed ->
   liveness = None \/ (dbg = true /\ fatal = true)).
Proof.
  intros outcome.
  pose proof (ValidateIntervals_confined dbg kVRegSize liveness fatal fuel h
                intervals number_of_spill_slots number_of_out_slots codegen
                register_type) as Hconfined.
  fold outcome in Hconfined.
  split; intros Heq; rewrite Heq in Hconfined; exact Hconfined.
Qed.

(** ** Builds and modes that differ by an abort only *)

Lemma agrees_refl {A : Type} (e : excuse) (r : result A) : agrees_unless e r r.
Proof. now destruct e, r. Qed.

(** The two runs do the same. *)
Ltac same_outcome := first [reflexivity | apply agrees_refl].

Lemma bind_agrees {A B : Type} (e : excuse) (m1 m2 : result A)
    (k1 k2 : A -> result B) :
  agrees_unless e m1 m2 ->
  (forall a, agrees_unless e (k1 a) (k2 a)) ->
  agrees_unless e (bind m1 k1) (bind m2 k2).
Proof.
  intros Hm Hk.
  destruct e, m1 as [a|b|f]; simpl in Hm; subst; simpl;
    first [apply Hk|exact I|reflexivity].
Qed.

Lemma for_each_agrees {A S : Type} (e : excuse) (f g : A -> S -> result S)
    (l : list A) (s : S) :
  (forall x s, agrees_unless e (f x s) (g x s)) ->
  agrees_unless e (for_each f l s) (for_each g l s).
Proof.
  intros Hbody. revert s. induction l as [|x l IH]; intros s; simpl.
  - apply agrees_refl.
  - apply bind_agrees; auto.
Qed.

Lemma all_ranges_loop_agrees {S : Type} (e : excuse) (fuel : nat)
    (h : list LiveInterval) (f g : AllRangesIterator -> S -> result S)
    (it : AllRangesIterator)
    (s : S) :
  (forall it s, agrees_unless e (f it s) (g it s)) ->
  agrees_unless e (all_ranges_loop fuel h f it s)
                   (all_ranges_loop fuel h g it s).
Proof.
  intros Hbody. revert it s.
  induction fuel as [|fuel IH]; intros it s; simpl; [apply agrees_refl|].
  destruct (Done it); [apply agrees_refl|].
  apply bind_agrees; [apply Hbody|]. intros s'.
  apply bind_agrees; [apply agrees_refl|]. auto.
Qed.

Lemma for_all_ranges_agrees {S : Type} (e : excuse) (fuel : nat)
    (h : list LiveInterval) (f g : AllRangesIterator -> S -> result S)
    (start_interval : nat)
    (s : S) :
  (forall it s, agrees_unless e (f it s) (g it s)) ->
  agrees_unless e (for_all_ranges fuel h f start_interval s)
                   (for_all_ranges fuel h g start_interval s).
Proof.
  intros Hbody. unfold for_all_ranges.
  apply bind_agrees; [apply agrees_refl|]. intros it.
  now apply all_ranges_loop_agrees.
Qed.

Lemma returning_agrees (r1 r2 : result bool) :
  agrees_unless Aborts r1 r2 ->
  agrees_unless Aborts (returning r1) (returning r2).
Proof. destruct r1; simpl; intros; subst; simpl; auto. Qed.

Section Builds.
(** A build and a mode, and a build and a mode that abort less: the
    second is a release build unless the first is a debug build too, and
    is non-fatal unless the first is fatal too. *)
Variables dbg dbg' : bool.
Variables fatal fatal' : bool.
Variable kVRegSize : Z.
Hypothesis fewer_assertions : dbg' = true -> dbg = true.
Hypothesis fewer_aborts : fatal' = true -> fatal = true.

Lemma DCHECK_agrees (c : bool) :
  agrees_unless Aborts (DCHECK dbg c) (DCHECK dbg' c).
Proof.
  unfold DCHECK. destruct c; simpl.
  - now rewrite !andb_false_r.
  - rewrite !andb_true_r. destruct dbg; [exact I|].
    destruct dbg'; [|same_outcome].
    now specialize (fewer_assertions eq_refl).
Qed.

Lemma GetBlockedRegistersForCall_agrees (n : nat) (p : nat -> bool) :
  agrees_unless Aborts (GetBlockedRegistersForCall dbg n p)
                   (GetBlockedRegistersForCall dbg' n p).
Proof.
  unfold GetBlockedRegistersForCall.
  apply bind_agrees; [apply DCHECK_agrees|]. intros _. apply agrees_refl.
Qed.

Lemma get_register_mask_builds (t : RegisterType) (n : nat) (blocked : Z)
    (liveness : option SsaLivenessAnalysis) (i : LiveInterval) :
  agrees_unless Aborts (get_register_mask dbg t n blocked liveness i)
                   (get_register_mask dbg' t n blocked liveness i).
Proof.
  unfold get_register_mask.
  destruct (register_ i) as [reg|].
  - apply bind_agrees; [apply DCHECK_agrees|]. intros _.
    apply bind_agrees; [apply DCHECK_agrees|]. intros _. apply agrees_refl.
  - destruct (is_fixed_ i); [|same_outcome].
    apply bind_agrees; [apply DCHECK_agrees|]. intros _.
    apply bind_agrees; [apply DCHECK_agrees|]. intros _. apply agrees_refl.
Qed.

Lemma mark_spill_slot_agrees (j : nat) (bv : list bool) :
  agrees_unless Aborts (mark_spill_slot fatal j bv)
                       (mark_spill_slot fatal' j bv).
Proof.
  unfold mark_spill_slot.
  destruct (IsBitSet bv j); [|same_outcome].
  destruct fatal; [exact I|].
  destruct fatal'; [|same_outcome].
  now specialize (fewer_aborts eq_refl).
Qed.

Section Masks.
Variable h : list LiveInterval.
Variable codegen : CodeGenerator.
Variables m1 m2 : LiveInterval -> result Z.
Variable intervals : list nat.
Variable register_type : RegisterType.
Hypothesis masks_agree : forall i, agrees_unless Aborts (m1 i) (m2 i).
Hypothesis masks_never_return : forall i b, m1 i <> Return b.

Lemma dump_register_conflict_halts (j reg : nat) :
  exists f, dump_register_conflict h m1 intervals j reg = Halt f.
Proof.
  unfold dump_register_conflict.
  assert (Hloop : forall u,
            match for_each (fun interval (_ : unit) =>
                              let* i := deref h interval in
                              let* _ := m1 i in Ok tt) intervals u with
            | Return _ => False
            | _ => True
            end).
  { induction intervals as [|p ps IH]; intros []; simpl; [exact I|].
    unfold deref. destruct (h !! p) as [i|]; simpl; [|exact I].
    destruct (m1 i) as [mask|b|f] eqn:Hmask; simpl; [apply IH| |exact I].
    now apply (masks_never_return i b). }
  specialize (Hloop tt).
  destruct (for_each _ intervals tt); simpl; eauto. contradiction.
Qed.

Lemma dump_register_conflict_agrees (j reg : nat) :
  agrees_unless Aborts (dump_register_conflict h m1 intervals j reg)
                   (dump_register_conflict h m2 intervals j reg).
Proof.
  destruct (dump_register_conflict_halts j reg) as (f & ->). exact I.
Qed.

Lemma mark_register_agrees (current : LiveInterval) (reg j : nat)
    (bv : list bool) :
  agrees_unless Aborts (mark_register h m1 intervals fatal current reg j bv)
                   (mark_register h m2 intervals fatal' current reg j bv).
Proof.
  unfold mark_register.
  destruct (IsBitSet bv j); [|same_outcome].
  destruct (_ && _); [same_outcome|].
  destruct fatal.
  - destruct (dump_register_conflict_halts j reg) as (f & ->). exact I.
  - destruct fatal'; [|same_outcome].
    now specialize (fewer_aborts eq_refl).
Qed.

Lemma allocated_check_agrees (current : LiveInterval) (reg : nat) :
  agrees_unless Aborts
    (if dbg && fatal && negb (is_fixed_ current)
     then CHECK (HasAllocatedRegister codegen
                   (negb (is_fp_register register_type)) reg)
     else Ok tt)
    (if dbg' && fatal' && negb (is_fixed_ current)
     then CHECK (HasAllocatedRegister codegen
                   (negb (is_fp_register register_type)) reg)
     else Ok tt).
Proof.
  unfold CHECK.
  destruct (HasAllocatedRegister _ _ _).
  - now destruct (_ && _ && _), (_ && _ && _).
  - destruct (dbg && fatal && negb (is_fixed_ current)) eqn:Hcheck;
      [exact I|].
    destruct (dbg' && fatal' && negb (is_fixed_ current)) eqn:Hcheck';
      [|same_outcome].
    apply andb_true_iff in Hcheck' as [Hcheck' Hfixed].
    apply andb_true_iff in Hcheck' as [Hdbg Hfatal].
    rewrite fewer_assertions, fewer_aborts, Hfixed in Hcheck by assumption.
    discriminate.
Qed.

Lemma mark_registers_agrees (current : LiveInterval)
    (it : AllRangesIterator) (reg : nat) (t : list (list bool)) :
  agrees_unless Aborts
    (mark_registers dbg h codegen m1 intervals register_type fatal current
       it reg t)
    (mark_registers dbg' h codegen m2 intervals register_type fatal' current
       it reg t).
Proof.
  unfold mark_registers.
  apply bind_agrees; [apply allocated_check_agrees|]. intros _.
  apply bind_agrees; [same_outcome|]. intros bv.
  apply bind_agrees; [same_outcome|]. intros range.
  apply bind_agrees; [|intros; apply agrees_refl].
  apply for_each_agrees. intros j bv'. apply mark_register_agrees.
Qed.

Lemma validate_range_agrees (number_of_registers number_of_out_slots : nat)
    (it : AllRangesIterator) (t : list (list bool)) :
  agrees_unless Aborts
    (validate_range dbg kVRegSize h codegen m1 intervals number_of_registers
       number_of_out_slots register_type fatal it t)
    (validate_range dbg' kVRegSize h codegen m2 intervals number_of_registers
       number_of_out_slots register_type fatal' it t).
Proof.
  unfold validate_range.
  apply bind_agrees; [same_outcome|]. intros current.
  apply bind_agrees; [same_outcome|]. intros parent.
  apply bind_agrees.
  { destruct (spill_slot_ parent) as [slot|]; [|same_outcome].
    destruct (negb _); [|same_outcome].
    apply bind_agrees; [same_outcome|]. intros bv.
    apply bind_agrees; [same_outcome|]. intros range.
    apply bind_agrees; [|intros; apply agrees_refl].
    apply for_each_agrees. intros j bv'. apply mark_spill_slot_agrees. }
  intros t'. apply bind_agrees; [apply masks_agree|]. intros mask.
  apply for_each_agrees. intros reg t''. apply mark_registers_agrees.
Qed.

End Masks.

(** A run of [ValidateIntervals] stops, or the run in the build and mode
    that abort less has the same outcome. *)
Lemma ValidateIntervals_agrees (fuel : nat) (h : list LiveInterval)
    (intervals : list nat) (number_of_spill_slots number_of_out_slots : nat)
    (codegen : CodeGenerator) (liveness : option SsaLivenessAnalysis)
    (register_type : RegisterType) :
  agrees_unless Aborts
    (ValidateIntervals dbg kVRegSize fuel h intervals number_of_spill_slots
       number_of_out_slots codegen liveness register_type fatal)
    (ValidateIntervals dbg' kVRegSize fuel h intervals number_of_spill_slots
       number_of_out_slots codegen liveness register_type fatal').
Proof.
  unfold ValidateIntervals.
  apply bind_agrees.
  { destruct register_type; apply GetBlockedRegistersForCall_agrees. }
  intros blocked. apply bind_agrees; [same_outcome|].
  intros max_end.
  apply returning_agrees.
  apply bind_agrees; [|intros; apply agrees_refl].
  apply for_each_agrees. intros p t.
  apply for_all_ranges_agrees. intros it t'.
  apply validate_range_agrees.
  - intros i. apply get_register_mask_builds.
  - intros i b Hreturn.
    pose proof (get_register_mask_confined dbg liveness fatal register_type
                  (match register_type with
                   | kCoreRegister => GetNumberOfCoreRegisters codegen
                   | kFpRegister => GetNumberOfFloatingPointRegisters codegen
                   end) blocked i) as Hconfined.
    rewrite Hreturn in Hconfined. exact Hconfined.
Qed.

End Builds.

Section ReleaseModes.
(** The two modes of a release build. *)
Variable kVRegSize : Z.
Variable h : list LiveInterval.
Variable codegen : CodeGenerator.
Variable mask_of : LiveInterval -> result Z.
Variable intervals : list nat.
Variable register_type : RegisterType.

Lemma mark_spill_slot_modes (j : nat) (bv : list bool) :
  agrees_unless Returns (mark_spill_slot false j bv)
                        (mark_spill_slot true j bv).
Proof.
  unfold mark_spill_slot.
  destruct (IsBitSet bv j); [exact I|apply agrees_refl].
Qed.

Lemma mark_register_modes (current : LiveInterval) (reg j : nat)
    (bv : list bool) :
  agrees_unless Returns
    (mark_register h mask_of intervals false current reg j bv)
    (mark_register h mask_of intervals true current reg j bv).
Proof.
  unfold mark_register.
  destruct (IsBitSet bv j); [|apply agrees_refl].
  destruct (_ && _); [reflexivity|exact I].
Qed.

Lemma validate_range_modes (number_of_registers number_of_out_slots : nat)
    (it : AllRangesIterator) (t : list (list bool)) :
  agrees_unless Returns
    (validate_range false kVRegSize h codegen mask_of intervals
       number_of_registers number_of_out_slots register_type false it t)
    (validate_range false kVRegSize h codegen mask_of intervals
       number_of_registers number_of_out_slots register_type true it t).
Proof.
  unfold validate_range.
  apply bind_agrees; [apply agrees_refl|]. intros current.
  apply bind_agrees; [apply agrees_refl|]. intros parent.
  apply bind_agrees.
  { destruct (spill_slot_ parent) as [slot|]; [|reflexivity].
    destruct (negb _); [|reflexivity].
    apply bind_agrees; [apply agrees_refl|]. intros bv.
    apply bind_agrees; [apply agrees_refl|]. intros range.
    apply bind_agrees; [|intros; apply agrees_refl].
    apply for_each_agrees. intros j bv'. apply mark_spill_slot_modes. }
  intros t'. apply bind_agrees; [apply agrees_refl|]. intros mask.
  apply for_each_agrees. intros reg t''.
  unfold mark_registers.
  apply bind_agrees; [exact (agrees_refl Returns (Ok tt))|]. intros _.
  apply bind_agrees; [apply agrees_refl|]. intros bv.
  apply bind_agrees; [apply agrees_refl|]. intros range.
  apply bind_agrees; [|intros; apply agrees_refl].
  apply for_each_agrees. intros j bv'. apply mark_register_modes.
Qed.

End ReleaseModes.

(** In a release build, a non-fatal run of [ValidateIntervals] that does
    not return false has the outcome of the fatal run. *)
Lemma ValidateIntervals_release_modes (kVRegSize : Z) (fuel : nat)
    (h : list LiveInterval) (intervals : list nat)
    (number_of_spill_slots number_of_out_slots : nat)
    (codegen : CodeGenerator) (liveness : option SsaLivenessAnalysis)
    (register_type : RegisterType) :
  let validate :=
    ValidateIntervals false kVRegSize fuel h intervals number_of_spill_slots
      number_of_out_slots codegen liveness register_type in
  validate false = Ok false \/ validate true = validate false.
Proof.
  intros validate. unfold validate, ValidateIntervals.
  destruct (match register_type with
            | kCoreRegister => GetBlockedCoreRegistersForCall false _ codegen
            | kFpRegister => GetBlockedFpRegistersForCall false _ codegen
            end) as [blocked|b|f]; simpl; auto.
  destruct (for_each (for_all_ranges fuel h max_end_range) intervals 0)
    as [max_end|b|f]; simpl; auto.
  match goal with
  | |- returning (bind ?m1 _) = _ \/ returning (bind ?m2 _) = _ =>
      assert (Hmodes : agrees_unless Returns m1 m2)
  end.
  { apply for_each_agrees. intros p t.
    apply for_all_ranges_agrees. intros it t'. apply validate_range_modes. }
  match goal with
  | |- returning (bind ?m1 _) = _ \/ _ => destruct m1 as [t|b|f] eqn:Hnonfatal
  end; simpl in Hmodes.
  - right. now rewrite <- Hmodes.
  - left.
    match type of Hnonfatal with
    | ?m = _ =>
        assert (Hconfined : confined (validator_returns false)
                              (validator_halts false liveness false) m)
    end.
    { apply for_each_confined. intros p t.
      apply for_all_ranges_confined; [exact I|exact I|]. intros it t'.
      apply validate_range_confined. intros i.
      apply get_register_mask_confined. }
    rewrite Hnonfatal in Hconfined. destruct Hconfined as [_ ->].
    reflexivity.
  - right. now rewrite <- Hmodes.
Qed.

(** X9. A success of [ValidateIntervals] in fatal mode is a success in
    non-fatal mode: the fatal flag turns rejections into aborts and adds a
    check in debug builds, nothing else.  In a release build the converse
    holds as well. *)
Theorem ValidateIntervals_fatal_to_nonfatal (kVRegSize : Z)
    (fuel : nat) (h : list LiveInterval) (intervals : list nat)
    (number_of_spill_slots number_of_out_slots : nat)
    (codegen : CodeGenerator) (liveness : option SsaLivenessAnalysis)
    (register_type : RegisterType) :
  let validate dbg :=
    ValidateIntervals dbg kVRegSize fuel h intervals number_of_spill_slots
      number_of_out_slots codegen liveness register_type in
  (forall dbg, validate dbg true = Ok true -> validate dbg false = Ok true) /\
  (validate false false = Ok true -> validate false true = Ok true).
Proof.
  intros validate. split.
  - intros dbg Hfatal.
    pose proof (ValidateIntervals_agrees dbg dbg true false kVRegSize
                  (fun H => H) (fun _ => eq_refl) fuel h intervals
                  number_of_spill_slots number_of_out_slots codegen liveness
                  register_type) as Hagrees.
    fold (validate dbg true) (validate dbg false) in Hagrees.
    rewrite Hfatal in Hagrees. simpl in Hagrees. now symmetry.
  - intros Hnonfatal.
    destruct (ValidateIntervals_release_modes kVRegSize fuel h intervals
                number_of_spill_slots number_of_out_slots codegen liveness
                register_type) as [Hfalse|Hsame].
    + fold (validate false false) in Hfalse. congruence.
    + fold (validate false true) (validate false false) in Hsame. congruence.
Qed.

(** X10. What a debug build of [ValidateIntervals] returns, the release build
    returns too: the assertions of a debug build abort or change
    nothing. *)
Theorem ValidateIntervals_debug_to_release (kVRegSize : Z)
    (fuel : nat) (h : list LiveInterval) (intervals : list nat)
    (number_of_spill_slots number_of_out_slots : nat)
    (codegen : CodeGenerator) (liveness : option SsaLivenessAnalysis)
    (register_type : RegisterType) (fatal b : bool) :
  ValidateIntervals true kVRegSize fuel h intervals number_of_spill_slots
    number_of_out_slots codegen liveness register_type fatal = Ok b ->
  ValidateIntervals false kVRegSize fuel h intervals number_of_spill_slots
    number_of_out_slots codegen liveness register_type fatal = Ok b.
Proof.
  intros Hdebug.
  pose proof (ValidateIntervals_agrees true false fatal fatal kVRegSize
                (fun _ => eq_refl) (fun H => H) fuel h intervals
                number_of_spill_slots number_of_out_slots codegen liveness
                register_type) as Hagrees.
  rewrite Hdebug in Hagrees. simpl in Hagrees. now symmetry.
Qed.

(** The theorem at the two intervals that overlap in register 1. *)
Lemma ValidateIntervals_debug_to_release_witness :
  scenario_validate false (arena_register_overlap false) false = Ok false.
Proof.
  apply (ValidateIntervals_debug_to_release 4 10 (arena_register_overlap false)
           [0; 1] 1 0 scenario_codegen None kCoreRegister false false).
  reflexivity.
Defined.

(** The first part of the theorem at two disjoint intervals in register 1. *)
Lemma ValidateIntervals_fatal_to_nonfatal_witness :
  scenario_validate true arena_register_disjoint false = Ok true.
Proof.
  apply (proj1 (ValidateIntervals_fatal_to_nonfatal 4 10
                  arena_register_disjoint [0; 1] 1 0 scenario_codegen None
                  kCoreRegister) true).
  reflexivity.
Defined.

(** ** What fatal mode does where non-fatal mode rejects *)

Lemma rejects_refl {A : Type} (r : result A) :
  (forall b, r <> Return b) -> rejects_or_agrees r r.
Proof. destruct r as [a|b|f]; simpl; auto. intros Hr. now destruct (Hr b). Qed.

Lemma bind_rejects {A B : Type} (m1 m2 : result A) (k1 k2 : A -> result B) :
  rejects_or_agrees m1 m2 ->
  (forall a, rejects_or_agrees (k1 a) (k2 a)) ->
  rejects_or_agrees (bind m1 k1) (bind m2 k2).
Proof.
  intros Hm Hk. destruct m1 as [a|b|f]; simpl in Hm.
  - subst. apply Hk.
  - destruct Hm as (f & -> & Hf). simpl. eauto.
  - subst. reflexivity.
Qed.

Lemma for_each_rejects {A S : Type} (f g : A -> S -> result S) (l : list A)
    (s : S) :
  (forall x s, rejects_or_agrees (f x s) (g x s)) ->
  rejects_or_agrees (for_each f l s) (for_each g l s).
Proof.
  intros Hbody. revert s. induction l as [|x l IH]; intros s; simpl.
  - reflexivity.
  - apply bind_rejects; auto.
Qed.

Lemma Advance_never_returns (h : list LiveInterval) (it : AllRangesIterator)
    (b : bool) :
  Advance h it <> Return b.
Proof.
  unfold Advance, CurrentInterval, deref.
  destruct (current_range_ it) as [|r [|next rest]]; try discriminate.
  destruct (current_interval_ it) as [p|]; try discriminate.
  destruct (h !! p) as [i|]; try discriminate. simpl.
  destruct (next_sibling_ i) as [q|]; try discriminate.
  destruct (h !! q); discriminate.
Qed.

Lemma for_all_ranges_rejects {S : Type} (fuel : nat) (h : list LiveInterval)
    (f g : AllRangesIterator -> S -> result S) (start_interval : nat)
    (s : S) :
  (forall it s, rejects_or_agrees (f it s) (g it s)) ->
  rejects_or_agrees (for_all_ranges fuel h f start_interval s)
                    (for_all_ranges fuel h g start_interval s).
Proof.
  intros Hbody. unfold for_all_ranges.
  apply bind_rejects.
  { apply rejects_refl. intros b. unfold AllRangesIterator_new, deref.
    destruct (h !! start_interval); discriminate. }
  intros it. revert it s.
  induction fuel as [|fuel IH]; intros it s; simpl; [reflexivity|].
  destruct (Done it); [reflexivity|].
  apply bind_rejects; [apply Hbody|]. intros s'.
  apply bind_rejects; [|auto].
  apply rejects_refl. intros b. apply Advance_never_returns.
Qed.

Section FatalReports.
(** The two modes of a release build. *)
Variable kVRegSize : Z.
Variable h : list LiveInterval.
Variable codegen : CodeGenerator.
Variable mask_of : LiveInterval -> result Z.
Variable intervals : list nat.
Variable register_type : RegisterType.
Hypothesis masks_never_return : forall i b, mask_of i <> Return b.
Hypothesis masks_defined :
  forall p, p ∈ intervals ->
    exists i mask, h !! p = Some i /\ mask_of i = Ok mask.

Lemma dump_register_conflict_reports (j reg : nat) :
  dump_register_conflict h mask_of intervals j reg =
  Halt (RegisterConflict j reg).
Proof.
  unfold dump_register_conflict.
  assert (Hloop : for_each (fun interval (_ : unit) =>
                              let* i := deref h interval in
                              let* _ := mask_of i in Ok tt) intervals tt
                  = Ok tt).
  { clear masks_never_return.
    induction intervals as [|p ps IH]; [reflexivity|]. simpl.
    destruct (masks_defined p (list_elem_of_here _ _)) as (i & mask & Hp & Hm).
    unfold deref. rewrite Hp. simpl. rewrite Hm. simpl.
    apply IH. intros q Hq. apply masks_defined. now apply list_elem_of_further. }
  now rewrite Hloop.
Qed.

Lemma validate_range_rejects (number_of_registers number_of_out_slots : nat)
    (it : AllRangesIterator) (t : list (list bool)) :
  rejects_or_agrees
    (validate_range false kVRegSize h codegen mask_of intervals
       number_of_registers number_of_out_slots register_type false it t)
    (validate_range false kVRegSize h codegen mask_of intervals
       number_of_registers number_of_out_slots register_type true it t).
Proof.
  assert (Hderef : forall p, rejects_or_agrees (deref h p) (deref h p)).
  { intros p. apply rejects_refl. intros b. unfold deref.
    destruct (h !! p); discriminate. }
  assert (Hvector : forall (v : list (list bool)) idx,
            rejects_or_agrees (vector_at v idx) (vector_at v idx)).
  { intros v idx. apply rejects_refl. intros b. unfold vector_at.
    destruct (v !! Z.to_nat idx); discriminate. }
  assert (Hrange : rejects_or_agrees (CurrentRange it) (CurrentRange it)).
  { apply rejects_refl. intros b. unfold CurrentRange.
    destruct (current_range_ it); discriminate. }
  assert (Hset : forall bv j, rejects_or_agrees (SetBit bv j) (SetBit bv j)).
  { intros bv j. apply rejects_refl. intros b. unfold SetBit.
    destruct (j <? length bv); discriminate. }
  unfold validate_range.
  apply bind_rejects.
  { unfold CurrentInterval. destruct (current_interval_ it); [apply Hderef|].
    reflexivity. }
  intros current. apply bind_rejects; [apply Hderef|]. intros parent.
  apply bind_rejects.
  { destruct (spill_slot_ parent) as [slot|]; [|reflexivity].
    destruct (negb _); [|reflexivity].
    apply bind_rejects; [apply Hvector|]. intros bv.
    apply bind_rejects; [apply Hrange|]. intros range.
    apply bind_rejects; [|intros; reflexivity].
    apply for_each_rejects. intros j bv'. unfold mark_spill_slot.
    destruct (IsBitSet bv' j); [|apply Hset].
    simpl. eexists. split; [reflexivity|exact I]. }
  intros t'. apply bind_rejects.
  { apply rejects_refl. intros b. apply masks_never_return. }
  intros mask. apply for_each_rejects. intros reg t''.
  unfold mark_registers.
  apply bind_rejects; [exact (eq_refl (Ok tt))|]. intros _.
  apply bind_rejects; [apply Hvector|]. intros bv.
  apply bind_rejects; [apply Hrange|]. intros range.
  apply bind_rejects; [|intros; reflexivity].
  apply for_each_rejects. intros j bv'. unfold mark_register.
  destruct (IsBitSet bv' j); [|apply Hset].
  destruct (_ && _); [reflexivity|].
  simpl. rewrite dump_register_conflict_reports.
  eexists. split; [reflexivity|exact I].
Qed.

End FatalReports.

(** X11. In a release build, on an array whose intervals all have a mask:
    where non-fatal [ValidateIntervals] returns false, fatal
    [ValidateIntervals] stops with one of the two conflict messages. *)
Theorem ValidateIntervals_fatal_reports_rejection (kVRegSize : Z)
    (fuel : nat) (h : list LiveInterval) (intervals : list nat)
    (number_of_spill_slots number_of_out_slots : nat)
    (codegen : CodeGenerator) (liveness : option SsaLivenessAnalysis)
    (register_type : RegisterType) :
  let validate :=
    ValidateIntervals false kVRegSize fuel h intervals number_of_spill_slots
      number_of_out_slots codegen liveness register_type in
  (forall p, p ∈ intervals ->
     exists i mask,
       h !! p = Some i /\
       validator_mask false codegen liveness register_type i = Ok mask) ->
  validate false = Ok false ->
  (exists j, validate true = Halt (SpillSlotConflict j)) \/
  (exists j reg, validate true = Halt (RegisterConflict j reg)).
Proof.
  intros validate Hmasks Hrejects.
  unfold validate in *. unfold ValidateIntervals in *.
  change (match register_type with
          | kCoreRegister => GetNumberOfCoreRegisters codegen
          | kFpRegister => GetNumberOfFloatingPointRegisters codegen
          end) with (registers_of codegen register_type) in *.
  assert (Hsame : match register_type with
                  | kCoreRegister =>
                      GetBlockedCoreRegistersForCall false
                        (registers_of codegen register_type) codegen
                  | kFpRegister =>
                      GetBlockedFpRegistersForCall false
                        (registers_of codegen register_type) codegen
                  end =
                  GetBlockedRegistersForCall false
                    (registers_of codegen register_type)
                    (callee_save_of codegen register_type))
    by now destruct register_type.
  rewrite Hsame in *. clear Hsame.
  destruct (GetBlockedRegistersForCall false _ _) as [blocked| |] eqn:Hblocked;
    [|discriminate..].
  simpl in *.
  destruct (for_each (for_all_ranges fuel h max_end_range) intervals 0)
    as [max_end| |]; [|discriminate..].
  simpl in *.
  match type of Hrejects with
  | returning (bind ?m1 _) = _ =>
      match goal with
      | |- (exists j, returning (bind ?m2 _) = _) \/ _ =>
          assert (Hmirror : rejects_or_agrees m1 m2)
      end
  end.
  { apply for_each_rejects. intros p t.
    apply for_all_ranges_rejects. intros it t'.
    apply validate_range_rejects.
    - intros i b Hreturn.
      pose proof (get_register_mask_confined false liveness false
                    register_type (registers_of codegen register_type)
                    blocked i) as Hconfined.
      rewrite Hreturn in Hconfined. exact Hconfined.
    - intros p' Hp'. destruct (Hmasks p' Hp') as (i & mask & Hi & Hmask).
      exists i, mask. split; [assumption|].
      now rewrite (validator_mask_blocked false codegen liveness register_type
                     blocked i Hblocked). }
  match type of Hrejects with
  | returning (bind ?m1 _) = _ => destruct m1 as [t|b|f]
  end; simpl in Hrejects; [discriminate| |discriminate].
  destruct Hmirror as (f & -> & Hf). simpl.
  destruct f; try contradiction; eauto.
Qed.

(** The theorem at the two intervals that overlap in register 1. *)
Lemma ValidateIntervals_fatal_reports_rejection_witness :
  (exists j, scenario_validate false (arena_register_overlap false) true
             = Halt (SpillSlotConflict j)) \/
  (exists j reg, scenario_validate false (arena_register_overlap false) true
                 = Halt (RegisterConflict j reg)).
Proof.
  apply (ValidateIntervals_fatal_reports_rejection 4 10
           (arena_register_overlap false) [0; 1] 1 0 scenario_codegen None
           kCoreRegister).
  - intros p Hp.
    apply elem_of_cons in Hp as [->|Hp];
      [|apply list_elem_of_singleton in Hp as ->];
      eexists; exists 2%Z; split; reflexivity.
  - reflexivity.
Defined.

(** ** What an acceptance by [ValidateIntervals] means *)

Lemma ForallOrdPairs_lookup {A : Type} (R : A -> A -> Prop) (l : list A) :
  ForallOrdPairs R l <->
  forall i j x y, i < j -> l !! i = Some x -> l !! j = Some y -> R x y.
Proof.
  split.
  - intros Hall. induction Hall as [|x l Hx _ IH]; intros i j a b Hij Ha Hb.
    + discriminate.
    + destruct j as [|j]; [lia|]. simpl in Hb.
      destruct i as [|i]; simpl in Ha.
      * injection Ha as <-. rewrite Forall_forall in Hx. apply Hx.
        eapply list_elem_of_lookup_2. eassumption.
      * apply (IH i j); [lia|assumption|assumption].
  - induction l as [|x l IH]; intros Hall; constructor.
    + apply Forall_forall. intros y Hy.
      apply list_elem_of_lookup in Hy as (j & Hj).
      apply (Hall 0 (S j)); [lia|reflexivity|assumption].
    + apply IH. intros i j a b Hij Ha Hb.
      apply (Hall (S i) (S j)); [lia|assumption|assumption].
Qed.

Section Acceptance.
Variable dbg : bool.
Variable kVRegSize : Z.
Variable fuel : nat.
Variable h : list LiveInterval.
Variable intervals : list nat.
Variables number_of_spill_slots number_of_out_slots : nat.
Variable codegen : CodeGenerator.
Variable liveness : option SsaLivenessAnalysis.
Variable register_type : RegisterType.
Variable visits : list Visit.

Let number_of_registers := registers_of codegen register_type.
Let mask_of := validator_mask dbg codegen liveness register_type.
Let run :=
  ValidateIntervals dbg kVRegSize fuel h intervals number_of_spill_slots
    number_of_out_slots codegen liveness register_type.
Let well_formed :=
  wf_visit kVRegSize mask_of number_of_registers number_of_spill_slots
    number_of_out_slots.
Let compatible :=
  compatible_visits kVRegSize mask_of number_of_registers number_of_out_slots.

Hypothesis registers_fit : number_of_registers <= 32.
Hypothesis visits_of_intervals : all_visits fuel h intervals = Ok visits.
Hypothesis visits_wf : Forall well_formed visits.

(** In non-fatal mode the validator decides. *)
Lemma ValidateIntervals_nonfatal_returns :
  run false = Ok true \/ run false = Ok false.
Proof.
  unfold run.
  rewrite (ValidateIntervals_run dbg kVRegSize fuel h intervals
             number_of_spill_slots number_of_out_slots codegen liveness
             register_type false visits registers_fit visits_of_intervals).
  fold mask_of number_of_registers.
  destruct (run_nonfatal dbg kVRegSize h codegen mask_of intervals
              number_of_registers number_of_spill_slots number_of_out_slots
              register_type false (max_end_of visits) visits
              (replicate (number_of_registers + number_of_spill_slots)
                         (replicate (max_end_of visits) false)) eq_refl)
    as [->|(t' & -> & _)]; auto.
  - apply shaped_replicate.
  - now apply (visits_fit dbg kVRegSize number_of_spill_slots
                 number_of_out_slots codegen liveness register_type).
Qed.

(** It accepts exactly the sets in which every visit is compatible with
    the earlier ones. *)
Lemma ValidateIntervals_nonfatal_accepts :
  run false = Ok true <-> ForallOrdPairs compatible visits.
Proof.
  split.
  - intros Haccepts. apply ForallOrdPairs_lookup.
    intros i j v1 v2 Hij Hv1 Hv2 loc Hu1 Hu2 Hoverlap.
    assert (Hrejects :
              uses_slot kVRegSize number_of_registers number_of_out_slots
                        v2 loc \/
              (uses_register mask_of v2 loc /\ exempt v2 = false) ->
              run false = Ok false).
    { intros Hu. unfold run.
      apply (ValidateIntervals_conflict dbg kVRegSize fuel h intervals
               number_of_spill_slots number_of_out_slots codegen liveness
               register_type visits registers_fit visits_of_intervals
               visits_wf i j v1 v2 loc); assumption. }
    destruct Hu2 as [Hslot|Hreg].
    + rewrite Hrejects in Haccepts by auto. discriminate.
    + split; [assumption|].
      destruct (exempt v2) eqn:Hexempt; [reflexivity|].
      rewrite Hrejects in Haccepts by auto. discriminate.
  - intros Hpairs. unfold run.
    apply (ValidateIntervals_compatible dbg kVRegSize fuel h intervals
             number_of_spill_slots number_of_out_slots codegen liveness
             register_type visits registers_fit visits_of_intervals
             visits_wf false Hpairs).
    apply Forall_forall. intros v _ mask reg _ _.
    unfold allocated_check. now rewrite andb_false_r.
Qed.

End Acceptance.

(** X12. On an interval set whose visits name existing locations, non-fatal
    [ValidateIntervals] returns true or false, and it returns true exactly
    when every visit is compatible with every earlier one: they hold no
    common location over a common position, unless the location is a
    register and the later interval has the same-as-input exemption.  A
    success in either mode means the same. *)
Theorem ValidateIntervals_accepts_iff_compatible
    (dbg : bool) (kVRegSize : Z) (fuel : nat) (h : list LiveInterval)
    (intervals : list nat) (number_of_spill_slots number_of_out_slots : nat)
    (codegen : CodeGenerator) (liveness : option SsaLivenessAnalysis)
    (register_type : RegisterType) (visits : list Visit) :
  let number_of_registers := registers_of codegen register_type in
  let mask_of := validator_mask dbg codegen liveness register_type in
  let validate :=
    ValidateIntervals dbg kVRegSize fuel h intervals number_of_spill_slots
      number_of_out_slots codegen liveness register_type in
  let compatible :=
    compatible_visits kVRegSize mask_of number_of_registers
      number_of_out_slots in
  number_of_registers <= 32 ->
  all_visits fuel h intervals = Ok visits ->
  Forall (wf_visit kVRegSize mask_of number_of_registers number_of_spill_slots
            number_of_out_slots) visits ->
  (validate false = Ok true \/ validate false = Ok false) /\
  (validate false = Ok true <-> ForallOrdPairs compatible visits) /\
  (forall fatal i j v1 v2,
     validate fatal = Ok true ->
     i < j -> visits !! i = Some v1 -> visits !! j = Some v2 ->
     compatible v1 v2).
Proof.
  intros number_of_registers mask_of validate compatible Hn Hvisits Hwf.
  pose proof (ValidateIntervals_nonfatal_accepts dbg kVRegSize fuel h
                intervals number_of_spill_slots number_of_out_slots codegen
                liveness register_type visits Hn Hvisits Hwf) as Hiff.
  split; [|split].
  - now apply (ValidateIntervals_nonfatal_returns dbg kVRegSize fuel h
                 intervals number_of_spill_slots number_of_out_slots codegen
                 liveness register_type visits).
  - exact Hiff.
  - intros fatal i j v1 v2 Haccepts.
    assert (Hnonfatal : validate false = Ok true).
    { destruct fatal; [|assumption].
      pose proof (ValidateIntervals_agrees dbg dbg true false kVRegSize
                    (fun H => H) (fun _ => eq_refl) fuel h intervals
                    number_of_spill_slots number_of_out_slots codegen liveness
                    register_type) as Hagrees.
      fold (validate true) (validate false) in Hagrees.
      rewrite Haccepts in Hagrees. simpl in Hagrees. now symmetry. }
    apply Hiff in Hnonfatal.
    apply (proj1 (ForallOrdPairs_lookup compatible visits) Hnonfatal).
Qed.

(** The theorem at the two intervals in register 1 over [[4, 8)] and
    [[6, 10)], the second exempt: they are accepted, so compatible. *)
Lemma ValidateIntervals_accepts_iff_compatible_witness :
  scenario_validate true (arena_register_overlap true) false = Ok true \/
  scenario_validate true (arena_register_overlap true) false = Ok false.
Proof.
  refine (proj1 (ValidateIntervals_accepts_iff_compatible
            true 4 10 (arena_register_overlap true) [0; 1] 1 0
            scenario_codegen None kCoreRegister
            [mkVisit (mkLiveRange 4 8)
               (scenario_interval 4 8 (Some 1%Z) None 0 scenario_call false)
               (scenario_interval 4 8 (Some 1%Z) None 0 scenario_call false);
             mkVisit (mkLiveRange 6 10)
               (scenario_interval 6 10 (Some 1%Z) None 1 scenario_call true)
               (scenario_interval 6 10 (Some 1%Z) None 1 scenario_call true)]
            _ _ _)).
  - simpl. lia.
  - reflexivity.
  - constructor; [apply scenario_wf|].
    constructor; [apply scenario_wf|constructor].
Defined.

(** ** The order of the intervals *)

Lemma concat_Permutation {A : Type} (ls ls' : list (list A)) :
  Permutation ls ls' -> Permutation (concat ls) (concat ls').
Proof.
  induction 1 as [|x ls ls' _ IH|x y ls|ls1 ls2 ls3 _ IH1 _ IH2]; simpl.
  - constructor.
  - now apply Permutation_app_head.
  - rewrite !app_assoc. apply Permutation_app_tail, Permutation_app_comm.
  - now transitivity (concat ls2).
Qed.

Lemma map_result_Permutation {A B : Type} (f : A -> result B)
    (l l' : list A) :
  Permutation l l' ->
  forall ys, map_result f l = Ok ys ->
  exists ys', map_result f l' = Ok ys' /\ Permutation ys ys'.
Proof.
  induction 1 as [|x l l' _ IH|x y l|l1 l2 l3 _ IH1 _ IH2]; intros ys Hys.
  - exists ys. split; [assumption|reflexivity].
  - simpl in Hys. apply bind_Ok in Hys as (z & Hz & Hys).
    apply bind_Ok in Hys as (zs & Hzs & Hys). injection Hys as <-.
    destruct (IH zs Hzs) as (zs' & Hzs' & Hperm).
    exists (z :: zs'). simpl. rewrite Hz, Hzs'. simpl.
    split; [reflexivity|now constructor].
  - simpl in Hys. apply bind_Ok in Hys as (zy & Hzy & Hys).
    apply bind_Ok in Hys as (zs & Hzs & Hys). injection Hys as <-.
    apply bind_Ok in Hzs as (zx & Hzx & Hzs).
    apply bind_Ok in Hzs as (zs' & Hzs' & Hzs). injection Hzs as <-.
    exists (zx :: zy :: zs'). simpl. rewrite Hzx, Hzy, Hzs'. simpl.
    split; [reflexivity|constructor].
  - destruct (IH1 ys Hys) as (ys2 & Hys2 & Hperm2).
    destruct (IH2 ys2 Hys2) as (ys3 & Hys3 & Hperm3).
    exists ys3. split; [assumption|]. now transitivity ys2.
Qed.

Lemma all_visits_Permutation (fuel : nat) (h : list LiveInterval)
    (intervals intervals' : list nat) (visits : list Visit) :
  Permutation intervals intervals' ->
  all_visits fuel h intervals = Ok visits ->
  exists visits',
    all_visits fuel h intervals' = Ok visits' /\ Permutation visits visits'.
Proof.
  unfold all_visits. intros Hperm Hvisits.
  apply bind_Ok in Hvisits as (chains & Hchains & Hvisits).
  injection Hvisits as <-.
  destruct (map_result_Permutation _ _ _ Hperm chains Hchains)
    as (chains' & Hchains' & Hperm').
  exists (concat chains'). rewrite Hchains'. simpl.
  split; [reflexivity|]. now apply concat_Permutation.
Qed.

Lemma ForallOrdPairs_Permutation {A : Type} (R : A -> A -> Prop)
    (l l' : list A) :
  (forall x y, R x y -> R y x) ->
  Permutation l l' -> ForallOrdPairs R l -> ForallOrdPairs R l'.
Proof.
  intros Hsym.
  induction 1 as [|x l l' Hperm IH|x y l|l1 l2 l3 _ IH1 _ IH2]; intros Hall.
  - constructor.
  - inversion Hall as [|? ? Hx Hl]; subst. constructor; [|auto].
    eapply Permutation_Forall; eassumption.
  - inversion Hall as [|? ? Hy Hl]; subst.
    inversion Hl as [|? ? Hx Hl']; subst.
    apply Forall_cons in Hy as [Hyx Hy].
    constructor; [|constructor]; auto.
  - auto.
Qed.

Lemma overlap_sym (r1 r2 : LiveRange) : overlap r1 r2 -> overlap r2 r1.
Proof. intros (j & H1 & H2). exists j. auto. Qed.

(** X13. Without the same-as-input exemption, the verdict of non-fatal
    [ValidateIntervals] on an interval set whose visits name existing
    locations does not depend on the order of the intervals in the
    array. *)
Theorem ValidateIntervals_order_independent
    (dbg : bool) (kVRegSize : Z) (fuel : nat) (h : list LiveInterval)
    (intervals intervals' : list nat)
    (number_of_spill_slots number_of_out_slots : nat)
    (codegen : CodeGenerator) (liveness : option SsaLivenessAnalysis)
    (register_type : RegisterType) (visits : list Visit) :
  let number_of_registers := registers_of codegen register_type in
  let mask_of := validator_mask dbg codegen liveness register_type in
  number_of_registers <= 32 ->
  all_visits fuel h intervals = Ok visits ->
  Forall (wf_visit kVRegSize mask_of number_of_registers number_of_spill_slots
            number_of_out_slots) visits ->
  Forall (fun v => exempt v = false) visits ->
  Permutation intervals intervals' ->
  ValidateIntervals dbg kVRegSize fuel h intervals' number_of_spill_slots
    number_of_out_slots codegen liveness register_type false =
  ValidateIntervals dbg kVRegSize fuel h intervals number_of_spill_slots
    number_of_out_slots codegen liveness register_type false.
Proof.
  intros number_of_registers mask_of Hn Hvisits Hwf Hexempt Hperm.
  destruct (all_visits_Permutation fuel h intervals intervals' visits Hperm
              Hvisits) as (visits' & Hvisits' & Hperm').
  assert (Hwf' : Forall (wf_visit kVRegSize mask_of number_of_registers
                           number_of_spill_slots number_of_out_slots) visits')
    by (eapply Permutation_Forall; eassumption).
  assert (Hexempt' : Forall (fun v => exempt v = false) visits')
    by (eapply Permutation_Forall; eassumption).
  set (compatible := compatible_visits kVRegSize mask_of number_of_registers
                       number_of_out_slots).
  set (disjoint := disjoint_visits kVRegSize mask_of number_of_registers
                     number_of_out_slots).
  assert (Hdisjoint : forall l, Forall (fun v => exempt v = false) l ->
            (ForallOrdPairs compatible l <-> ForallOrdPairs disjoint l)).
  { intros l Hl. rewrite Forall_forall in Hl. split.
    - apply ForallOrdPairs_impl_in. intros v1 v2 _ Hv2 Hc loc Hu1 Hu2 Ho.
      destruct (Hc loc Hu1 Hu2 Ho) as [_ He]. rewrite Hl in He by assumption.
      discriminate.
    - apply ForallOrdPairs_impl. apply disjoint_compatible. }
  assert (Hsame : ForallOrdPairs compatible visits <->
                  ForallOrdPairs compatible visits').
  { rewrite !Hdisjoint by assumption.
    assert (Hsym : forall v1 v2, disjoint v1 v2 -> disjoint v2 v1).
    { intros v1 v2 Hd loc Hu2 Hu1 Ho. apply (Hd loc Hu1 Hu2).
      now apply overlap_sym. }
    split; apply ForallOrdPairs_Permutation; auto.
    now apply Permutation_sym. }
  pose proof (ValidateIntervals_nonfatal_accepts dbg kVRegSize fuel h
                intervals number_of_spill_slots number_of_out_slots codegen
                liveness register_type visits Hn Hvisits Hwf) as Hiff.
  pose proof (ValidateIntervals_nonfatal_accepts dbg kVRegSize fuel h
                intervals' number_of_spill_slots number_of_out_slots codegen
                liveness register_type visits' Hn Hvisits' Hwf') as Hiff'.
  destruct (ValidateIntervals_nonfatal_returns dbg kVRegSize fuel h
              intervals number_of_spill_slots number_of_out_slots codegen
              liveness register_type visits Hn Hvisits Hwf) as [Hr|Hr];
    destruct (ValidateIntervals_nonfatal_returns dbg kVRegSize fuel h
                intervals' number_of_spill_slots number_of_out_slots codegen
                liveness register_type visits' Hn Hvisits' Hwf') as [Hr'|Hr'];
    rewrite Hr, Hr'; try reflexivity; exfalso.
  - apply Hiff, Hsame, Hiff' in Hr. congruence.
  - apply Hiff', Hsame, Hiff in Hr'. congruence.
Qed.

(** The theorem at the two intervals that overlap in register 1, in the
    other order. *)
Lemma ValidateIntervals_order_independent_witness :
  ValidateIntervals true 4 10 (arena_register_overlap false) [1; 0] 1 0
    scenario_codegen None kCoreRegister false =
  ValidateIntervals true 4 10 (arena_register_overlap false) [0; 1] 1 0
    scenario_codegen None kCoreRegister false.
Proof.
  refine (ValidateIntervals_order_independent
            true 4 10 (arena_register_overlap false) [0; 1] [1; 0] 1 0
            scenario_codegen None kCoreRegister
            [mkVisit (mkLiveRange 4 8)
               (scenario_interval 4 8 (Some 1%Z) None 0 scenario_call false)
               (scenario_interval 4 8 (Some 1%Z) None 0 scenario_call false);
             mkVisit (mkLiveRange 6 10)
               (scenario_interval 6 10 (Some 1%Z) None 1 scenario_call false)
               (scenario_interval 6 10 (Some 1%Z) None 1 scenario_call false)]
            _ _ _ _ _).
  - simpl. lia.
  - reflexivity.
  - constructor; [apply scenario_wf|].
    constructor; [apply scenario_wf|constructor].
  - constructor; [reflexivity|]. constructor; [reflexivity|constructor].
  - apply perm_swap.
Defined.

(** With the exemption the order matters: the exempt interval is accepted
    after the interval it overlaps, and not before it. *)
Example ValidateIntervals_order_matters_with_exemption :
  ValidateIntervals true 4 10 (arena_register_overlap true) [0; 1] 1 0
    scenario_codegen None kCoreRegister false = Ok true /\
  ValidateIntervals true 4 10 (arena_register_overlap true) [1; 0] 1 0
    scenario_codegen None kCoreRegister false = Ok false.
Proof. split; reflexivity. Qed.

(** ** Degenerate inputs of [ValidateIntervals] *)

(** X14. With an empty array [ValidateIntervals] returns true, whatever the
    mode, the liveness analysis and the slot counts.  An interval without a
    range in the array makes it follow a null range pointer, in the first
    loop already. *)
Theorem ValidateIntervals_degenerate (dbg : bool) (kVRegSize : Z)
    (fuel : nat) (h : list LiveInterval)
    (number_of_spill_slots number_of_out_slots : nat)
    (codegen : CodeGenerator) (liveness : option SsaLivenessAnalysis)
    (register_type : RegisterType) (fatal : bool) :
  registers_of codegen register_type <= 32 ->
  ValidateIntervals dbg kVRegSize fuel h [] number_of_spill_slots
    number_of_out_slots codegen liveness register_type fatal = Ok true /\
  forall (before after : list nat) (visits : list Visit) (p : nat)
         (i : LiveInterval),
    all_visits fuel h before = Ok visits ->
    h !! p = Some i -> first_range_ i = [] -> 0 < fuel ->
    ValidateIntervals dbg kVRegSize fuel h (before ++ p :: after)
      number_of_spill_slots number_of_out_slots codegen liveness
      register_type fatal = Halt UndefinedBehaviour.
Proof.
  intros Hn.
  destruct (GetBlockedRegistersForCall_spec dbg _
              (callee_save_of codegen register_type) Hn)
    as (blocked & Hblocked & _).
  assert (Hmask : match register_type with
                  | kCoreRegister =>
                      GetBlockedCoreRegistersForCall dbg
                        (registers_of codegen register_type) codegen
                  | kFpRegister =>
                      GetBlockedFpRegistersForCall dbg
                        (registers_of codegen register_type) codegen
                  end = Ok blocked)
    by (destruct register_type; exact Hblocked).
  split.
  - unfold ValidateIntervals.
    change (match register_type with
            | kCoreRegister => GetNumberOfCoreRegisters codegen
            | kFpRegister => GetNumberOfFloatingPointRegisters codegen
            end) with (registers_of codegen register_type).
    now rewrite Hmask.
  - intros before after visits p i Hvisits Hp Hranges Hfuel.
    unfold ValidateIntervals.
    change (match register_type with
            | kCoreRegister => GetNumberOfCoreRegisters codegen
            | kFpRegister => GetNumberOfFloatingPointRegisters codegen
            end) with (registers_of codegen register_type).
    rewrite Hmask. simpl.
    rewrite for_each_app.
    rewrite (for_each_all_visits fuel h max_end_range
               (fun v m => Ok (Nat.max m (end_ (range_ v))))
               (fun it v m Hv => max_end_range_resolved h it v m Hv)
               before visits 0 Hvisits).
    rewrite for_each_max_end. simpl.
    unfold for_all_ranges at 1, AllRangesIterator_new, deref.
    rewrite Hp. simpl.
    destruct fuel as [|fuel]; [lia|]. simpl.
    unfold max_end_range, CurrentRange. simpl. rewrite Hranges. reflexivity.
Qed.

(** The theorem at an arena whose only interval has no range. *)
Lemma ValidateIntervals_degenerate_witness :
  ValidateIntervals true 4 10
    [mkLiveInterval [] None None false kInt32 0 None NoCompanion None
       false false]
    [0] 1 0 scenario_codegen None kCoreRegister false =
  Halt UndefinedBehaviour.
Proof.
  refine (proj2 (ValidateIntervals_degenerate true 4 10
            [mkLiveInterval [] None None false kInt32 0 None NoCompanion None
               false false]
            1 0 scenario_codegen None kCoreRegister false _)
          [] [] [] 0 _ _ _ _ _).
  - simpl. lia.
  - reflexivity.
  - reflexivity.
  - reflexivity.
  - lia.
Defined.

(** ** The timeline of a spill slot *)

Lemma vreg_bounds (kVRegSize slot : Z) :
  (0 < kVRegSize)%Z -> (0 <= slot)%Z -> (0 <= slot / kVRegSize <= slot)%Z.
Proof.
  intros Hsize Hslot. split; [apply Z.div_pos; lia|].
  apply Z.div_le_upper_bound; [lia|]. nia.
Qed.

(** The subtraction does not wrap around. *)
Lemma spill_slot_index_plain (kVRegSize : Z)
    (number_of_registers number_of_out_slots : nat) (slot : Z) :
  (0 < kVRegSize)%Z -> (0 <= slot < 2 ^ 31)%Z ->
  (Z.of_nat number_of_registers < 2 ^ 32)%Z ->
  (Z.of_nat number_of_out_slots
   <= Z.of_nat number_of_registers + slot / kVRegSize)%Z ->
  spill_slot_index kVRegSize number_of_registers number_of_out_slots slot =
  (Z.of_nat number_of_registers + slot / kVRegSize
   - Z.of_nat number_of_out_slots)%Z.
Proof.
  intros Hsize Hslot Hregs Hle.
  pose proof (vreg_bounds kVRegSize slot Hsize ltac:(lia)).
  unfold spill_slot_index, size_t, size_t_bits.
  rewrite (Z.mod_small slot) by lia. apply Z.mod_small. lia.
Qed.

(** The subtraction wraps around. *)
Lemma spill_slot_index_wraps (kVRegSize : Z)
    (number_of_registers number_of_out_slots : nat) (slot : Z) :
  (0 < kVRegSize)%Z -> (0 <= slot < 2 ^ 31)%Z ->
  (Z.of_nat number_of_out_slots < 2 ^ 32)%Z ->
  (Z.of_nat number_of_registers + slot / kVRegSize
   < Z.of_nat number_of_out_slots)%Z ->
  (2 ^ 63 <=
   spill_slot_index kVRegSize number_of_registers number_of_out_slots slot)%Z.
Proof.
  intros Hsize Hslot Hout Hlt.
  pose proof (vreg_bounds kVRegSize slot Hsize ltac:(lia)).
  unfold spill_slot_index, size_t, size_t_bits.
  rewrite (Z.mod_small slot) by lia.
  replace (Z.of_nat number_of_registers + slot / kVRegSize
           - Z.of_nat number_of_out_slots)%Z
    with ((Z.of_nat number_of_registers + slot / kVRegSize
           - Z.of_nat number_of_out_slots + 2 ^ 64) + (-1) * 2 ^ 64)%Z
    by lia.
  rewrite Z.mod_add by lia. rewrite Z.mod_small; lia.
Qed.

(** X15. The index [number_of_registers + slot / kVRegSize - number_of_out_slots],
    computed in [size_t], names the timeline of a spill slot (one of the
    [number_of_spill_slots] timelines that follow those of the registers)
    exactly when the slot lies in the spill area, that is when
    [slot / kVRegSize] is at least [number_of_out_slots] and less than
    [number_of_out_slots + number_of_spill_slots].  A slot below the spill
    area is not rejected: its index is the timeline of a register when the
    subtraction does not wrap around. *)
Theorem spill_slot_index_bounds (kVRegSize : Z)
    (number_of_registers number_of_spill_slots number_of_out_slots : nat)
    (slot : Z) :
  (0 < kVRegSize)%Z ->
  (0 <= slot < 2 ^ 31)%Z ->
  (Z.of_nat number_of_registers + Z.of_nat number_of_spill_slots < 2 ^ 32)%Z ->
  (Z.of_nat number_of_out_slots < 2 ^ 32)%Z ->
  let idx := spill_slot_index kVRegSize number_of_registers
                              number_of_out_slots slot in
  let vreg := (slot / kVRegSize)%Z in
  ((Z.of_nat number_of_registers <= idx
    < Z.of_nat (number_of_registers + number_of_spill_slots))%Z <->
   (Z.of_nat number_of_out_slots <= vreg
    < Z.of_nat number_of_out_slots + Z.of_nat number_of_spill_slots)%Z) /\
  ((Z.of_nat number_of_out_slots <= vreg)%Z ->
   idx = (Z.of_nat number_of_registers
          + (vreg - Z.of_nat number_of_out_slots))%Z) /\
  ((vreg < Z.of_nat number_of_out_slots
    <= Z.of_nat number_of_registers + vreg)%Z ->
   (0 <= idx < Z.of_nat number_of_registers)%Z).
Proof.
  intros Hsize Hslot Hcount Hout idx vreg.
  pose proof (vreg_bounds kVRegSize slot Hsize ltac:(lia)) as Hvreg.
  fold vreg in Hvreg.
  assert (Hregs : (Z.of_nat number_of_registers < 2 ^ 32)%Z) by lia.
  pose proof (spill_slot_index_plain kVRegSize number_of_registers
                number_of_out_slots slot Hsize Hslot Hregs) as Hplain.
  pose proof (spill_slot_index_wraps kVRegSize number_of_registers
                number_of_out_slots slot Hsize Hslot Hout) as Hwrap.
  fold vreg idx in Hplain, Hwrap.
  split; [|split].
  - destruct (Z.lt_ge_cases (Z.of_nat number_of_registers + vreg)
                (Z.of_nat number_of_out_slots)) as [Hlt|Hge].
    + specialize (Hwrap Hlt). lia.
    + rewrite (Hplain Hge). lia.
  - intros Hle. rewrite Hplain by lia. lia.
  - intros Hbelow. rewrite Hplain by lia. lia.
Qed.

(** The theorem at stack slots of four bytes, four registers, two spill
    slots after one out slot, and the slot at byte 8. *)
Lemma spill_slot_index_bounds_witness :
  ((4 <= spill_slot_index 4 4 1 8 < Z.of_nat (4 + 2))%Z <->
   (Z.of_nat 1 <= 8 / 4 < Z.of_nat 1 + Z.of_nat 2)%Z) /\
  ((Z.of_nat 1 <= 8 / 4)%Z ->
   spill_slot_index 4 4 1 8 = (Z.of_nat 4 + (8 / 4 - Z.of_nat 1))%Z) /\
  ((8 / 4 < Z.of_nat 1 <= Z.of_nat 4 + 8 / 4)%Z ->
   (0 <= spill_slot_index 4 4 1 8 < Z.of_nat 4)%Z).
Proof.
  apply (spill_slot_index_bounds 4 4 2 1 8); simpl; lia.
Defined.

(** ** Assignments on which the validator gives a verdict *)

(** The registers of the mask that the validator computes for an interval
    with a valid assignment are registers of the file. *)
Lemma validator_mask_within (dbg : bool) (codegen : CodeGenerator)
    (liveness : option SsaLivenessAnalysis) (register_type : RegisterType)
    (i : LiveInterval) :
  registers_of codegen register_type <= 32 ->
  first_range_ i <> [] ->
  match register_ i with
  | Some reg =>
      (0 <= reg < Z.of_nat (registers_of codegen register_type))%Z /\
      (dbg = true ->
       is_fp_register register_type = IsFloatingPointType (type_ i))
  | None =>
      is_fixed_ i = true ->
      liveness <> None /\ (dbg = true -> type_ i = kVoid)
  end ->
  exists mask,
    validator_mask dbg codegen liveness register_type i = Ok mask /\
    forall reg, reg ∈ LowToHighBits mask ->
                reg < registers_of codegen register_type.
Proof.
  intros Hn Hranges Hvalid.
  destruct (GetBlockedRegistersForCall_spec dbg _
              (callee_save_of codegen register_type) Hn)
    as (blocked & Hblocked & Hbits).
  unfold validator_mask. rewrite Hblocked. simpl.
  unfold get_register_mask.
  destruct (register_ i) as [reg|].
  - destruct Hvalid as [Hreg Htype].
    rewrite DCHECK_when
      by (intros Hdbg; rewrite Htype by assumption; apply eqb_reflx).
    rewrite DCHECK_when.
    2:{ intros _. apply Z.leb_le. unfold size_t, size_t_bits, uint32_bits.
        rewrite Z.mod_small; lia. }
    simpl. exists (Z.shiftl 1 reg). split.
    + apply shl1_defined. split; [lia|reflexivity].
    + intros r Hin. apply LowToHighBits_spec in Hin as [Hbit _].
      rewrite Z.shiftl_1_l, Z.pow2_bits_eqb in Hbit by lia.
      apply Z.eqb_eq in Hbit. lia.
  - destruct (is_fixed_ i).
    + destruct (Hvalid eq_refl) as [Hliveness Htype].
      rewrite DCHECK_when by (intros Hdbg; apply DataType_eqb_eq; auto).
      rewrite DCHECK_when
        by (intros _; now apply negb_true_iff, bool_decide_eq_false).
      simpl. unfold GetStart.
      destruct (first_range_ i) as [|r rest]; [contradiction|]. simpl.
      destruct liveness as [l|]; [|contradiction].
      eexists. split; [reflexivity|].
      intros reg Hin. apply LowToHighBits_spec in Hin as [Hbit _].
      match type of Hbit with
      | context [GetInstructionFromPosition l ?index] =>
          destruct (GetInstructionFromPosition l index)
      end.
      * rewrite Hbits in Hbit. apply andb_true_iff in Hbit as [Hlt _].
        now apply Nat.ltb_lt.
      * rewrite MaxInt_bits in Hbit by assumption. now apply Nat.ltb_lt.
    + exists 0%Z. split; [reflexivity|].
      intros reg Hin. apply LowToHighBits_spec in Hin as [Hbit _].
      rewrite Z.bits_0 in Hbit. discriminate.
Qed.

(** X16. On an interval set whose assignments are valid, the validator never
    leaves its timelines, and in non-fatal mode it returns a verdict: it
    neither aborts nor follows a pointer or an index that it should
    not. *)
Theorem ValidateIntervals_verdict_on_valid_assignments
    (dbg : bool) (kVRegSize : Z) (fuel : nat) (h : list LiveInterval)
    (intervals : list nat) (number_of_spill_slots number_of_out_slots : nat)
    (codegen : CodeGenerator) (liveness : option SsaLivenessAnalysis)
    (register_type : RegisterType) (visits : list Visit) :
  let number_of_registers := registers_of codegen register_type in
  let mask_of := validator_mask dbg codegen liveness register_type in
  let validate :=
    ValidateIntervals dbg kVRegSize fuel h intervals number_of_spill_slots
      number_of_out_slots codegen liveness register_type in
  (0 < kVRegSize)%Z ->
  number_of_registers <= 32 ->
  (Z.of_nat number_of_out_slots < 2 ^ 32)%Z ->
  all_visits fuel h intervals = Ok visits ->
  Forall (valid_assignment dbg kVRegSize codegen liveness register_type
            number_of_spill_slots number_of_out_slots) visits ->
  Forall (wf_visit kVRegSize mask_of number_of_registers
            number_of_spill_slots number_of_out_slots) visits /\
  (validate false = Ok true \/ validate false = Ok false).
Proof.
  intros number_of_registers mask_of validate Hsize Hn Hout Hvisits Hvalid.
  assert (Hwf : Forall (wf_visit kVRegSize mask_of number_of_registers
                          number_of_spill_slots number_of_out_slots) visits).
  { destruct (all_visits_spec fuel h intervals visits Hvisits)
      as [Hranges _].
    rewrite Forall_forall in *. intros v Hv.
    destruct (Hvalid v Hv) as [Hregister Hslot]. split.
    - apply validator_mask_within; [assumption| |assumption].
      intros Hnil. specialize (Hranges v Hv). rewrite Hnil in Hranges.
      inversion Hranges.
    - intros idx Hidx. unfold slot_timeline in Hidx.
      destruct (spill_slot_ (parent_of_current_ v)) as [slot|];
        [|discriminate].
      destruct (has_own_stack_slot _) eqn:Hown; [discriminate|].
      simpl in Hidx. injection Hidx as <-.
      destruct Hslot as [?|[Hint Harea]]; [discriminate|].
      unfold number_of_registers in *.
      rewrite spill_slot_index_plain; try assumption; lia. }
  split; [exact Hwf|].
  now apply (ValidateIntervals_nonfatal_returns dbg kVRegSize fuel h
               intervals number_of_spill_slots number_of_out_slots codegen
               liveness register_type visits).
Qed.

(** The theorem at the two intervals on spill slot 0 over [[4, 8)] and
    [[6, 10)]. *)
Lemma ValidateIntervals_verdict_on_valid_assignments_witness :
  scenario_validate true (arena_slot_overlap scenario_call) false = Ok true \/
  scenario_validate true (arena_slot_overlap scenario_call) false = Ok false.
Proof.
  refine (proj2 (ValidateIntervals_verdict_on_valid_assignments
            true 4 10 (arena_slot_overlap scenario_call) [0; 1] 1 0
            scenario_codegen None kCoreRegister
            [mkVisit (mkLiveRange 4 8)
               (scenario_interval 4 8 None (Some 0%Z) 0 scenario_call false)
               (scenario_interval 4 8 None (Some 0%Z) 0 scenario_call false);
             mkVisit (mkLiveRange 6 10)
               (scenario_interval 6 10 None (Some 0%Z) 1 scenario_call false)
               (scenario_interval 6 10 None (Some 0%Z) 1 scenario_call false)]
            _ _ _ _ _)).
  - lia.
  - simpl. lia.
  - simpl. lia.
  - reflexivity.
  - assert (Hvalid : forall first last self,
              valid_assignment true 4 scenario_codegen None kCoreRegister 1 0
                (mkVisit (mkLiveRange first last)
                   (scenario_interval first last None (Some 0%Z) self
                      scenario_call false)
                   (scenario_interval first last None (Some 0%Z) self
                      scenario_call false))).
    { intros first last self. split.
      - simpl. discriminate.
      - simpl. right. split; [lia|]. change (0 / 4)%Z with 0%Z. lia. }
    constructor; [apply Hvalid|]. constructor; [apply Hvalid|constructor].
Defined.

(** ** Registers across a call *)

Section AcrossCall.
Variable dbg : bool.
Variable codegen : CodeGenerator.
Variable l : SsaLivenessAnalysis.
Variable register_type : RegisterType.

Let number_of_registers := registers_of codegen register_type.
Let mask_of := validator_mask dbg codegen (Some l) register_type.

Hypothesis registers_fit : number_of_registers <= 32.

(** The registers that the validator marks for a fixed interval without a
    register: those that are not callee-saved when the start of its first
    range maps to an instruction, and all the registers of the file
    otherwise. *)
Lemma uses_register_fixed (v : Visit) (r : LiveRange) (rest : list LiveRange)
    (reg : nat) :
  register_ (current_ v) = None ->
  is_fixed_ (current_ v) = true ->
  first_range_ (current_ v) = r :: rest ->
  (dbg = true -> type_ (current_ v) = kVoid) ->
  uses_register mask_of v reg <->
  reg < number_of_registers /\
  (is_instruction l (start_ r) = true ->
   callee_save_of codegen register_type reg = false).
Proof.
  intros Hreg Hfixed Hranges Htype.
  destruct (GetBlockedRegistersForCall_spec dbg _
              (callee_save_of codegen register_type) registers_fit)
    as (blocked & Hblocked & Hbits).
  assert (Hmask : mask_of (current_ v) =
                  Ok (if is_instruction l (start_ r) then blocked
                      else MaxInt number_of_registers)).
  { unfold mask_of, validator_mask. fold number_of_registers.
    rewrite Hblocked. simpl. unfold get_register_mask.
    rewrite Hreg, Hfixed, Hranges.
    rewrite DCHECK_when by (intros Hdbg; now rewrite Htype).
    rewrite DCHECK_when by reflexivity.
    unfold GetStart. rewrite Hranges. reflexivity. }
  unfold uses_register. rewrite Hmask. split.
  - intros (mask & Heq & Hin). injection Heq as <-.
    apply LowToHighBits_spec in Hin as [Hbit _].
    destruct (is_instruction l (start_ r)).
    + rewrite Hbits in Hbit. fold number_of_registers in Hbit.
      apply andb_true_iff in Hbit as [Hlt Hsave].
      apply Nat.ltb_lt in Hlt. apply negb_true_iff in Hsave. auto.
    + rewrite MaxInt_bits in Hbit by assumption.
      apply Nat.ltb_lt in Hbit. split; [assumption|discriminate].
  - intros [Hlt Hsave]. eexists. split; [reflexivity|].
    apply LowToHighBits_spec. split; [|lia].
    destruct (is_instruction l (start_ r)).
    + rewrite Hbits. fold number_of_registers.
      apply andb_true_iff. split; [now apply Nat.ltb_lt|].
      apply negb_true_iff. auto.
    + rewrite MaxInt_bits by assumption. now apply Nat.ltb_lt.
Qed.

(** The register that the validator marks for an interval that has
    one. *)
Lemma uses_register_assigned (v : Visit) (assigned reg : nat) :
  register_ (current_ v) = Some (Z.of_nat assigned) ->
  assigned < 32 ->
  (dbg = true ->
   is_fp_register register_type = IsFloatingPointType (type_ (current_ v))) ->
  uses_register mask_of v reg <-> reg = assigned.
Proof.
  intros Hreg Hlt Htype.
  destruct (GetBlockedRegistersForCall_spec dbg _
              (callee_save_of codegen register_type) registers_fit)
    as (blocked & Hblocked & _).
  assert (Hmask : mask_of (current_ v) = Ok (Z.shiftl 1 (Z.of_nat assigned))).
  { unfold mask_of, validator_mask. fold number_of_registers.
    rewrite Hblocked. simpl. unfold get_register_mask. rewrite Hreg.
    rewrite DCHECK_when
      by (intros Hdbg; rewrite Htype by assumption; apply eqb_reflx).
    rewrite DCHECK_when.
    2:{ intros _. apply Z.leb_le. unfold size_t, size_t_bits, uint32_bits.
        rewrite Z.mod_small; lia. }
    simpl. now apply shl1_Ok. }
  unfold uses_register. rewrite Hmask. split.
  - intros (mask & Heq & Hin). injection Heq as <-.
    apply LowToHighBits_spec in Hin as [Hbit _].
    rewrite testbit_shl1 in Hbit. now apply Nat.eqb_eq.
  - intros ->. eexists. split; [reflexivity|].
    apply LowToHighBits_spec. split; [|assumption].
    rewrite testbit_shl1. apply Nat.eqb_refl.
Qed.

End AcrossCall.

(** X17. A value that lives in a register that is not callee-saved over a
    position of a call (a fixed interval without a register whose first
    range starts at an instruction) is rejected by non-fatal
    [ValidateIntervals], whichever of the two comes first in the array; a
    callee-saved register is not among the registers that the call
    holds. *)
Theorem ValidateIntervals_rejects_clobbered_across_call
    (dbg : bool) (kVRegSize : Z) (fuel : nat) (h : list LiveInterval)
    (intervals : list nat) (number_of_spill_slots number_of_out_slots : nat)
    (codegen : CodeGenerator) (l : SsaLivenessAnalysis)
    (register_type : RegisterType) (visits : list Visit)
    (i j : nat) (call value : Visit) (r : LiveRange) (rest : list LiveRange)
    (reg : nat) :
  let number_of_registers := registers_of codegen register_type in
  let mask_of := validator_mask dbg codegen (Some l) register_type in
  number_of_registers <= 32 ->
  all_visits fuel h intervals = Ok visits ->
  Forall (wf_visit kVRegSize mask_of number_of_registers number_of_spill_slots
            number_of_out_slots) visits ->
  i <> j -> visits !! i = Some call -> visits !! j = Some value ->
  register_ (current_ call) = None ->
  is_fixed_ (current_ call) = true ->
  first_range_ (current_ call) = r :: rest ->
  is_instruction l (start_ r) = true ->
  (dbg = true -> type_ (current_ call) = kVoid) ->
  register_ (current_ value) = Some (Z.of_nat reg) ->
  reg < number_of_registers ->
  (dbg = true ->
   is_fp_register register_type
   = IsFloatingPointType (type_ (current_ value))) ->
  overlap (range_ call) (range_ value) ->
  exempt call = false -> exempt value = false ->
  (callee_save_of codegen register_type reg = false ->
   ValidateIntervals dbg kVRegSize fuel h intervals number_of_spill_slots
     number_of_out_slots codegen (Some l) register_type false = Ok false) /\
  (callee_save_of codegen register_type reg = true ->
   ~ uses_register mask_of call reg).
Proof.
  intros number_of_registers mask_of Hn Hvisits Hwf Hij Hcall Hvalue
    Hcall_reg Hfixed Hranges Hinstruction Hvoid Hvalue_reg Hreg Htype
    Hoverlap Hexempt_call Hexempt_value.
  pose proof (uses_register_fixed dbg codegen l register_type Hn call r rest
                reg Hcall_reg Hfixed Hranges Hvoid) as Hcall_uses.
  pose proof (uses_register_assigned dbg codegen l register_type Hn value reg
                reg Hvalue_reg ltac:(unfold number_of_registers in *; lia)
                Htype) as Hvalue_uses.
  fold mask_of number_of_registers in Hcall_uses, Hvalue_uses.
  split.
  - intros Hsave.
    assert (Hu_call : uses_register mask_of call reg)
      by (apply Hcall_uses; auto).
    assert (Hu_value : uses_register mask_of value reg)
      by now apply Hvalue_uses.
    destruct (Nat.lt_gt_cases i j) as [Hcases _].
    destruct (Hcases Hij) as [Hlt|Hgt].
    + apply (ValidateIntervals_conflict dbg kVRegSize fuel h intervals
               number_of_spill_slots number_of_out_slots codegen (Some l)
               register_type visits Hn Hvisits Hwf i j call value reg);
        try assumption; [now right|now right].
    + apply (ValidateIntervals_conflict dbg kVRegSize fuel h intervals
               number_of_spill_slots number_of_out_slots codegen (Some l)
               register_type visits Hn Hvisits Hwf j i value call reg);
        try assumption; [now right|now apply overlap_sym|now right].
  - intros Hsave Huses. apply Hcall_uses in Huses as [_ Hclobbered].
    rewrite Hclobbered in Hsave by assumption. discriminate.
Qed.

(** The theorem at the value in register 1 across the call at position
    10. *)
Lemma ValidateIntervals_rejects_clobbered_across_call_witness :
  ValidateIntervals true 4 10 arena_across_call [0; 1] 1 0 scenario_codegen
    (Some (scenario_liveness true)) kCoreRegister false = Ok false.
Proof.
  refine (proj1 (ValidateIntervals_rejects_clobbered_across_call
            true 4 10 arena_across_call [0; 1] 1 0 scenario_codegen
            (scenario_liveness true) kCoreRegister
            [mkVisit (mkLiveRange 8 14)
               (scenario_interval 8 14 (Some 1%Z) None 0 scenario_call false)
               (scenario_interval 8 14 (Some 1%Z) None 0 scenario_call false);
             mkVisit (mkLiveRange 10 12)
               (mkLiveInterval [mkLiveRange 10 12] None None true kVoid 1 None
                  NoCompanion None false false)
               (mkLiveInterval [mkLiveRange 10 12] None None true kVoid 1 None
                  NoCompanion None false false)]
            1 0 _ _ (mkLiveRange 10 12) [] 1
            _ _ _ _ _ _ _ _ _ _ _ _ _ _ _ _ _) _).
  - simpl. lia.
  - reflexivity.
  - constructor; [|constructor; [|constructor]].
    + split; [|intros idx Hidx; discriminate].
      apply validator_mask_within; [simpl; lia|discriminate|].
      simpl. split; [lia|reflexivity].
    + split; [|intros idx Hidx; discriminate].
      apply validator_mask_within; [simpl; lia|discriminate|].
      simpl. intros _. split; [discriminate|reflexivity].
  - lia.
  - reflexivity.
  - reflexivity.
  - reflexivity.
  - reflexivity.
  - reflexivity.
  - reflexivity.
  - reflexivity.
  - reflexivity.
  - simpl. lia.
  - reflexivity.
  - exists 10. unfold covers. simpl. lia.
  - reflexivity.
  - reflexivity.
  - reflexivity.
Defined.

(** ** What [AllRangesIterator] visits *)

Lemma standing_on_suffixes (p : nat) (ranges : list LiveRange) :
  map standing_on (map (mkAllRangesIterator (Some p)) (suffixes ranges)) =
  map (fun r => Some (p, r)) ranges.
Proof.
  induction ranges as [|r rest IH]; simpl; [reflexivity|]. now rewrite IH.
Qed.

Lemma standing_on_states (h : list LiveInterval) (ps : list nat) :
  map standing_on (states_of h ps) = map Some (ranges_of h ps).
Proof.
  unfold states_of, ranges_of.
  induction ps as [|p ps IH]; simpl; [reflexivity|].
  rewrite !map_app, IH. f_equal.
  destruct (h !! p) as [i|]; [|reflexivity].
  rewrite standing_on_suffixes, map_map. reflexivity.
Qed.

(** The iterator inside interval [p], with the ranges [cur] left: it
    stands on each of them in turn, and then goes on as from the state
    that [Advance] reaches after the last of them. *)
Lemma visited_suffixes (h : list LiveInterval) (p : nat)
    (next : AllRangesIterator) (rest : list AllRangesIterator) (m : nat) :
  (forall last_range,
     Advance h (mkAllRangesIterator (Some p) [last_range]) = Ok next) ->
  (forall fuel, m < fuel -> visited fuel h next = Ok rest) ->
  forall (cur : list LiveRange) (fuel : nat),
    cur <> [] -> length cur + m < fuel ->
    visited fuel h (mkAllRangesIterator (Some p) cur) =
    Ok (map (mkAllRangesIterator (Some p)) (suffixes cur) ++ rest).
Proof.
  intros Hnext Hrest.
  induction cur as [|r cur IH]; intros fuel Hcur Hfuel; [contradiction|].
  destruct fuel as [|fuel]; [lia|].
  destruct cur as [|r' cur].
  - simpl visited. rewrite Hnext. simpl.
    rewrite Hrest by (simpl in Hfuel; lia). reflexivity.
  - simpl in Hfuel.
    change (visited (S fuel) h (mkAllRangesIterator (Some p) (r :: r' :: cur)))
      with (let* rest' := visited fuel h
                            (mkAllRangesIterator (Some p) (r' :: cur)) in
            Ok (mkAllRangesIterator (Some p) (r :: r' :: cur) :: rest')).
    rewrite IH by (simpl; first [discriminate|lia]). reflexivity.
Qed.

Lemma visited_siblings (h : list LiveInterval) (p : nat) (ps : list nat) :
  siblings h p ps ->
  Forall (fun q => exists i, h !! q = Some i /\ first_range_ i <> []) ps ->
  exists i,
    h !! p = Some i /\
    forall fuel, length (states_of h ps) < fuel ->
      visited fuel h (mkAllRangesIterator (Some p) (first_range_ i)) =
      Ok (states_of h ps).
Proof.
  induction 1 as [p i Hp Hlast|p i q ps Hp Hnext _ IH]; intros Hranges.
  - exists i. split; [assumption|].
    apply Forall_cons in Hranges as [(i' & Hi' & Hne) _].
    assert (i' = i) as -> by congruence.
    intros fuel Hfuel. unfold states_of in *. simpl in *.
    rewrite Hp, app_nil_r in *. rewrite length_map in Hfuel.
    assert (Hlen : length (suffixes (first_range_ i))
                   = length (first_range_ i)).
    { clear. induction (first_range_ i); simpl; auto. }
    rewrite <- (app_nil_r (map _ _)).
    apply (visited_suffixes h p (mkAllRangesIterator None []) [] 0).
    + intros r. unfold Advance, CurrentInterval, deref. simpl.
      rewrite Hp. simpl. now rewrite Hlast.
    + intros fuel' Hfuel'. destruct fuel'; [lia|reflexivity].
    + assumption.
    + lia.
  - apply Forall_cons in Hranges as [(i' & Hi' & Hne) Hranges].
    assert (i' = i) as -> by congruence.
    destruct (IH Hranges) as (iq & Hq & Hvisited).
    exists i. split; [assumption|].
    intros fuel Hfuel.
    change (states_of h (p :: ps))
      with (match h !! p with
            | Some i => map (mkAllRangesIterator (Some p))
                            (suffixes (first_range_ i))
            | None => []
            end ++ states_of h ps) in *.
    rewrite Hp in *. rewrite length_app, length_map in Hfuel.
    assert (Hlen : length (suffixes (first_range_ i))
                   = length (first_range_ i)).
    { clear. induction (first_range_ i); simpl; auto. }
    apply (visited_suffixes h p
             (mkAllRangesIterator (Some q) (first_range_ iq))
             (states_of h ps) (length (states_of h ps))).
    + intros r. unfold Advance, CurrentInterval, deref. simpl.
      rewrite Hp. simpl. rewrite Hnext, Hq. reflexivity.
    + exact Hvisited.
    + assumption.
    + lia.
Qed.

(** X18. A loop over an [AllRangesIterator] that starts at interval [p], on a
    chain of siblings that all have a range: with fuel for every range, the
    body runs once on each range of [p], then once on each range of its
    next sibling, and so on to the last sibling, in this order, and the
    loop ends. *)
Theorem AllRangesIterator_visits_every_range (h : list LiveInterval)
    (p : nat) (ps : list nat) :
  siblings h p ps ->
  Forall (fun q => exists i, h !! q = Some i /\ first_range_ i <> []) ps ->
  map standing_on (states_of h ps) = map Some (ranges_of h ps) /\
  forall (S : Type) (body : AllRangesIterator -> S -> result S) (s : S)
         (fuel : nat),
    length (ranges_of h ps) < fuel ->
    for_all_ranges fuel h body p s = for_each body (states_of h ps) s.
Proof.
  intros Hsiblings Hranges.
  pose proof (standing_on_states h ps) as Hstanding.
  split; [exact Hstanding|].
  intros S body s fuel Hfuel.
  destruct (visited_siblings h p ps Hsiblings Hranges) as (i & Hp & Hvisited).
  unfold for_all_ranges, AllRangesIterator_new, deref. rewrite Hp. simpl.
  apply all_ranges_loop_visited, Hvisited.
  apply (f_equal (@length _)) in Hstanding.
  rewrite !length_map in Hstanding. lia.
Qed.

(** The theorem at the interval with the two ranges [[0, 4)] and
    [[8, 12)]. *)
Lemma AllRangesIterator_visits_every_range_witness :
  map standing_on (states_of arena_hole [0]) =
  map Some (ranges_of arena_hole [0]) /\
  forall (S : Type) (body : AllRangesIterator -> S -> result S) (s : S)
         (fuel : nat),
    length (ranges_of arena_hole [0]) < fuel ->
    for_all_ranges fuel arena_hole body 0 s =
    for_each body (states_of arena_hole [0]) s.
Proof.
  apply (AllRangesIterator_visits_every_range arena_hole 0 [0]).
  - now apply (siblings_last arena_hole 0 interval_with_hole).
  - constructor; [|constructor].
    exists interval_with_hole. split; [reflexivity|discriminate].
Defined.

(** ** [Split] at the start, twice *)

Lemma with_register_cleared (i : LiveInterval) :
  register_ i = None -> with_register None i = i.
Proof. destruct i. simpl. now intros ->. Qed.

Lemma ClearRegister_inv (h h' : list LiveInterval) (p : nat) :
  ClearRegister h p = Ok h' ->
  exists i, h !! p = Some i /\ h' = <[p := with_register None i]> h.
Proof.
  unfold ClearRegister, update, deref. intros Hclear.
  destruct (h !! p) as [i|]; [|discriminate].
  injection Hclear as <-. eauto.
Qed.

Lemma ClearRegister_cleared (h : list LiveInterval) (p : nat)
    (i : LiveInterval) :
  h !! p = Some i -> register_ i = None -> ClearRegister h p = Ok h.
Proof.
  intros Hp Hreg. rewrite (ClearRegister_Ok h p i Hp).
  rewrite with_register_cleared by assumption.
  now rewrite list_insert_id.
Qed.

(** X19. After a [Split] at the start of an interval, a second [Split] at the
    start of the same interval passes the same assertions, changes nothing
    and returns the same handle. *)
Theorem Split_at_start_idempotent (dbg : bool) (h h' : list LiveInterval)
    (interval : nat) (i : LiveInterval) (start : nat) (result : nat) :
  h !! interval = Some i ->
  GetStart i = Ok start ->
  Split dbg h interval start = Ok (h', result) ->
  result = interval /\
  Split dbg h' interval start = Ok (h', interval).
Proof.
  intros Hp Hstart Hsplit.
  unfold Split, deref in Hsplit. rewrite Hp in Hsplit. simpl in Hsplit.
  rewrite Hstart in Hsplit. simpl in Hsplit.
  apply bind_Ok in Hsplit as (u1 & Hcheck1 & Hsplit).
  apply bind_Ok in Hsplit as (dead & Hdead & Hsplit).
  apply bind_Ok in Hsplit as (u2 & Hcheck2 & Hsplit).
  rewrite Nat.eqb_refl in Hsplit.
  apply bind_Ok in Hsplit as (h1 & Hclear & Hsplit).
  apply ClearRegister_inv in Hclear as (i0 & Hi0 & ->).
  assert (i0 = i) as -> by congruence.
  set (h1 := <[interval := with_register None i]> h) in *.
  assert (Hlen : interval < length h) by (eapply lookup_lt_Some; eassumption).
  assert (Hh1 : h1 !! interval = Some (with_register None i))
    by now apply list_lookup_insert_eq.
  (* The arena after the first split, and what it holds. *)
  assert (Hafter : result = interval /\
            h' !! interval = Some (with_register None i) /\
            forall c, companion_of i = Some c ->
                      exists ic, h' !! c = Some ic /\ register_ ic = None).
  { unfold companion_of. destruct (companion_ i) as [|c|c].
    - injection Hsplit as <- <-. split; [reflexivity|].
      split; [assumption|discriminate].
    - apply bind_Ok in Hsplit as (h2 & Hclear & Hsplit).
      injection Hsplit as <- <-.
      apply ClearRegister_inv in Hclear as (ic & Hic & ->).
      assert (Hc : c < length h1) by (eapply lookup_lt_Some; eassumption).
      split; [reflexivity|]. split.
      + destruct (Nat.eq_dec c interval) as [->|Hne].
        * rewrite list_lookup_insert_eq by assumption.
          rewrite Hh1 in Hic. injection Hic as <-. reflexivity.
        * now rewrite list_lookup_insert_ne.
      + intros c' Hc'. injection Hc' as <-.
        exists (with_register None ic).
        split; [now apply list_lookup_insert_eq|reflexivity].
    - apply bind_Ok in Hsplit as (h2 & Hclear & Hsplit).
      injection Hsplit as <- <-.
      apply ClearRegister_inv in Hclear as (ic & Hic & ->).
      assert (Hc : c < length h1) by (eapply lookup_lt_Some; eassumption).
      split; [reflexivity|]. split.
      + destruct (Nat.eq_dec c interval) as [->|Hne].
        * rewrite list_lookup_insert_eq by assumption.
          rewrite Hh1 in Hic. injection Hic as <-. reflexivity.
        * now rewrite list_lookup_insert_ne.
      + intros c' Hc'. injection Hc' as <-.
        exists (with_register None ic).
        split; [now apply list_lookup_insert_eq|reflexivity]. }
  destruct Hafter as (-> & Hinterval & Hcompanion).
  split; [reflexivity|].
  unfold Split, deref. rewrite Hinterval. simpl.
  change (GetStart (with_register None i)) with (GetStart i).
  rewrite Hstart. simpl. rewrite Hcheck1. simpl.
  change (IsDeadAt (with_register None i) start) with (IsDeadAt i start).
  rewrite Hdead. simpl. rewrite Hcheck2. simpl.
  rewrite Nat.eqb_refl.
  rewrite (ClearRegister_cleared h' interval _ Hinterval eq_refl). simpl.
  unfold companion_of in Hcompanion.
  destruct (companion_ i) as [|c|c]; [reflexivity| |];
    destruct (Hcompanion c eq_refl) as (ic & Hic & Hreg);
    now rewrite (ClearRegister_cleared h' c ic Hic Hreg).
Qed.

(** The theorem at the low half of the pair, whose companion is the high
    half. *)
Lemma Split_at_start_idempotent_witness :
  0 = 0 /\
  Split true [with_register None low_half; with_register None high_half] 0 4 =
  Ok ([with_register None low_half; with_register None high_half], 0).
Proof.
  apply (Split_at_start_idempotent true arena_pair
           [with_register None low_half; with_register None high_half]
           0 low_half 4 0); reflexivity.
Defined.

(** ** More on [SplitBetween] *)

(** X20. The scan over the dominated blocks ends on the block of [to] it
    started from or on a dominated block that starts strictly between
    [from] and that block, and no dominated block that starts after [from]
    starts before the block it ends on: it is the closest. *)
Theorem SplitBetween_scan_closest (dbg : bool) (g : HGraph) (from : nat)
    (block_from : HBasicBlock) (dominated : list HBasicBlock)
    (block_to closest : HBasicBlock) :
  for_each (closer_dominated dbg g from block_from) dominated block_to =
    Ok closest ->
  (closest = block_to \/
   (closest ∈ dominated /\
    from < GetLifetimeStart g closest < GetLifetimeStart g block_to)) /\
  GetLifetimeStart g closest <= GetLifetimeStart g block_to /\
  forall d, d ∈ dominated -> from < GetLifetimeStart g d ->
            GetLifetimeStart g closest <= GetLifetimeStart g d.
Proof.
  revert block_to.
  induction dominated as [|d dominated IH]; intros block_to Hscan.
  - injection Hscan as <-. split; [auto|]. split; [lia|].
    intros d Hd. inversion Hd.
  - simpl in Hscan. apply bind_Ok in Hscan as (block_to' & Hround & Hscan).
    destruct (IH block_to' Hscan) as (Hclosest & Hle & Hmin).
    unfold closer_dominated in Hround.
    destruct (Nat.ltb_spec from (GetLifetimeStart g d)) as [Hfrom|Hfrom];
      simpl in Hround.
    + destruct (Nat.ltb_spec (GetLifetimeStart g d)
                  (GetLifetimeStart g block_to)) as [Hlt|Hge].
      * apply bind_Ok in Hround as (u & _ & Hround).
        injection Hround as <-. split; [|split].
        -- right. destruct Hclosest as [->|[Hin Hbetween]].
           ++ split; [apply list_elem_of_here|lia].
           ++ split; [now apply list_elem_of_further|lia].
        -- lia.
        -- intros d' Hd' Hafter. apply elem_of_cons in Hd' as [->|Hd'];
             [lia|auto].
      * injection Hround as <-. split; [|split].
        -- destruct Hclosest as [->|[Hin Hbetween]]; [auto|].
           right. split; [now apply list_elem_of_further|lia].
        -- lia.
        -- intros d' Hd' Hafter. apply elem_of_cons in Hd' as [->|Hd'];
             [lia|auto].
    + injection Hround as <-. split; [|split].
      * destruct Hclosest as [->|[Hin Hbetween]]; [auto|].
        right. split; [now apply list_elem_of_further|lia].
      * lia.
      * intros d' Hd' Hafter. apply elem_of_cons in Hd' as [->|Hd'];
          [lia|auto].
Qed.

(** The theorem at the diamond: from block 2, the closest of the blocks
    dominated by block 1 that start after position 25 and before block 4
    is block 3. *)
Lemma SplitBetween_scan_closest_witness :
  (3 = 4 \/
   (3 ∈ [6; 5; 4; 3; 2] /\
    25 < GetLifetimeStart diamond_graph 3 < GetLifetimeStart diamond_graph 4)) /\
  GetLifetimeStart diamond_graph 3 <= GetLifetimeStart diamond_graph 4 /\
  forall d, d ∈ [6; 5; 4; 3; 2] -> 25 < GetLifetimeStart diamond_graph d ->
            GetLifetimeStart diamond_graph 3 <= GetLifetimeStart diamond_graph d.
Proof.
  apply (SplitBetween_scan_closest true diamond_graph 25 2 [6; 5; 4; 3; 2] 4 3).
  reflexivity.
Defined.

(** X21. When a position maps to no block: a debug build aborts on its
    assertion; a release build splits at [to] when neither position maps
    to a block (the two null pointers compare equal), and follows a null
    pointer when exactly one does. *)
Theorem SplitBetween_position_missing_block (ra : RegisterAllocator)
    (from to : nat) :
  let block_of position :=
    GetBlockFromPosition (liveness_ ra) (position / 2) in
  (block_of from = None \/ block_of to = None ->
   SplitBetween_position true ra from to = Halt DCheckFailed) /\
  (block_of from = None -> block_of to = None ->
   SplitBetween_position false ra from to = Ok to) /\
  ((block_of from = None /\ block_of to <> None) \/
   (block_of from <> None /\ block_of to = None) ->
   SplitBetween_position false ra from to = Halt UndefinedBehaviour).
Proof.
  intros block_of. unfold SplitBetween_position. fold (block_of from).
  fold (block_of to).
  split; [|split].
  - intros [Hnone|Hnone]; rewrite Hnone.
    + reflexivity.
    + destruct (block_of from); reflexivity.
  - intros -> ->. reflexivity.
  - intros [[Hfrom Hto]|[Hfrom Hto]].
    + rewrite Hfrom. destruct (block_of to); [reflexivity|contradiction].
    + rewrite Hto. destruct (block_of from); [reflexivity|contradiction].
Qed.

(** The second part of the theorem at a liveness analysis that maps no
    position to a block. *)
Lemma SplitBetween_position_missing_block_witness :
  SplitBetween_position false
    (mkRegisterAllocator scenario_codegen
       (mkSsaLivenessAnalysis (fun _ => None) (fun _ => None))
       diamond_graph 4 0 7 0) 22 64 = Ok 64.
Proof.
  apply (proj1 (proj2 (SplitBetween_position_missing_block
                         (mkRegisterAllocator scenario_codegen
                            (mkSsaLivenessAnalysis (fun _ => None)
                               (fun _ => None))
                            diamond_graph 4 0 7 0) 22 64)));
    reflexivity.
Defined.

Section SplitBetweenMore.
Variable ra : RegisterAllocator.

Let g := graph_ ra.
Let start_of := GetLifetimeStart g.
Let block_of (position : nat) :=
  GetBlockFromPosition (liveness_ ra) (position / 2).

(** X22. With [from] and [to] in blocks and the block of [from] starting at
    or before [from], the assertion inside the scan cannot fail:
    [SplitBetween] computes a position, the same in debug and in release
    builds, and hands it to [Split]. *)
Theorem SplitBetween_position_defined (h : list LiveInterval)
    (interval : nat) (from to : nat) (block_from block_to : HBasicBlock) :
  block_of from = Some block_from ->
  block_of to = Some block_to ->
  start_of block_from <= from ->
  exists position,
    (forall dbg, SplitBetween_position dbg ra from to = Ok position) /\
    (forall dbg, SplitBetween dbg ra h interval from to =
                 Split dbg h interval position).
Proof.
  intros Hfrom Hto Hstart.
  exists (SplitBetween_spec_position g from to block_from block_to).
  assert (Hposition : forall dbg,
            SplitBetween_position dbg ra from to =
            Ok (SplitBetween_spec_position g from to block_from block_to)).
  { intros dbg. apply SplitBetween_position_spec; [assumption|assumption|].
    intros _ d _ Hd ->. fold g start_of in Hd. lia. }
  split; [exact Hposition|].
  intros dbg. unfold SplitBetween. now rewrite Hposition.
Qed.

Hypothesis model : position_model ra.

(** X23. Under the position model, for [from <= to] in different blocks,
    [SplitBetween] splits at the start of a block, strictly after [from]
    and no later than the start of the block of [to]: the split is never
    the one at the start of an interval that begins at or before
    [from]. *)
Theorem SplitBetween_splits_at_block_start (dbg : bool)
    (from to : nat) (block_from block_to : HBasicBlock) :
  from <= to ->
  block_of from = Some block_from ->
  block_of to = Some block_to ->
  block_from <> block_to ->
  exists block,
    SplitBetween_position dbg ra from to = Ok (start_of block) /\
    from < start_of block <= start_of block_to /\
    start_of block_to <= to.
Proof.
  intros Hle Hfrom Hto Hne.
  pose proof (block_starts_before ra model from block_from Hfrom) as Hstart_from.
  pose proof (block_starts_before ra model to block_to Hto) as Hstart_to.
  fold g start_of in Hstart_from, Hstart_to.
  assert (Hposition :
    SplitBetween_position dbg ra from to =
    Ok (SplitBetween_spec_position g from to block_from block_to)).
  { apply SplitBetween_position_spec; [assumption|assumption|].
    intros _ d _ Hd ->. fold g start_of in Hd. lia. }
  unfold SplitBetween_spec_position in Hposition.
  destruct (Nat.eqb_spec block_from block_to) as [|_]; [contradiction|].
  rewrite <- (outermost_header_promoted ra) in Hposition.
  fold g start_of in Hposition.
  assert (Hto_after : from < start_of block_to).
  { apply (starts_after_block ra model from block_from); [assumption|].
    destruct model as (_ & Hlatest & Hinj & _).
    assert (start_of block_from <= start_of block_to)
      by (apply (Hlatest to); [assumption|fold g start_of; lia]).
    assert (start_of block_from <> start_of block_to)
      by (intros Heq; apply Hne; now apply (Hinj from to)).
    fold g start_of. lia. }
  set (candidates := List.filter (qualifies g from block_to)
                       (dominated_by_dominator g block_from)) in *.
  set (target := smallest_start g candidates block_to) in *.
  assert (Htarget : from < start_of target <= start_of block_to).
  { apply (smallest_start_between ra); [|fold g start_of; lia].
    apply Forall_forall. intros d Hd.
    apply list_elem_of_In, filter_In in Hd as [_ Hd].
    unfold qualifies in Hd. apply andb_true_iff in Hd as [Hd _].
    now apply Nat.ltb_lt in Hd. }
  assert (Hfinal : from < start_of (outermost_header g block_from
                                      (LoopsOutward g target) target)
                   <= start_of target).
  { apply (promoted_between ra model); [assumption| |fold g start_of; lia].
    apply Forall_forall. intros loop Hloop.
    destruct model as (_ & _ & _ & Hheader). now apply Hheader. }
  eexists. split; [exact Hposition|]. lia.
Qed.

End SplitBetweenMore.

(** The theorem for [from] in block 2 and [to] in block 6. *)
Lemma SplitBetween_position_defined_witness :
  exists position,
    (forall dbg,
       SplitBetween_position dbg diamond_allocator 22 64 = Ok position) /\
    (forall dbg,
       SplitBetween dbg diamond_allocator arena_hole 0 22 64 =
       Split dbg arena_hole 0 position).
Proof.
  apply (SplitBetween_position_defined diamond_allocator arena_hole 0 22 64
           2 6).
  - reflexivity.
  - reflexivity.
  - simpl. lia.
Defined.

(** The theorem for [from] in block 2 and [to] in block 6. *)
Lemma SplitBetween_splits_at_block_start_witness :
  exists block,
    SplitBetween_position true diamond_allocator 22 64 =
      Ok (GetLifetimeStart (graph_ diamond_allocator) block) /\
    22 < GetLifetimeStart (graph_ diamond_allocator) block
    <= GetLifetimeStart (graph_ diamond_allocator) 6 /\
    GetLifetimeStart (graph_ diamond_allocator) 6 <= 64.
Proof.
  apply (SplitBetween_splits_at_block_start diamond_allocator
           diamond_position_model true 22 64 2 6).
  - lia.
  - reflexivity.
  - reflexivity.
  - discriminate.
Defined.

(** ** The destructor *)

Lemma poison_all_keeps (instructions : list nat) (intervals : LiveIntervals)
    (instruction : nat) :
  intervals instruction = bad_live_interval ->
  poison_all instructions intervals instruction = bad_live_interval.
Proof.
  unfold poison_all. revert intervals.
  induction instructions as [|x xs IH]; intros intervals Hbad; simpl;
    [assumption|].
  apply IH. unfold SetLiveInterval. now destruct (instruction =? x).
Qed.

Lemma poison_all_in (instructions : list nat) (intervals : LiveIntervals)
    (instruction : nat) :
  instruction ∈ instructions ->
  poison_all instructions intervals instruction = bad_live_interval.
Proof.
  revert intervals.
  induction instructions as [|x xs IH]; intros intervals Hin;
    [inversion Hin|].
  apply elem_of_cons in Hin as [->|Hin].
  - apply (poison_all_keeps xs). unfold SetLiveInterval.
    now rewrite Nat.eqb_refl.
  - now apply IH.
Qed.

Lemma poison_all_out (instructions : list nat) (intervals : LiveIntervals)
    (instruction : nat) :
  instruction ∉ instructions ->
  poison_all instructions intervals instruction = intervals instruction.
Proof.
  revert intervals.
  induction instructions as [|x xs IH]; intros intervals Hnot;
    [reflexivity|].
  rewrite elem_of_cons in Hnot.
  change (poison_all (x :: xs) intervals)
    with (poison_all xs (SetLiveInterval x bad_live_interval intervals)).
  rewrite IH by tauto. unfold SetLiveInterval.
  destruct (Nat.eqb_spec instruction x) as [->|_]; [tauto|reflexivity].
Qed.

(** X24. In a debug build the destructor points the back-reference of every
    instruction of the method body (the phis and the other instructions of
    every block of the linear order) at the poison address, and leaves the
    back-reference of any other instruction as it is; in a release build
    it changes nothing. *)
Theorem RegisterAllocator_delete_poisons (graph : MethodBody)
    (intervals : LiveIntervals) (instruction : nat) :
  (in_method graph instruction ->
   RegisterAllocator_delete true graph intervals instruction
   = RawAddress 0xebad7113) /\
  (~ in_method graph instruction ->
   RegisterAllocator_delete true graph intervals instruction
   = intervals instruction) /\
  RegisterAllocator_delete false graph intervals instruction
  = intervals instruction.
Proof.
  unfold RegisterAllocator_delete, in_method.
  split; [|split; [|reflexivity]].
  - revert intervals.
    assert (Hkeep : forall blocks s,
              s instruction = bad_live_interval ->
              fold_left (fun s block =>
                           poison_all (GetInstructions graph block)
                                      (poison_all (GetPhis graph block) s))
                        blocks s instruction = bad_live_interval).
    { induction blocks as [|b bs IH]; intros s Hs; simpl; [assumption|].
      apply IH. now apply poison_all_keeps, poison_all_keeps. }
    induction (GetLinearOrder graph) as [|b bs IH];
      intros intervals (block & Hblock & Hin); [inversion Hblock|].
    simpl. apply elem_of_cons in Hblock as [->|Hblock].
    + apply Hkeep. destruct Hin as [Hphi|Hins].
      * now apply poison_all_keeps, poison_all_in.
      * now apply poison_all_in.
    + apply IH. eauto.
  - revert intervals.
    induction (GetLinearOrder graph) as [|b bs IH]; intros intervals Hnot;
      simpl; [reflexivity|].
    rewrite IH.
    + rewrite !poison_all_out; [reflexivity| |];
        intros Hin; apply Hnot; exists b;
        (split; [apply list_elem_of_here|auto]).
    + intros (block & Hblock & Hin). apply Hnot. exists block.
      split; [now apply list_elem_of_further|assumption].
Qed.

(** The first part of the theorem at instruction 3 of the second of two
    blocks. *)
Lemma RegisterAllocator_delete_poisons_witness :
  RegisterAllocator_delete true
    (mkMethodBody [0; 1] (fun b => [10 * b]) (fun b => [b + 1; b + 2]))
    (fun _ => NullInterval) 3 = RawAddress 0xebad7113.
Proof.
  apply (proj1 (RegisterAllocator_delete_poisons
                  (mkMethodBody [0; 1] (fun b => [10 * b])
                     (fun b => [b + 1; b + 2]))
                  (fun _ => NullInterval) 3)).
  exists 1. split.
  - apply list_elem_of_further, list_elem_of_here.
  - right. apply list_elem_of_further, list_elem_of_here.
Defined.
